(** * Swarm-optimisation engines of grey-wolf-opt-visualization

    A shallow embedding of the three simulation engines of the repository
    (ant colony [AcoSimulation.tsx], grey wolf and bees [WolfSimulation.tsx])
    and the properties their specification states about them.

    Modelling conventions.
    - A JavaScript [number] is a value of [num]: an exact rational, one of the
      two infinities, or NaN.  Infinity and NaN follow the JavaScript rules
      (x/0, Infinity - Infinity, comparisons with NaN false); rounding and the
      sign of zero are not modelled.
    - [Math.sqrt], [Math.cos], [Math.sin], [Math.exp] and the stream of
      [Math.random()] results come from the host and are taken as a parameter
      ([Host]); the result of [Date.now()] is an argument of the frame that
      reads it.
    - A read of a property of [undefined] throws a TypeError: such reads are
      [Err TypeError] in the [result] type.  A JavaScript array that is written
      by index is a finite map from indices to values (a write past the end
      extends it, a read past the end is [undefined]).
    - Counters ([iterationRef], loop indices, city indices) are natural
      numbers; [populationSize] and [speed] are integers.
    - Rendering (canvas drawing, React state used only for display) is left
      out of the engines; whether a drawing context exists is an input of each
      tick.
    - A frame reads the [config] of the render that created its closure.  The
      engines take that [config] as an argument; [Component] models the
      renders, the effects with their dependency lists and the callbacks that
      the browser holds, and so says which closures run on which refs. *)

From Stdlib Require Import QArith Qround Qabs Lqa ZArith Lia.
From stdpp Require Import base numbers option list gmap sets sorting.

(** ** JavaScript numbers *)

Module Num.

Inductive num : Type :=
| Fin (q : Q)
| PInf
| NInf
| NaN.

Definition zero : num := Fin 0.
Definition one : num := Fin 1.
Definition of_Z (z : Z) : num := Fin (inject_Z z).
Definition of_nat (n : nat) : num := of_Z (Z.of_nat n).

Definition neg (x : num) : num :=
  match x with
  | Fin q => Fin (- q)
  | PInf => NInf
  | NInf => PInf
  | NaN => NaN
  end.

Definition add (x y : num) : num :=
  match x, y with
  | NaN, _ | _, NaN => NaN
  | Fin a, Fin b => Fin (a + b)
  | PInf, NInf | NInf, PInf => NaN
  | PInf, _ | _, PInf => PInf
  | NInf, _ | _, NInf => NInf
  end.

Definition sub (x y : num) : num := add x (neg y).

(** The sign of an infinite product or quotient: the infinity [inf] when the
    finite factor is positive, its opposite when negative, NaN when zero. *)
Definition signed (inf : num) (a : Q) : num :=
  match (a ?= 0)%Q with
  | Gt => inf
  | Lt => neg inf
  | Eq => NaN
  end.

Definition mul (x y : num) : num :=
  match x, y with
  | NaN, _ | _, NaN => NaN
  | Fin a, Fin b => Fin (a * b)
  | Fin a, PInf | PInf, Fin a => signed PInf a
  | Fin a, NInf | NInf, Fin a => signed NInf a
  | PInf, PInf | NInf, NInf => PInf
  | PInf, NInf | NInf, PInf => NInf
  end.

Definition div (x y : num) : num :=
  match x, y with
  | NaN, _ | _, NaN => NaN
  | Fin a, Fin b => if Qeq_bool b 0 then signed PInf a else Fin (a / b)
  | Fin _, PInf | Fin _, NInf => Fin 0
  | PInf, Fin b => if Qle_bool 0 b then PInf else NInf
  | NInf, Fin b => if Qle_bool 0 b then NInf else PInf
  | PInf, PInf | PInf, NInf | NInf, PInf | NInf, NInf => NaN
  end.

(** [x < y]; false as soon as one side is NaN. *)
Definition ltb (x y : num) : bool :=
  match x, y with
  | NaN, _ | _, NaN => false
  | Fin a, Fin b => match (a ?= b)%Q with Lt => true | _ => false end
  | NInf, Fin _ | NInf, PInf | Fin _, PInf => true
  | _, _ => false
  end.

(** [x <= y]; false as soon as one side is NaN. *)
Definition leb (x y : num) : bool :=
  match x, y with
  | NaN, _ | _, NaN => false
  | Fin a, Fin b => match (a ?= b)%Q with Gt => false | _ => true end
  | NInf, _ | _, PInf => true
  | _, _ => false
  end.

(** [x >= y] and [x > y] are the converse comparisons. *)
Definition geb (x y : num) : bool := leb y x.
Definition gtb (x y : num) : bool := ltb y x.

(** [x === y] on numbers: NaN differs from everything, itself included. *)
Definition eqb (x y : num) : bool :=
  match x, y with
  | Fin a, Fin b => Qeq_bool a b
  | PInf, PInf | NInf, NInf => true
  | _, _ => false
  end.

Definition isNaN (x : num) : bool :=
  match x with NaN => true | _ => false end.

Definition Math_abs (x : num) : num :=
  match x with
  | Fin q => Fin (Qabs q)
  | PInf | NInf => PInf
  | NaN => NaN
  end.

Definition Math_floor (x : num) : num :=
  match x with
  | Fin q => Fin (inject_Z (Qfloor q))
  | _ => x
  end.

(** [Math.max(x, y)] and [Math.min(x, y)]: NaN when an argument is NaN. *)
Definition Math_max (x y : num) : num :=
  if isNaN x || isNaN y then NaN else if ltb x y then y else x.
Definition Math_min (x y : num) : num :=
  if isNaN x || isNaN y then NaN else if ltb y x then y else x.

(** [Math.pow(x, n)] and [x ** n] for a literal exponent [n] (the source uses
    1 and 2 only): the [n]-fold product. *)
Fixpoint Math_pow (x : num) (n : nat) : num :=
  match n with
  | O => one
  | S O => x
  | S n' => mul (Math_pow x n') x
  end.

(** The array index a number denotes in [a[x]]: a non-negative integer, or
    nothing (the read then yields [undefined]). *)
Definition to_index (x : num) : option nat :=
  match x with
  | Fin q =>
      if Qeq_bool q (inject_Z (Qfloor q)) && (0 <=? Qfloor q)%Z
      then Some (Z.to_nat (Qfloor q)) else None
  | _ => None
  end.

(** A value read from an array slot and used in arithmetic: [undefined]
    becomes NaN. *)
Definition of_slot (o : option num) : num := default NaN o.

Definition finite (x : num) : Prop :=
  match x with Fin _ => True | _ => False end.

(** Strictly positive: a positive rational or +Infinity. *)
Definition positive (x : num) : Prop :=
  match x with
  | Fin q => (0 < q)%Q
  | PInf => True
  | _ => False
  end.

(** Finite and not negative. *)
Definition nonneg_fin (x : num) : Prop :=
  match x with Fin q => (0 <= q)%Q | _ => False end.

(** A result of [Math.random()]: in the interval [0, 1). *)
Definition unit_interval (x : num) : Prop :=
  match x with Fin q => (0 <= q < 1)%Q | _ => False end.

End Num.
Import Num.

(** ** Results of fallible code and the host environment *)

Inductive error : Type :=
| TypeError   (* a property of [undefined] was read *)
| RangeError  (* [Array(n)] with an invalid length *)
| OutOfFuel.  (* the model's loop bound was too small; never the program *)

Inductive result (A : Type) : Type :=
| Ok (a : A)
| Err (e : error).
Arguments Ok {A} a.
Arguments Err {A} e.

#[global] Instance result_ret : MRet result := fun A a => Ok a.
#[global] Instance result_bind : MBind result := fun A B f r =>
  match r with
  | Ok a => f a
  | Err e => Err e
  end.

(** [o] read where [undefined] would make the next property access throw. *)
Definition defined {A} (o : option A) : result A :=
  match o with
  | Some a => Ok a
  | None => Err TypeError
  end.

(** A [for] loop over the values [l] that threads the state [s]. *)
Fixpoint foldlM {F : Type -> Type} `{MBind F, MRet F} {A S : Type}
    (body : S -> A -> F S) (s : S) (l : list A) : F S :=
  match l with
  | [] => mret s
  | a :: l' => s' ← body s a; foldlM body s' l'
  end.

(** A JavaScript array with the elements of [l]. *)
Definition array {A} (l : list A) : gmap nat A := map_seq 0 l.

(** The first length that an array cannot have: [Array(n)] and
    [Array.from({ length: n })] throw a RangeError for an integer [n] of
    2^32 or more. *)
Definition ARRAY_LENGTH_LIMIT : Z := 4294967296.

(** [Array.prototype.sort] with the comparator [cmp].  The sort is stable; for
    a comparator that is a consistent order every stable sort returns the same
    array, here the one of insertion sort.  A comparator result of NaN counts
    as zero. *)
Fixpoint insertSorted {A} (cmp : A -> A -> num) (a : A) (l : list A) : list A :=
  match l with
  | [] => [a]
  | b :: l' => if gtb (cmp a b) zero then b :: insertSorted cmp a l' else a :: l
  end.

Fixpoint sort {A} (cmp : A -> A -> num) (l : list A) : list A :=
  match l with
  | [] => []
  | a :: l' => insertSorted cmp a (sort cmp l')
  end.

(** The order that a comparator [fun a b => key a - key b] sorts by. *)
Definition keyLe {A} (key : A -> num) (a b : A) : Prop :=
  leb (key a) (key b) = true.

(** [l.slice(0, n)]: a negative [n] counts from the end. *)
Definition slice0 {A} (l : list A) (n : Z) : list A :=
  if (n <? 0)%Z then take (length l - Z.to_nat (- n)) l
  else take (Z.to_nat n) l.

(** What the engines take from the JavaScript host. *)
Record Host : Type := {
  Math_sqrt : num -> num;
  Math_cos : num -> num;
  Math_sin : num -> num;
  Math_exp : num -> num;
  (** the successive results of [Math.random()] *)
  Math_random : nat -> num;
}.

(** [Math.sqrt] maps a finite non-negative number to a finite non-negative
    number. *)
Definition sqrt_sound (h : Host) : Prop :=
  forall x, nonneg_fin x -> nonneg_fin (Math_sqrt h x).

(** Every [Math.random()] result lies in [0, 1). *)
Definition random_sound (h : Host) : Prop :=
  forall k, unit_interval (Math_random h k).

(** The host [h] with the [j]-th random draw replaced by [v]. *)
Definition withDraw (h : Host) (j : nat) (v : num) : Host := {|
  Math_sqrt := Math_sqrt h;
  Math_cos := Math_cos h;
  Math_sin := Math_sin h;
  Math_exp := Math_exp h;
  Math_random := fun k => if decide (k = j) then v else Math_random h k;
|}.

(** Computations that draw random numbers: the state is the number of draws
    made so far. *)
Definition M (A : Type) : Type := nat -> result (A * nat).

#[global] Instance M_ret : MRet M := fun A a k => Ok (a, k).
#[global] Instance M_bind : MBind M := fun A B f m k =>
  match m k with
  | Ok (a, k') => f a k'
  | Err e => Err e
  end.
Definition throw {A} (e : error) : M A := fun _ => Err e.

Definition random (h : Host) : M num := fun k => Ok (Math_random h k, S k).

(** A computation without random draws, run inside one with. *)
Definition pure {A} (r : result A) : M A :=
  fun k => match r with Ok a => Ok (a, k) | Err e => Err e end.

(** ** Shared types ([types.ts]) *)

Module Point.
Record t : Type := mk { x : num; y : num }.
End Point.

Record SimulationStats : Type := {
  iteration : nat;
  bestScore : num;
  stats_populationSize : Z;
}.

Record SimulationConfig : Type := {
  populationSize : Z;
  speed : Z;
  isRunning : bool;
}.

(** ** Ant colony engine ([AcoSimulation.tsx]) *)

Module Aco.

Definition CITY_COUNT : nat := 15.
Definition CANVAS_SIZE : num := Fin 600.

(** The refs of the component that hold the engine's state. *)
Record State : Type := {
  pheromonesRef : gmap nat (gmap nat num);
  bestPathRef : list nat;
  bestDistRef : num;
  iterationRef : nat;
}.

(** What one frame hands to its collaborators: the statistics passed to
    [onStatsUpdate] and the paths of the ants, which the renderer draws. *)
Record Frame : Type := {
  state : State;
  stats : option SimulationStats;
  currentAntsPaths : list (list nat);
}.

Section Engine.
Context (h : Host).

(** The mount effect: fifteen random cities. *)
Definition initCities : M (list Point.t) :=
  foldlM (fun newCities (_ : nat) =>
            rx ← random h;
            ry ← random h;
            mret (newCities ++
              [Point.mk (add (mul rx (sub CANVAS_SIZE (Fin 40))) (Fin 20))
                        (add (mul ry (sub CANVAS_SIZE (Fin 40))) (Fin 20))]))
         [] (seq 0 CITY_COUNT).

(** The mount effect: the refs. *)
Definition initState : State := {|
  pheromonesRef := array (replicate CITY_COUNT (array (replicate CITY_COUNT one)));
  bestPathRef := [];
  bestDistRef := PInf;
  iterationRef := 0;
|}.

Definition distance (p1 p2 : Point.t) : num :=
  Math_sqrt h (add (Math_pow (sub (Point.x p1) (Point.x p2)) 2)
                   (Math_pow (sub (Point.y p1) (Point.y p2)) 2)).

(** The body of the loop over [next] (lines 74-84): the desirability of each
    city not visited yet. *)
Definition scanStep (cities : list Point.t) (pheromones : gmap nat (gmap nat num))
    (currentCity : nat) (visited : gset nat)
    (acc : list num * list nat * num) (next : nat)
    : result (list num * list nat * num) :=
  let '(probs, candidates, sumProb) := acc in
  if decide (next ∈ visited) then Ok acc
  else
    p1 ← defined (cities !! currentCity);
    p2 ← defined (cities !! next);
    let dist := distance p1 p2 in
    row ← defined (pheromones !! currentCity);
    let pheromone := of_slot (row !! next) in
    let prob := mul (Math_pow pheromone 1) (Math_pow (div one dist) 2) in
    Ok (probs ++ [prob], candidates ++ [next], add sumProb prob).

Definition scan (cities : list Point.t) (pheromones : gmap nat (gmap nat num))
    (currentCity : nat) (visited : gset nat)
    : result (list num * list nat * num) :=
  foldlM (scanStep cities pheromones currentCity visited)
         ([], [], zero) (seq 0 CITY_COUNT).

(** The roulette loop (lines 89-95) from index [i] on, over the probabilities
    [probs] that remain: [selected] is returned when no [r <= 0] is met. *)
Fixpoint roulette (probs : list num) (candidates : list nat) (i : nat)
    (r : num) (selected : option nat) : option nat :=
  match probs with
  | [] => selected
  | p :: probs' =>
      let r' := sub r p in
      if leb r' zero then candidates !! i
      else roulette probs' candidates (S i) r' selected
  end.

(** Roulette wheel selection (lines 86-95) for the random draw [u]; [None] is
    [undefined]. *)
Definition select (probs : list num) (candidates : list nat) (sumProb u : num)
    : option nat :=
  let r := mul u sumProb in
  let selected := last candidates in
  roulette probs candidates 0 r selected.

(** The [while] loop of one ant (lines 68-100); at most [fuel] rounds.  A
    selection that is [undefined] throws here: in the source it is stored, and
    the next read of [cities[...]] with it throws before the frame ends. *)
Fixpoint walk (cities : list Point.t) (pheromones : gmap nat (gmap nat num))
    (fuel : nat) (visited : gset nat) (path : list nat) (currentCity : nat)
    : M (list nat) :=
  if decide (size visited < CITY_COUNT) then
    match fuel with
    | O => throw OutOfFuel
    | S fuel' =>
        '(probs, candidates, sumProb) ← pure (scan cities pheromones currentCity visited);
        u ← random h;
        selected ← pure (defined (select probs candidates sumProb u));
        walk cities pheromones fuel' ({[selected]} ∪ visited)
             (path ++ [selected]) selected
    end
  else mret path.

(** The path of one ant (lines 62-100).  A start that is no index of
    [cities] makes the first distance computation throw. *)
Definition constructPath (cities : list Point.t)
    (pheromones : gmap nat (gmap nat num)) : M (list nat) :=
  u ← random h;
  currentCity ← pure (defined (to_index (Math_floor (mul u (of_nat CITY_COUNT)))));
  walk cities pheromones CITY_COUNT {[currentCity]} [currentCity] currentCity.

(** [cities[path[i]]], whose coordinates are read next. *)
Definition cityAt (cities : list Point.t) (path : list nat) (i : nat)
    : result Point.t :=
  c ← defined (path !! i);
  defined (cities !! c).

(** The length of the closed tour (lines 107-112). *)
Definition tourLength (cities : list Point.t) (path : list nat) : result num :=
  d ← foldlM (fun d i =>
                p ← cityAt cities path i;
                q ← cityAt cities path (i + 1);
                Ok (add d (distance p q)))
             zero (seq 0 (length path - 1));
  p ← cityAt cities path (length path - 1);
  q ← cityAt cities path 0;
  Ok (add d (distance p q)).

(** What the loop over the ants carries. *)
Record Colony : Type := {
  antsPaths : list (list nat);
  pathDistances : list num;
  bestPath : list nat;
  bestDist : num;
}.

(** One ant (the body of the loop of lines 61-119). *)
Definition ant (cities : list Point.t) (pheromones : gmap nat (gmap nat num))
    (c : Colony) (_ : nat) : M Colony :=
  path ← constructPath cities pheromones;
  d ← pure (tourLength cities path);
  let better := ltb d (bestDist c) in
  mret {| antsPaths := antsPaths c ++ [path];
          pathDistances := pathDistances c ++ [d];
          bestPath := if better then path else bestPath c;
          bestDist := if better then d else bestDist c |}.

Definition rho : num := Fin (1 # 10).

(** Evaporation (lines 123-127). *)
Definition evaporateRow (row : gmap nat num) : gmap nat num :=
  foldl (fun row j => <[j := mul (of_slot (row !! j)) (sub one rho)]> row)
        row (seq 0 CITY_COUNT).

Definition evaporate (pheromones : gmap nat (gmap nat num))
    : result (gmap nat (gmap nat num)) :=
  foldlM (fun ph i =>
            row ← defined (ph !! i);
            Ok (<[i := evaporateRow row]> ph))
         pheromones (seq 0 CITY_COUNT).

(** [pheromones[u][v] += contribution]. *)
Definition bump (contribution : num) (pheromones : gmap nat (gmap nat num))
    (u v : nat) : result (gmap nat (gmap nat num)) :=
  row ← defined (pheromones !! u);
  Ok (<[u := <[v := add (of_slot (row !! v)) contribution]> row]> pheromones).

(** Both directions of the edge between [path[i]] and [path[j]]. *)
Definition depositEdge (contribution : num) (path : list nat)
    (pheromones : gmap nat (gmap nat num)) (i j : nat)
    : result (gmap nat (gmap nat num)) :=
  u ← defined (path !! i);
  v ← defined (path !! j);
  ph ← bump contribution pheromones u v;
  bump contribution ph v u.

(** The deposit of ant [k] (the body of the loop of lines 129-143). *)
Definition deposit (paths : list (list nat)) (dists : list num)
    (pheromones : gmap nat (gmap nat num)) (k : nat)
    : result (gmap nat (gmap nat num)) :=
  path ← defined (paths !! k);
  let contribution := div (Fin 100) (of_slot (dists !! k)) in
  ph ← foldlM (fun ph i => depositEdge contribution path ph i (i + 1))
              pheromones (seq 0 (length path - 1));
  depositEdge contribution path ph (length path - 1) 0.

(** One frame of the animation loop (lines 44-216), rendering left out. *)
Definition animate (config : SimulationConfig) (ctx : bool)
    (cities : list Point.t) (st : State) : M Frame :=
  if negb (isRunning config) then
    mret {| state := st; stats := None; currentAntsPaths := [] |}
  else if negb ctx then
    mret {| state := st; stats := None; currentAntsPaths := [] |}
  else
    let iteration' := S (iterationRef st) in
    c ← foldlM (ant cities (pheromonesRef st))
               {| antsPaths := []; pathDistances := [];
                  bestPath := bestPathRef st; bestDist := bestDistRef st |}
               (seq 0 (Z.to_nat (populationSize config)));
    ph ← pure (evaporate (pheromonesRef st));
    ph ← pure (foldlM (deposit (antsPaths c) (pathDistances c)) ph
                      (seq 0 (length (antsPaths c))));
    mret {| state := {| pheromonesRef := ph;
                        bestPathRef := bestPath c;
                        bestDistRef := bestDist c;
                        iterationRef := iteration' |};
            stats := Some {| iteration := iteration';
                             bestScore := bestDist c;
                             stats_populationSize := populationSize config |};
            currentAntsPaths := antsPaths c |}.

(** [ticks cities st st']: a sequence of frames leads from [st] to [st']. *)
Inductive ticks (cities : list Point.t) : State -> State -> Prop :=
| ticks_refl st : ticks cities st st
| ticks_step config ctx st st' k fr k' :
    ticks cities st st' ->
    animate config ctx cities st' k = Ok (fr, k') ->
    ticks cities st (state fr).

(** The engine states that the frames reach from the state at mount. *)
Definition reachable (cities : list Point.t) (st : State) : Prop :=
  ticks cities initState st.

End Engine.

(** [pheromones[i][j]]. *)
Definition entry (pheromones : gmap nat (gmap nat num)) (i j : nat) : option num :=
  row ← pheromones !! i; row !! j.

(** The matrix is symmetric and strictly positive on the city pairs. *)
Definition symmetricPositive (pheromones : gmap nat (gmap nat num)) : Prop :=
  forall i j, i < CITY_COUNT -> j < CITY_COUNT ->
    exists v, entry pheromones i j = Some v
              /\ entry pheromones j i = Some v
              /\ positive v.

(** Every row of the matrix exists. *)
Definition hasRows (pheromones : gmap nat (gmap nat num)) : Prop :=
  forall i, i < CITY_COUNT -> is_Some (pheromones !! i).

(** The best tour after the ants with the paths and tour lengths [ants], in
    their order, from the best tour [best] before them (lines 115-118). *)
Definition bestAfter (best : list nat * num) (ants : list (list nat * num))
    : list nat * num :=
  foldl (fun best ant => if ltb ant.2 best.2 then ant else best) best ants.

(** The best tour of the colony [c] is the one of [c0], or a strictly shorter
    tour of one of the ants of [c]. *)
Definition improved (h : Host) (cities : list Point.t) (c0 c : Colony) : Prop :=
  (bestPath c, bestDist c) = (bestPath c0, bestDist c0)
  \/ (ltb (bestDist c) (bestDist c0) = true
      /\ bestPath c ∈ antsPaths c
      /\ tourLength h cities (bestPath c) = Ok (bestDist c)).

(** A roulette remainder that is +Infinity or NaN: it stays so under the
    subtractions of the loop and never passes the test [r <= 0]. *)
Definition unbounded (r : num) : Prop := r = PInf \/ r = NaN.

(** The city list after the mount effect: [CITY_COUNT] points with finite
    coordinates. *)
Definition citiesInitialized (cities : list Point.t) : Prop :=
  length cities = CITY_COUNT
  /\ Forall (fun p => finite (Point.x p) /\ finite (Point.y p)) cities.

End Aco.

(** ** Grey wolf engine ([WolfSimulation.tsx]) *)

Module Gwo.

Definition CANVAS_SIZE : num := Fin 600.
Definition PHASE_DURATION : num := Fin 150.

Inductive Phase : Type :=
| MOVE_PREY
| EVALUATE
| RANK
| CALCULATE
| MOVE_WOLVES.

Inductive WolfType : Type :=
| alpha
| beta
| delta
| omega.

#[global] Instance WolfType_eq_dec : EqDecision WolfType.
Proof. solve_decision. Defined.
#[global] Instance Phase_eq_dec : EqDecision Phase.
Proof. solve_decision. Defined.

Module Wolf.
Record t : Type := mk {
  id : nat;
  x : num;
  y : num;
  targetX : num;
  targetY : num;
  type : WolfType;
  score : num;
}.
Definition setType (ty : WolfType) (w : t) : t :=
  mk (id w) (x w) (y w) (targetX w) (targetY w) ty (score w).
Definition setScore (s : num) (w : t) : t :=
  mk (id w) (x w) (y w) (targetX w) (targetY w) (type w) s.
Definition setTarget (tx ty : num) (w : t) : t :=
  mk (id w) (x w) (y w) tx ty (type w) (score w).
Definition setPos (px py : num) (w : t) : t :=
  mk (id w) px py (targetX w) (targetY w) (type w) (score w).
End Wolf.

(** The refs of the component that hold the engine's state.  [wolvesRef] is an
    array of objects that are updated in place: a wolf object is identified
    with its position in the list. *)
Record State : Type := {
  wolvesRef : list Wolf.t;
  preyRef : Point.t;
  phaseRef : Phase;
  phaseTimerRef : num;
  iterationRef : nat;
}.

Record Frame : Type := {
  state : State;
  stats : option SimulationStats;
}.

(** The wolf object at position [i] holds the rank [ty]. *)
Definition holds (ty : WolfType) (wolves : list Wolf.t) (i : nat) : Prop :=
  Wolf.type <$> wolves !! i = Some ty.

Section Engine.
Context (h : Host).

(** The wolf with the identifier [i] of the initialisation effect (lines
    59-70), its target already set to its position. *)
Definition initialWolf (i : nat) : M Wolf.t :=
  rx ← random h;
  ry ← random h;
  rtx ← random h;
  rty ← random h;
  let w := Wolf.mk i (mul rx CANVAS_SIZE) (mul ry CANVAS_SIZE)
                   (mul rtx CANVAS_SIZE) (mul rty CANVAS_SIZE)
                   omega PInf in
  mret (Wolf.setTarget (Wolf.x w) (Wolf.y w) w).

(** The wolves of the initialisation effect; [Array.from] takes a negative
    length as zero and throws a RangeError for a length of 2^32 or more. *)
Definition initWolves (populationSize : Z) : M (list Wolf.t) :=
  if (ARRAY_LENGTH_LIMIT <=? populationSize)%Z then throw RangeError
  else
    foldlM (fun ws i => w ← initialWolf i; mret (ws ++ [w]))
           [] (seq 0 (Z.to_nat populationSize)).

(** The initialisation effect (lines 58-77); the prey keeps its position. *)
Definition initialize (config : SimulationConfig) (prey : Point.t) : M State :=
  initialWolves ← initWolves (populationSize config);
  mret {| wolvesRef := initialWolves;
          preyRef := prey;
          phaseRef := EVALUATE;
          phaseTimerRef := zero;
          iterationRef := 0 |}.

(** The state at mount: the prey at the centre of the canvas. *)
Definition mount (config : SimulationConfig) : M State :=
  initialize config
    (Point.mk (div CANVAS_SIZE (Fin 2)) (div CANVAS_SIZE (Fin 2))).

Definition distance (x1 y1 x2 y2 : num) : num :=
  Math_sqrt h (add (Math_pow (sub x2 x1) 2) (Math_pow (sub y2 y1) 2)).

Definition lerp (start end_ t : num) : num :=
  add (mul start (sub one t)) (mul end_ t).

(** [wolvesRef.current.find(w => w.type === ty)], as the position of the wolf
    found. *)
Definition findType (ty : WolfType) (wolves : list Wolf.t) : option (nat * Wolf.t) :=
  list_find (fun w => Wolf.type w = ty) wolves.

(** The score of the wolf object at position [i]. *)
Definition scoreAt (wolves : list Wolf.t) (i : nat) : num :=
  of_slot (Wolf.score <$> wolves !! i).

(** [sorted[k].type = ty], guarded by [if (sorted[k])]: the write reaches the
    wolf object that [sorted[k]] refers to. *)
Definition assign (sorted : list nat) (k : nat) (ty : WolfType)
    (wolves : list Wolf.t) : list Wolf.t :=
  match sorted !! k with
  | Some i => alter (Wolf.setType ty) i wolves
  | None => wolves
  end.

(** The RANK action (lines 157-166).  [sorted] is a copy of the array that
    shares the wolf objects, so it is a list of positions in [wolves]. *)
Definition rank (wolves : list Wolf.t) : list Wolf.t :=
  let sorted := sort (fun a b => sub (scoreAt wolves a) (scoreAt wolves b))
                     (seq 0 (length wolves)) in
  let wolves := Wolf.setType omega <$> wolves in
  let wolves := assign sorted 0 alpha wolves in
  let wolves := assign sorted 1 beta wolves in
  assign sorted 2 delta wolves.

(** [computeDim] (lines 184-204); [A] is the constant of the enclosing
    callback. *)
Definition computeDim (A current alphaPos betaPos deltaPos : num) : M num :=
  r1 ← random h;
  r2 ← random h;
  let A1 := sub (mul (mul (Fin 2) A) r1) A in
  let C1 := mul (Fin 2) r2 in
  let D_alpha := Math_abs (sub (mul C1 alphaPos) current) in
  let X1 := sub alphaPos (mul A1 D_alpha) in
  r3 ← random h;
  r4 ← random h;
  let A2 := sub (mul (mul (Fin 2) A) r3) A in
  let C2 := mul (Fin 2) r4 in
  let D_beta := Math_abs (sub (mul C2 betaPos) current) in
  let X2 := sub betaPos (mul A2 D_beta) in
  r5 ← random h;
  r6 ← random h;
  let A3 := sub (mul (mul (Fin 2) A) r3) A in
  let C3 := mul (Fin 2) r6 in
  let D_delta := Math_abs (sub (mul C3 deltaPos) current) in
  let X3 := sub deltaPos (mul A3 D_delta) in
  mret (div (add (add X1 X2) X3) (Fin 3)).

Definition clamp (v : num) : num :=
  Math_max (Fin 10) (Math_min (sub CANVAS_SIZE (Fin 10)) v).

(** The body of the [forEach] of the CALCULATE action (lines 180-212) for the
    leaders [a], [b] and [d]. *)
Definition retarget (iteration : nat) (a b d w : Wolf.t) : M Wolf.t :=
  let A := sub (Fin 2) (mul (Fin 2) (div (of_nat iteration) (Fin 1000))) in
  tx ← computeDim A (Wolf.x w) (Wolf.x a) (Wolf.x b) (Wolf.x d);
  ty ← computeDim A (Wolf.y w) (Wolf.y a) (Wolf.y b) (Wolf.y d);
  mret (Wolf.setTarget (clamp tx) (clamp ty) w).

(** The CALCULATE action (lines 174-213).  The callback writes only the
    target fields, which it never reads, so the leaders' positions are those
    of the array before the loop. *)
Definition calculate (iteration : nat) (wolves : list Wolf.t) : M (list Wolf.t) :=
  match findType alpha wolves, findType beta wolves, findType delta wolves with
  | Some (_, a), Some (_, b), Some (_, d) =>
      foldlM (fun ws w => w' ← retarget iteration a b d w; mret (ws ++ [w']))
             [] wolves
  | _, _, _ => mret wolves
  end.

(** [advancePhase] (lines 132-226); [now] is the result of [Date.now()]. *)
Definition advancePhase (now : num) (st : State) : M State :=
  match phaseRef st with
  | MOVE_PREY =>
      let time := mul now (Fin (5 # 10000)) in
      mret {| wolvesRef := wolvesRef st;
              preyRef :=
                Point.mk
                  (add (div CANVAS_SIZE (Fin 2)) (mul (Math_cos h time) (Fin 150)))
                  (add (div CANVAS_SIZE (Fin 2))
                       (mul (Math_sin h (mul time (Fin 2))) (Fin 80)));
              phaseRef := EVALUATE;
              phaseTimerRef := phaseTimerRef st;
              iterationRef := iterationRef st |}
  | EVALUATE =>
      let prey := preyRef st in
      mret {| wolvesRef :=
                (fun w => Wolf.setScore
                            (distance (Wolf.x w) (Wolf.y w)
                                      (Point.x prey) (Point.y prey)) w)
                <$> wolvesRef st;
              preyRef := preyRef st;
              phaseRef := RANK;
              phaseTimerRef := phaseTimerRef st;
              iterationRef := iterationRef st |}
  | RANK =>
      mret {| wolvesRef := rank (wolvesRef st);
              preyRef := preyRef st;
              phaseRef := CALCULATE;
              phaseTimerRef := phaseTimerRef st;
              iterationRef := iterationRef st |}
  | CALCULATE =>
      wolves ← calculate (iterationRef st) (wolvesRef st);
      mret {| wolvesRef := wolves;
              preyRef := preyRef st;
              phaseRef := MOVE_WOLVES;
              phaseTimerRef := phaseTimerRef st;
              iterationRef := iterationRef st |}
  | MOVE_WOLVES =>
      mret {| wolvesRef := wolvesRef st;
              preyRef := preyRef st;
              phaseRef := MOVE_PREY;
              phaseTimerRef := phaseTimerRef st;
              iterationRef := S (iterationRef st) |}
  end.

Definition setTimer (t : num) (st : State) : State :=
  {| wolvesRef := wolvesRef st;
     preyRef := preyRef st;
     phaseRef := phaseRef st;
     phaseTimerRef := t;
     iterationRef := iterationRef st |}.

Definition setWolves (ws : list Wolf.t) (st : State) : State :=
  {| wolvesRef := ws;
     preyRef := preyRef st;
     phaseRef := phaseRef st;
     phaseTimerRef := phaseTimerRef st;
     iterationRef := iterationRef st |}.

(** The interpolation of the positions towards the targets (lines 110-113). *)
Definition moveWolves (moveSpeed : num) (wolves : list Wolf.t) : list Wolf.t :=
  (fun w => Wolf.setPos (lerp (Wolf.x w) (Wolf.targetX w) moveSpeed)
                        (lerp (Wolf.y w) (Wolf.targetY w) moveSpeed) w)
  <$> wolves.

(** One frame of the animation loop (lines 85-130), rendering left out. *)
Definition animate (config : SimulationConfig) (ctx : bool) (now : num)
    (st : State) : M Frame :=
  if negb (isRunning config) then mret {| state := st; stats := None |}
  else if negb ctx then mret {| state := st; stats := None |}
  else
    let speedMultiplier :=
      add (Fin (2 # 10))
          (mul (div (of_Z (speed config)) (Fin 100)) (Fin (8 # 10))) in
    let st := setTimer (add (phaseTimerRef st) speedMultiplier) st in
    st ← (if geb (phaseTimerRef st) PHASE_DURATION
          then advancePhase now (setTimer zero st)
          else mret st);
    let st :=
      if bool_decide (phaseRef st = MOVE_WOLVES ∨ phaseRef st = MOVE_PREY) then
        let moveSpeed := mul (Fin (5 # 100)) speedMultiplier in
        setWolves (moveWolves moveSpeed (wolvesRef st)) st
      else st in
    let alphaWolf := findType alpha (wolvesRef st) in
    mret {| state := st;
            stats :=
              if bool_decide (iterationRef st mod 10 = 0) then
                Some {| iteration := iterationRef st;
                        bestScore :=
                          match alphaWolf with
                          | Some (_, a) => Wolf.score a
                          | None => zero
                          end;
                        stats_populationSize := populationSize config |}
              else None |}.

(** [n] frames in a row with a drawing context, all at the time [now]. *)
Fixpoint frames (n : nat) (config : SimulationConfig) (now : num) (st : State)
    : M State :=
  match n with
  | O => mret st
  | S n' => fr ← animate config true now st; frames n' config now (state fr)
  end.

(** The engine states reached by mounting, by re-initialising after a change
    of the population size, and by frames. *)
Inductive reachable : State -> Prop :=
| reachable_mount config k st k' :
    mount config k = Ok (st, k') -> reachable st
| reachable_initialize config st k st' k' :
    reachable st ->
    initialize config (preyRef st) k = Ok (st', k') ->
    reachable st'
| reachable_frame config ctx now st k fr k' :
    reachable st -> finite now ->
    animate config ctx now st k = Ok (fr, k') ->
    reachable (state fr).

End Engine.

(** [computeDim] as the specification words it: each leader's coefficients
    come from two draws of their own, so [A3] is formed from the fresh draw
    [r5]. *)
Definition computeDimSpec (h : Host) (A current alphaPos betaPos deltaPos : num)
    : M num :=
  r1 ← random h;
  r2 ← random h;
  let A1 := sub (mul (mul (Fin 2) A) r1) A in
  let C1 := mul (Fin 2) r2 in
  let D_alpha := Math_abs (sub (mul C1 alphaPos) current) in
  let X1 := sub alphaPos (mul A1 D_alpha) in
  r3 ← random h;
  r4 ← random h;
  let A2 := sub (mul (mul (Fin 2) A) r3) A in
  let C2 := mul (Fin 2) r4 in
  let D_beta := Math_abs (sub (mul C2 betaPos) current) in
  let X2 := sub betaPos (mul A2 D_beta) in
  r5 ← random h;
  r6 ← random h;
  let A3 := sub (mul (mul (Fin 2) A) r5) A in
  let C3 := mul (Fin 2) r6 in
  let D_delta := Math_abs (sub (mul C3 deltaPos) current) in
  let X3 := sub deltaPos (mul A3 D_delta) in
  mret (div (add (add X1 X2) X3) (Fin 3)).

(** No wolf is delta. *)
Definition noDelta (wolves : list Wolf.t) : Prop :=
  Forall (fun w => Wolf.type w <> delta) wolves.

(** [w'] is the wolf [w] with a new target. *)
Definition retargeted (w w' : Wolf.t) : Prop :=
  exists tx ty, w' = Wolf.setTarget tx ty w.

(** [Math.cos] and [Math.sin] map finite numbers to finite numbers. *)
Definition trig_sound (h : Host) : Prop :=
  forall v, finite v -> finite (Math_cos h v) /\ finite (Math_sin h v).

(** A wolf with finite coordinates and targets and a score that is a number. *)
Definition wolfOk (w : Wolf.t) : Prop :=
  finite (Wolf.x w) /\ finite (Wolf.y w)
  /\ finite (Wolf.targetX w) /\ finite (Wolf.targetY w)
  /\ isNaN (Wolf.score w) = false.

Definition wellFormed (st : State) : Prop :=
  Forall wolfOk (wolvesRef st)
  /\ finite (Point.x (preyRef st)) /\ finite (Point.y (preyRef st)).

End Gwo.

(** ** Bees engine (the second component of [WolfSimulation.tsx]) *)

Module Bees.

Definition CANVAS_SIZE : num := Fin 600.

Record State : Type := {
  beesRef : list Point.t;
  bestRef : num;
  iterationRef : nat;
}.

Record Frame : Type := {
  state : State;
  stats : option SimulationStats;
}.

(** A bee with its score ([{ ...b, score }]). *)
Record Scored : Type := {
  pos : Point.t;
  score : num;
}.

Section Engine.
Context (h : Host).

(** The fitness landscape (lines 360-375). *)
Definition getFitness (x y : num) : num :=
  let cx := div CANVAS_SIZE (Fin 2) in
  let cy := div CANVAS_SIZE (Fin 2) in
  let d1 := Math_sqrt h (add (Math_pow (sub x cx) 2) (Math_pow (sub y cy) 2)) in
  let v1 := mul (Fin 100) (Math_exp h (div (neg d1) (Fin 100))) in
  let d2 := Math_sqrt h (add (Math_pow (add (sub x cx) (Fin 150)) 2)
                             (Math_pow (sub (sub y cy) (Fin 100)) 2)) in
  let v2 := mul (Fin 80) (Math_exp h (div (neg d2) (Fin 80))) in
  let d3 := Math_sqrt h (add (Math_pow (sub (sub x cx) (Fin 150)) 2)
                             (Math_pow (add (sub y cy) (Fin 150)) 2)) in
  let v3 := mul (Fin 60) (Math_exp h (div (neg d3) (Fin 60))) in
  add (add v1 v2) v3.

(** A uniformly random point of the canvas. *)
Definition scout : M Point.t :=
  rx ← random h;
  ry ← random h;
  mret (Point.mk (mul rx CANVAS_SIZE) (mul ry CANVAS_SIZE)).

(** The initialisation effect (lines 386-394): [Array(n)] throws a RangeError
    for a negative length and for a length of 2^32 or more. *)
Definition initialize (config : SimulationConfig) : M State :=
  if (populationSize config <? 0)%Z
     || (ARRAY_LENGTH_LIMIT <=? populationSize config)%Z
  then throw RangeError
  else
    bees ← foldlM (fun bs (_ : nat) => b ← scout; mret (bs ++ [b]))
                  [] (seq 0 (Z.to_nat (populationSize config)));
    mret {| beesRef := bees; bestRef := zero; iterationRef := 0 |}.

Definition clamp (v : num) : num :=
  Math_max zero (Math_min CANVAS_SIZE v).

(** A neighbour of the site [s] within [width / 2] per axis, clamped. *)
Definition neighbor (width : num) (s : Scored) : M Point.t :=
  rx ← random h;
  let neighborX := add (Point.x (pos s)) (mul (sub rx (Fin (1 # 2))) width) in
  ry ← random h;
  let neighborY := add (Point.y (pos s)) (mul (sub ry (Fin (1 # 2))) width) in
  mret (Point.mk (clamp neighborX) (clamp neighborY)).

(** [Math.floor(populationSize * ratio)], an integer. *)
Definition floorOf (populationSize : Z) (ratio : Q) : Z :=
  Qfloor (inject_Z populationSize * ratio).

(** The elite sites (lines 447-453). *)
Definition eliteSites (scoredBees : list Scored) (eliteCount : Z)
    (newBees : list Point.t) : M (list Point.t) :=
  foldlM (fun newBees i =>
            s ← pure (defined (scoredBees !! i));
            let newBees := newBees ++ [Point.mk (Point.x (pos s)) (Point.y (pos s))] in
            n ← neighbor (Fin 20) s;
            mret (newBees ++ [n]))
         newBees (seq 0 (Z.to_nat eliteCount)).

(** The other good sites (lines 456-462), from [eliteCount] up to
    [bestCount]. *)
Definition otherSites (config : SimulationConfig) (scoredBees : list Scored)
    (eliteCount bestCount : Z) (newBees : list Point.t) : M (list Point.t) :=
  foldlM (fun newBees i =>
            if (Z.of_nat (length newBees) <? populationSize config)%Z then
              s ← pure (defined (scoredBees !! i));
              n ← neighbor (Fin 50) s;
              mret (newBees ++ [n])
            else mret newBees)
         newBees
         (seq (Z.to_nat eliteCount) (Z.to_nat bestCount - Z.to_nat eliteCount)).

(** The scouts (lines 465-470): the [while] loop pushes one bee per round, so
    it runs once per missing bee. *)
Definition scouts (config : SimulationConfig) (newBees : list Point.t)
    : M (list Point.t) :=
  foldlM (fun newBees (_ : nat) => b ← scout; mret (newBees ++ [b]))
         newBees
         (seq 0 (Z.to_nat (populationSize config - Z.of_nat (length newBees)))).

Definition setIteration (n : nat) (st : State) : State :=
  {| beesRef := beesRef st; bestRef := bestRef st; iterationRef := n |}.

(** One frame of the animation loop (lines 424-498), rendering left out. *)
Definition animate (config : SimulationConfig) (ctx : bool) (st : State)
    : M Frame :=
  if negb (isRunning config) then mret {| state := st; stats := None |}
  else
    let st := setIteration (S (iterationRef st)) st in
    if negb ctx then mret {| state := st; stats := None |}
    else
      let scoredBees :=
        (fun b => {| pos := b; score := getFitness (Point.x b) (Point.y b) |})
        <$> beesRef st in
      let scoredBees := sort (fun a b => sub (score b) (score a)) scoredBees in
      top ← pure (defined (scoredBees !! 0));
      let best := if gtb (score top) (bestRef st) then score top else bestRef st in
      let eliteCount := floorOf (populationSize config) (2 # 10) in
      let bestCount := floorOf (populationSize config) (5 # 10) in
      newBees ← eliteSites scoredBees eliteCount [];
      newBees ← otherSites config scoredBees eliteCount bestCount newBees;
      newBees ← scouts config newBees;
      mret {| state := {| beesRef := slice0 newBees (populationSize config);
                          bestRef := best;
                          iterationRef := iterationRef st |};
              stats := Some {| iteration := iterationRef st;
                               bestScore := best;
                               stats_populationSize := populationSize config |} |}.

(** The refs that a frame leaves when it throws (it does so reading a bee
    that is [undefined], lines 438-460): the iteration is counted (line 428),
    the best fitness is updated unless the very first read threw (line 438),
    and the bees are those of before, since [beesRef] is assigned at the end
    of the frame only (line 473). *)
Definition thrown (st : State) : State :=
  let scoredBees :=
    (fun b => {| pos := b; score := getFitness (Point.x b) (Point.y b) |})
    <$> beesRef st in
  let scoredBees := sort (fun a b => sub (score b) (score a)) scoredBees in
  {| beesRef := beesRef st;
     bestRef :=
       match scoredBees !! 0 with
       | Some top =>
           if gtb (score top) (bestRef st) then score top else bestRef st
       | None => bestRef st
       end;
     iterationRef := S (iterationRef st) |}.

(** The engine states that the component reaches: by the initialisation
    effect, which runs at mount and whenever the population size changes, and
    by frames.  The [config] of a frame is the one its closure was created
    with: the effect that starts the loop depends on [isRunning] and [speed]
    only (lines 500-503), so after a change of the population size the
    frames go on with the former size on the bees of the new one.  A frame
    that throws leaves the refs it had written. *)
Inductive reachable : State -> Prop :=
| reachable_initialize config k st k' :
    initialize config k = Ok (st, k') ->
    reachable st
| reachable_frame config ctx st k fr k' :
    reachable st ->
    animate config ctx st k = Ok (fr, k') ->
    reachable (state fr)
| reachable_thrown config ctx st k e :
    reachable st ->
    animate config ctx st k = Err e ->
    reachable (thrown st).

End Engine.
End Bees.

(** ** The components around the engines

    Each engine lives in a React component.  A render of the component
    creates the closure [animate], which reads the [config] of that render
    for as long as it is called, while the refs are shared by the closures
    of all renders.  The browser calls [animate] as the callback of a
    [requestAnimationFrame]; in the ant colony and in the bees a frame that
    has run asks for the next one through a [setTimeout], whose callback then
    requests the frame.  The effect that starts the loop cancels, when its
    dependencies change, the frame whose handle is in [requestRef], and
    requests a frame for the closure of the new render.

    The model keeps the callbacks that the browser holds.  An event says
    which of them is called, whether the canvas gives a drawing context, what
    [Date.now()] returns and from which position of the stream the random
    draws are taken; or it is a render with new props.  A step is undefined
    when the callback does not exist, when an initialisation effect throws
    (React then unmounts the component), and when a frame of the ant colony
    or of the grey wolves throws: the refs that such a frame leaves are not
    modelled.  A frame of the bees that throws leaves [Bees.thrown]. *)

Module Component.

(** A callback that the browser holds: the [animate] of the render with the
    props [closure], requested under [handle], or the callback of a
    [setTimeout] that will request it. *)
Inductive Task : Type :=
| Frame (handle : nat) (closure : SimulationConfig)
| Timer (closure : SimulationConfig).

(** How a call of [animate] ends: with
    [requestRef.current = requestAnimationFrame(animate)], with the
    [setTimeout] that does so later, or without a request. *)
Inductive Next : Type :=
| Again
| Later
| Stop.

Record t (S : Type) : Type := mk {
  props : SimulationConfig;
  refs : S;
  requestRef : nat;
  (** the handles given out so far *)
  handles : nat;
  tasks : list Task;
}.
Arguments mk {S}.
Arguments props {S}.
Arguments refs {S}.
Arguments requestRef {S}.
Arguments handles {S}.
Arguments tasks {S}.

(** What differs between the three components. *)
Record Engine (S : Type) : Type := {
  (** the initialisation effect at mount *)
  mountEffect : SimulationConfig -> M S;
  (** the initialisation effect when its dependencies have changed *)
  initEffect : SimulationConfig -> S -> M S;
  (** whether the dependencies of the initialisation effect differ *)
  initDeps : SimulationConfig -> SimulationConfig -> bool;
  (** whether the dependencies of the effect that starts the loop differ *)
  loopDeps : SimulationConfig -> SimulationConfig -> bool;
  (** a call of the [animate] of a closure: the refs it leaves and how it
      ends *)
  animate : SimulationConfig -> bool -> Q -> S -> nat -> option (S * Next);
}.
Arguments mountEffect {S}.
Arguments initEffect {S}.
Arguments initDeps {S}.
Arguments loopDeps {S}.
Arguments animate {S}.

(** The frame requested under [handle]. *)
Definition requested (handle : nat) (task : Task) : Prop :=
  match task with
  | Frame handle' _ => handle' = handle
  | Timer _ => False
  end.

#[global] Instance requested_dec handle task : Decision (requested handle task).
Proof. destruct task; cbn [requested]; apply _. Defined.

(** How [animate] ends (the first lines of each [animate]): paused it requests
    the next frame at once, without a drawing context it returns, and after
    a frame that ran it ends as its last statement says. *)
Definition next (config : SimulationConfig) (ctx : bool) (last : Next) : Next :=
  if negb (isRunning config) then Again
  else if negb ctx then Stop
  else last.

(** The ant colony, once [setCities] has set the cities.  The effect that
    starts the loop depends on [isRunning], [speed], [cities] and
    [populationSize] (line 221); the mount effect has no dependencies; a
    frame ends with the [setTimeout] (lines 213-215). *)
Definition aco (h : Host) (cities : list Point.t) : Engine Aco.State := {|
  mountEffect := fun _ => mret Aco.initState;
  initEffect := fun _ st => mret st;
  initDeps := fun _ _ => false;
  loopDeps := fun c c' =>
    negb (Bool.eqb (isRunning c) (isRunning c') && (speed c =? speed c')%Z
          && (populationSize c =? populationSize c')%Z);
  animate := fun c ctx _ st k =>
    match Aco.animate h c ctx cities st k with
    | Ok (fr, _) => Some (Aco.state fr, next c ctx Later)
    | Err _ => None
    end;
|}.

(** The grey wolves.  The initialisation effect depends on [populationSize]
    (line 77) and keeps the prey; the effect that starts the loop depends on
    [isRunning] and [speed] (line 317); a frame ends with the request of the
    next one (line 129). *)
Definition gwo (h : Host) : Engine Gwo.State := {|
  mountEffect := Gwo.mount h;
  initEffect := fun c st => Gwo.initialize h c (Gwo.preyRef st);
  initDeps := fun c c' => negb (populationSize c =? populationSize c')%Z;
  loopDeps := fun c c' =>
    negb (Bool.eqb (isRunning c) (isRunning c') && (speed c =? speed c')%Z);
  animate := fun c ctx now st k =>
    match Gwo.animate h c ctx (Fin now) st k with
    | Ok (fr, _) => Some (Gwo.state fr, next c ctx Again)
    | Err _ => None
    end;
|}.

(** The bees.  The initialisation effect depends on [populationSize] (line
    394); the effect that starts the loop depends on [isRunning] and [speed]
    (line 503); a frame ends with the [setTimeout] (lines 495-497), and one
    that throws requests nothing. *)
Definition bees (h : Host) : Engine Bees.State := {|
  mountEffect := Bees.initialize h;
  initEffect := fun c _ => Bees.initialize h c;
  initDeps := fun c c' => negb (populationSize c =? populationSize c')%Z;
  loopDeps := fun c c' =>
    negb (Bool.eqb (isRunning c) (isRunning c') && (speed c =? speed c')%Z);
  animate := fun c ctx _ st k =>
    match Bees.animate h c ctx st k with
    | Ok (fr, _) => Some (Bees.state fr, next c ctx Later)
    | Err _ => Some (Bees.thrown h st, Stop)
    end;
|}.

Section Scheduler.
Context {S : Type} (E : Engine S).

(** [requestRef.current = requestAnimationFrame(animate)] for the [animate]
    of the render with the props [closure]. *)
Definition request (closure : SimulationConfig) (w : t S) : t S :=
  let handle := Datatypes.S (handles w) in
  {| props := props w;
     refs := refs w;
     requestRef := handle;
     handles := handle;
     tasks := tasks w ++ [Frame handle closure] |}.

(** [setTimeout(() => { requestRef.current = requestAnimationFrame(animate) })]. *)
Definition later (closure : SimulationConfig) (w : t S) : t S :=
  {| props := props w;
     refs := refs w;
     requestRef := requestRef w;
     handles := handles w;
     tasks := tasks w ++ [Timer closure] |}.

(** [cancelAnimationFrame(requestRef.current)]: it reaches a frame that is
    still requested under that handle, and nothing else. *)
Definition cancel (w : t S) : t S :=
  {| props := props w;
     refs := refs w;
     requestRef := requestRef w;
     handles := handles w;
     tasks := filter (fun task => ~ requested (requestRef w) task) (tasks w) |}.

Definition setRefs (s : S) (w : t S) : t S :=
  {| props := props w;
     refs := s;
     requestRef := requestRef w;
     handles := handles w;
     tasks := tasks w |}.

(** The first render: the initialisation effect, then the effect that
    starts the loop. *)
Definition mount (config : SimulationConfig) (k : nat) : option (t S) :=
  match mountEffect E config k with
  | Ok (s, _) =>
      Some (request config {| props := config; refs := s; requestRef := 0;
                              handles := 0; tasks := [] |})
  | Err _ => None
  end.

(** The browser calls the [i]-th callback it holds. *)
Definition fire (i : nat) (ctx : bool) (now : Q) (k : nat) (w : t S)
    : option (t S) :=
  match tasks w !! i with
  | None => None
  | Some task =>
      let w := {| props := props w; refs := refs w; requestRef := requestRef w;
                  handles := handles w; tasks := delete i (tasks w) |} in
      match task with
      | Timer closure => Some (request closure w)
      | Frame _ closure =>
          match animate E closure ctx now (refs w) k with
          | None => None
          | Some (s, Again) => Some (request closure (setRefs s w))
          | Some (s, Later) => Some (later closure (setRefs s w))
          | Some (s, Stop) => Some (setRefs s w)
          end
      end
  end.

(** A render with the props [config]: the cleanup of the effect that starts
    the loop when its dependencies differ, then the effects whose
    dependencies differ, in the order of the source. *)
Definition render (config : SimulationConfig) (k : nat) (w : t S)
    : option (t S) :=
  let restart := loopDeps E (props w) config in
  let w1 := if restart then cancel w else w in
  match (if initDeps E (props w) config then initEffect E config (refs w)
         else mret (refs w)) k with
  | Err _ => None
  | Ok (s, _) =>
      let w2 := {| props := config; refs := s; requestRef := requestRef w1;
                   handles := handles w1; tasks := tasks w1 |} in
      Some (if restart then request config w2 else w2)
  end.

Inductive Event : Type :=
| Fire (i : nat) (ctx : bool) (now : Q) (k : nat)
| Render (config : SimulationConfig) (k : nat).

Definition step (w : t S) (event : Event) : option (t S) :=
  match event with
  | Fire i ctx now k => fire i ctx now k w
  | Render config k => render config k w
  end.

(** The events [events], one after the other. *)
Fixpoint run (w : t S) (events : list Event) : option (t S) :=
  match events with
  | [] => Some w
  | event :: events' =>
      match step w event with
      | Some w' => run w' events'
      | None => None
      end
  end.

(** The component from its mount with the props [config] through the
    events [events]. *)
Definition start (config : SimulationConfig) (k : nat) (events : list Event)
    : option (t S) :=
  match mount config k with
  | Some w => run w events
  | None => None
  end.

(** The states of the component. *)
Inductive reachable : t S -> Prop :=
| reachable_mount config k w :
    mount config k = Some w -> reachable w
| reachable_step w event w' :
    reachable w -> step w event = Some w' -> reachable w'.

End Scheduler.

(** The callbacks of the grey wolves: none, or the one frame whose handle is
    in [requestRef], of a closure that has read the [isRunning] of the
    props. *)
Definition gwoTasks (w : t Gwo.State) : Prop :=
  tasks w = []
  \/ exists closure,
       tasks w = [Frame (requestRef w) closure]
       /\ isRunning closure = isRunning (props w).

End Component.

(** ** A host to run the engines on

    The square root is rounded down to three decimals; cosines, sines and
    exponentials are replaced by rational stand-ins; the random draws cycle
    through the sevenths. *)

Definition exampleSqrt (v : num) : num :=
  match v with
  | Fin q =>
      if Qle_bool 0 q then Fin (Z.sqrt (Qfloor (q * 1000000)) # 1000) else NaN
  | PInf => PInf
  | _ => NaN
  end.

Definition exampleHost : Host := {|
  Math_sqrt := exampleSqrt;
  Math_cos := fun _ => one;
  Math_sin := fun _ => zero;
  Math_exp := fun v => div one (add one (Math_abs v));
  Math_random := fun k => Fin (Z.of_nat ((k * 5) mod 7) # 7);
|}.

Definition exampleConfig (n : Z) : SimulationConfig :=
  {| populationSize := n; speed := 30; isRunning := true |}.

Definition exampleCities : list Point.t :=
  match Aco.initCities exampleHost 0 with
  | Ok (cities, _) => cities
  | Err _ => []
  end.

(** The props after a click on the pause button. *)
Definition pausedConfig (n : Z) : SimulationConfig :=
  {| populationSize := n; speed := 30; isRunning := false |}.

(** Full speed: the phase timer advances by one per frame. *)
Definition fastConfig (n : Z) : SimulationConfig :=
  {| populationSize := n; speed := 100; isRunning := true |}.

(** The grey wolf engine mounted without wolves. *)
Definition emptyGwoState : Gwo.State :=
  {| Gwo.wolvesRef := [];
     Gwo.preyRef := Point.mk (div Gwo.CANVAS_SIZE (Fin 2)) (div Gwo.CANVAS_SIZE (Fin 2));
     Gwo.phaseRef := Gwo.EVALUATE;
     Gwo.phaseTimerRef := zero;
     Gwo.iterationRef := 0 |}.

(** The grey wolf engine with [n] wolves after [frames] frames at full
    speed. *)
Definition exampleGwoState (n : Z) (frames : nat) : Gwo.State :=
  match Gwo.mount exampleHost (fastConfig n) 0 with
  | Ok (st, k) =>
      match Gwo.frames exampleHost frames (fastConfig n) zero st k with
      | Ok (st', _) => st'
      | Err _ => st
      end
  | Err _ => emptyGwoState
  end.

(** The bees engine with [n] bees after one frame. *)
Definition exampleBeesState (n : Z) : Bees.State :=
  match Bees.initialize exampleHost (exampleConfig n) 0 with
  | Ok (st, k) =>
      match Bees.animate exampleHost (exampleConfig n) true st k with
      | Ok (fr, _) => Bees.state fr
      | Err _ => st
      end
  | Err _ => {| Bees.beesRef := []; Bees.bestRef := zero; Bees.iterationRef := 0 |}
  end.

(** The bees engine with ten bees after a frame of the closure of a render
    with thirty: the frame throws. *)
Definition staleBeesState : Bees.State :=
  match Bees.initialize exampleHost (exampleConfig 10) 60 with
  | Ok (st, k) =>
      match Bees.animate exampleHost (exampleConfig 30) true st k with
      | Ok (fr, _) => Bees.state fr
      | Err _ => Bees.thrown exampleHost st
      end
  | Err _ => {| Bees.beesRef := []; Bees.bestRef := zero; Bees.iterationRef := 0 |}
  end.

(** The state of the ant colony after one frame of three ants. *)
Definition exampleAcoState : Aco.State :=
  match Aco.animate exampleHost (exampleConfig 3) true exampleCities
                    Aco.initState 30 with
  | Ok (fr, _) => Aco.state fr
  | Err _ => Aco.initState
  end.

(** ** Further notions for the properties of the engines *)

(** [lo <= v <= hi]. *)
Definition within (lo hi v : num) : Prop :=
  leb lo v = true /\ leb v hi = true.

(** The best tour stored by the ant colony is a tour of all cities whose
    length is the stored distance, or nothing has been stored yet. *)
Definition bestTourValid (h : Host) (cities : list Point.t) (st : Aco.State)
    : Prop :=
  (Aco.bestPathRef st = [] /\ Aco.bestDistRef st = PInf)
  \/ (Aco.bestPathRef st ≡ₚ seq 0 Aco.CITY_COUNT
      /\ Aco.tourLength h cities (Aco.bestPathRef st) = Ok (Aco.bestDistRef st)).

(** What a frame of the ant colony reports agrees with the state it leaves. *)
Definition reportAgrees (config : SimulationConfig) (fr : Aco.Frame) : Prop :=
  Aco.stats fr
  = Some {| iteration := Aco.iterationRef (Aco.state fr);
            bestScore := Aco.bestDistRef (Aco.state fr);
            stats_populationSize := populationSize config |}.

(** The successor of a phase in the cycle of the grey wolf engine. *)
Definition nextPhase (p : Gwo.Phase) : Gwo.Phase :=
  match p with
  | Gwo.MOVE_PREY => Gwo.EVALUATE
  | Gwo.EVALUATE => Gwo.RANK
  | Gwo.RANK => Gwo.CALCULATE
  | Gwo.CALCULATE => Gwo.MOVE_WOLVES
  | Gwo.MOVE_WOLVES => Gwo.MOVE_PREY
  end.

(** [n] calls of [advancePhase] in a row. *)
Fixpoint advanceTimes (h : Host) (n : nat) (now : num) (st : Gwo.State)
    : M Gwo.State :=
  match n with
  | O => mret st
  | S n' => st' ← Gwo.advancePhase h now st; advanceTimes h n' now st'
  end.

(** [speedMultiplier] and [moveSpeed] of a frame (lines 96 and 109). *)
Definition speedMultiplier (config : SimulationConfig) : num :=
  add (Fin (2 # 10)) (mul (div (of_Z (speed config)) (Fin 100)) (Fin (8 # 10))).
Definition moveSpeed (config : SimulationConfig) : num :=
  mul (Fin (5 # 100)) (speedMultiplier config).

(** A wolf whose position and target lie on the canvas. *)
Definition wolfOnCanvas (w : Gwo.Wolf.t) : Prop :=
  within zero Gwo.CANVAS_SIZE (Gwo.Wolf.x w)
  /\ within zero Gwo.CANVAS_SIZE (Gwo.Wolf.y w)
  /\ within zero Gwo.CANVAS_SIZE (Gwo.Wolf.targetX w)
  /\ within zero Gwo.CANVAS_SIZE (Gwo.Wolf.targetY w).

(** A wolf whose target lies on the canvas and whose position lies within one
    pixel of it.  The position is the result of the interpolation
    [start * (1 - t) + end * t] of line 82, which in floating point can pass
    its end points by a rounding error: the margin of one pixel is far above
    that error and below the pull of the interpolation at the margin, so a
    frame keeps this set in floating point as it does in the exact
    arithmetic of the model. *)
Definition wolfNearCanvas (w : Gwo.Wolf.t) : Prop :=
  within (Fin (-1)) (Fin 601) (Gwo.Wolf.x w)
  /\ within (Fin (-1)) (Fin 601) (Gwo.Wolf.y w)
  /\ within zero Gwo.CANVAS_SIZE (Gwo.Wolf.targetX w)
  /\ within zero Gwo.CANVAS_SIZE (Gwo.Wolf.targetY w).

(** A wolf whose target lies in the clamped region of the canvas. *)
Definition targetClamped (w : Gwo.Wolf.t) : Prop :=
  within (Fin 10) (Fin 590) (Gwo.Wolf.targetX w)
  /\ within (Fin 10) (Fin 590) (Gwo.Wolf.targetY w).

(** A point on the canvas of the bees. *)
Definition beeOnCanvas (p : Point.t) : Prop :=
  within zero Bees.CANVAS_SIZE (Point.x p)
  /\ within zero Bees.CANVAS_SIZE (Point.y p).

(** [Math.exp] maps finite numbers to finite numbers. *)
Definition exp_sound (h : Host) : Prop :=
  forall v, finite v -> finite (Math_exp h v).

(** The distance of the wolf [w] to the prey of the state [st], as the
    EVALUATE action computes it (line 152). *)
Definition preyDistance (h : Host) (st : Gwo.State) (w : Gwo.Wolf.t) : num :=
  Gwo.distance h (Gwo.Wolf.x w) (Gwo.Wolf.y w)
               (Point.x (Gwo.preyRef st)) (Point.y (Gwo.preyRef st)).

(** The order in which [draw] paints the wolves (lines 260-264): the omegas
    in array order, then the leaders in reverse array order. *)
Definition drawOrder (wolves : list Gwo.Wolf.t) : list Gwo.Wolf.t :=
  filter (fun w => Gwo.Wolf.type w = Gwo.omega) wolves
  ++ reverse (filter (fun w => Gwo.Wolf.type w <> Gwo.omega) wolves).

(** The fitness of a bee (line 431). *)
Definition fitnessOf (h : Host) (b : Point.t) : num :=
  Bees.getFitness h (Point.x b) (Point.y b).

(** [Math.cos] and [Math.sin] take their values between -1 and 1. *)
Definition trig_bounded (h : Host) : Prop :=
  forall v, within (Fin (-1)) one (Math_cos h v)
            /\ within (Fin (-1)) one (Math_sin h v).

(** The region the prey moves in: 150 around the centre on the x axis and
    80 on the y axis. *)
Definition preyInBox (p : Point.t) : Prop :=
  within (Fin 150) (Fin 450) (Point.x p) /\ within (Fin 220) (Fin 380) (Point.y p).

(** [Math.exp] takes its values between 0 and 1 on numbers that are not
    positive. *)
Definition exp_decay (h : Host) : Prop :=
  forall q, (q <= 0)%Q -> within zero one (Math_exp h (Fin q)).

(** [v] is at most [r] away from [c]. *)
Definition near (r : Q) (c v : num) : Prop :=
  within (sub c (Fin r)) (add c (Fin r)) v.

(** The order by decreasing key, the one a comparator
    [fun a b => key b - key a] sorts by. *)
Definition keyGe {A} (key : A -> num) (a b : A) : Prop :=
  leb (key b) (key a) = true.

(** ** Rendering of the ant colony ([AcoSimulation.tsx], lines 152-209)

    The painting that follows the engine step of a running frame, as far as
    it reads the engine's data: what is painted, and the reads that throw
    when a row, a city or a path entry is missing. *)

Module AcoRender.

(** A stroked line between two points. *)
Record Stroke : Type := {
  strokeAlpha : num;
  strokeWidth : num;
  strokeFrom : Point.t;
  strokeTo : Point.t;
}.

(** What one frame paints, in painting order. *)
Record Drawing : Type := {
  pheromoneLines : list Stroke;
  antLines : list (list (Point.t * Point.t));
  bestLine : list Point.t;
  cityDots : list Point.t;
}.

(** The body of the loops over the city pairs (lines 159-167): the line of
    the pair [i], [j] when its pheromone level is above 0.1.  A level that
    is [undefined] fails the comparison; a missing row or city throws when
    it is read. *)
Definition pheromoneLine (cities : list Point.t)
    (pheromones : gmap nat (gmap nat num)) (i j : nat) : result (option Stroke) :=
  row ← defined (pheromones !! i);
  let level := of_slot (row !! j) in
  if gtb level (Fin (1 # 10)) then
    p ← defined (cities !! i);
    q ← defined (cities !! j);
    Ok (Some {| strokeAlpha := Math_min (mul level (Fin (5 # 100))) (Fin (8 # 10));
                strokeWidth := Math_min (mul level (Fin (5 # 10))) (Fin 8);
                strokeFrom := p;
                strokeTo := q |})
  else Ok None.

(** Draw Pheromones (lines 155-169): the pairs [i < j]. *)
Definition drawPheromones (cities : list Point.t)
    (pheromones : gmap nat (gmap nat num)) : result (list Stroke) :=
  foldlM (fun lines i =>
            foldlM (fun lines j =>
                      line ← pheromoneLine cities pheromones i j;
                      Ok (match line with
                          | Some s => lines ++ [s]
                          | None => lines
                          end))
                   lines (seq (i + 1) (Aco.CITY_COUNT - (i + 1))))
         [] (seq 0 Aco.CITY_COUNT).

(** The segments of the path of one ant (lines 176-181). *)
Definition antSegments (cities : list Point.t) (path : list nat)
    : result (list (Point.t * Point.t)) :=
  foldlM (fun segments i =>
            p1 ← Aco.cityAt cities path i;
            p2 ← Aco.cityAt cities path (i + 1);
            Ok (segments ++ [(p1, p2)]))
         [] (seq 0 (length path - 1)).

(** Draw active ants (lines 172-183): the first five paths. *)
Definition drawAnts (cities : list Point.t) (currentAntsPaths : list (list nat))
    : result (list (list (Point.t * Point.t))) :=
  foldlM (fun lines path =>
            segments ← antSegments cities path;
            Ok (lines ++ [segments]))
         [] (slice0 currentAntsPaths 5).

(** Draw Best Path (lines 186-197): the points of the closed line. *)
Definition drawBestPath (cities : list Point.t) (path : list nat)
    : result (list Point.t) :=
  if (0 <? length path)%nat then
    start ← Aco.cityAt cities path 0;
    points ← foldlM (fun points i =>
                       p ← Aco.cityAt cities path i;
                       Ok (points ++ [p]))
                    [start] (seq 1 (length path - 1));
    close ← Aco.cityAt cities path 0;
    Ok (points ++ [close])
  else Ok [].

(** The rendering part of a frame (lines 152-209) for the state [st] and the
    paths of the ants of the frame. *)
Definition render (cities : list Point.t) (st : Aco.State)
    (currentAntsPaths : list (list nat)) : result Drawing :=
  lines ← drawPheromones cities (Aco.pheromonesRef st);
  ants ← drawAnts cities currentAntsPaths;
  best ← drawBestPath cities (Aco.bestPathRef st);
  Ok {| pheromoneLines := lines;
        antLines := ants;
        bestLine := best;
        cityDots := cities |}.

(** A line whose opacity is positive and at most 0.8 and whose width is
    positive and at most 8. *)
Definition visible (s : Stroke) : Prop :=
  positive (strokeAlpha s) /\ leb (strokeAlpha s) (Fin (8 # 10)) = true
  /\ positive (strokeWidth s) /\ leb (strokeWidth s) (Fin 8) = true.

End AcoRender.

(** * Properties *)

(** ** The monads and loops *)

Lemma bind_M_ok {A B} (m : M A) (f : A -> M B) k a k' :
  m k = Ok (a, k') -> (m ≫= f) k = f a k'.
Proof. intros Hm. unfold mbind, M_bind. by rewrite Hm. Qed.

Lemma bind_M_inv {A B} (m : M A) (f : A -> M B) k r :
  (m ≫= f) k = Ok r -> exists a k', m k = Ok (a, k') /\ f a k' = Ok r.
Proof.
  unfold mbind, M_bind. destruct (m k) as [[a k']|e]; [eauto | discriminate].
Qed.

Lemma bind_result_inv {A B} (r : result A) (f : A -> result B) b :
  r ≫= f = Ok b -> exists a, r = Ok a /\ f a = Ok b.
Proof. destruct r as [a|e]; simpl; [eauto | discriminate]. Qed.

Lemma pure_ok {A} (r : result A) k a : r = Ok a -> pure r k = Ok (a, k).
Proof. by intros ->. Qed.

Lemma pure_inv {A} (r : result A) k a k' :
  pure r k = Ok (a, k') -> r = Ok a /\ k' = k.
Proof. destruct r; simpl; intros; simplify_eq; auto. Qed.

Lemma defined_inv {A} (o : option A) a : defined o = Ok a -> o = Some a.
Proof. destruct o; simpl; congruence. Qed.

Lemma bind_M_err {A B} (m : M A) (f : A -> M B) k e :
  m k = Err e -> (m ≫= f) k = Err e.
Proof. intros Hm. unfold mbind, M_bind. by rewrite Hm. Qed.

(** A loop over two lists, one after the other. *)
Lemma foldlM_M_app {A S} (body : S -> A -> M S) l1 l2 s k :
  foldlM body s (l1 ++ l2) k
  = match foldlM body s l1 k with
    | Ok (s', k') => foldlM body s' l2 k'
    | Err e => Err e
    end.
Proof.
  revert s k. induction l1 as [|a l1 IH]; intros s k; cbn [foldlM app]; [done|].
  change (foldlM body s (a :: l1) k)
    with ((body s a ≫= fun s' => foldlM body s' l1) k).
  change ((body s a ≫= fun s' => foldlM body s' (l1 ++ l2)) k)
    with (match body s a k with
          | Ok (s', k') => foldlM body s' (l1 ++ l2) k'
          | Err e => Err e
          end).
  change ((body s a ≫= fun s' => foldlM body s' l1) k)
    with (match body s a k with
          | Ok (s', k') => foldlM body s' l1 k'
          | Err e => Err e
          end).
  destruct (body s a k) as [[s1 k1]|e]; [apply IH|done].
Qed.

(** A loop that keeps an invariant and whose body succeeds under it. *)
Lemma foldlM_M_inv {A S} (P : S -> Prop) (body : S -> A -> M S) l :
  (forall s a k, P s -> a ∈ l -> exists s' k', body s a k = Ok (s', k') /\ P s') ->
  forall s k, P s -> exists s' k', foldlM body s l k = Ok (s', k') /\ P s'.
Proof.
  induction l as [|a l IH]; intros Hbody s k Hs; simpl.
  - by exists s, k.
  - destruct (Hbody s a k Hs) as (s1 & k1 & Hb & Hs1); [left|].
    rewrite (bind_M_ok _ _ _ _ _ Hb).
    apply IH; [|done]. intros. apply Hbody; [done | by right].
Qed.

Lemma foldlM_result_inv {A S} (P : S -> Prop) (body : S -> A -> result S) l :
  (forall s a, P s -> a ∈ l -> exists s', body s a = Ok s' /\ P s') ->
  forall s, P s -> exists s', foldlM body s l = Ok s' /\ P s'.
Proof.
  induction l as [|a l IH]; intros Hbody s Hs; simpl.
  - by exists s.
  - destruct (Hbody s a Hs) as (s1 & Hb & Hs1); [left|].
    rewrite Hb. simpl. apply IH; [|done]. intros. apply Hbody; [done | by right].
Qed.

(** *** Comparisons *)

Lemma ltb_Fin a b : ltb (Fin a) (Fin b) = true <-> (a < b)%Q.
Proof.
  simpl. rewrite Qlt_alt. destruct (a ?= b)%Q; split; congruence.
Qed.

Lemma leb_Fin a b : leb (Fin a) (Fin b) = true <-> (a <= b)%Q.
Proof.
  simpl. rewrite Qle_alt. destruct (a ?= b)%Q; split; congruence.
Qed.

Lemma ltb_trans a b c : ltb a b = true -> ltb b c = true -> ltb a c = true.
Proof.
  destruct a as [p| | |], b as [q| | |], c as [r| | |]; try done.
  rewrite !ltb_Fin. apply Qlt_trans.
Qed.

Lemma ltb_leb a b : ltb a b = true -> leb a b = true.
Proof.
  destruct a as [p| | |], b as [q| | |]; try done.
  rewrite ltb_Fin, leb_Fin. apply Qlt_le_weak.
Qed.

Lemma leb_refl a : isNaN a = false -> leb a a = true.
Proof.
  destruct a as [p| | |]; try done. intros _. apply leb_Fin, Qle_refl.
Qed.

Lemma ltb_not_NaN a b : ltb a b = true -> isNaN a = false.
Proof. by destruct a, b. Qed.

Lemma foldlM_result_partial {A S} (P : S -> Prop) (body : S -> A -> result S) l :
  (forall s a s', P s -> a ∈ l -> body s a = Ok s' -> P s') ->
  forall s s', P s -> foldlM body s l = Ok s' -> P s'.
Proof.
  induction l as [|a l IH]; intros Hbody s s' Hs; cbn [foldlM].
  - intros [= <-]. done.
  - intros Hrun. apply bind_result_inv in Hrun as (s1 & Hb & Hrun).
    eapply IH; [|eapply Hbody; [exact Hs | left | exact Hb]|exact Hrun].
    intros ? ? ? ? ?. apply Hbody; [done | by right].
Qed.

Lemma foldlM_M_partial {A S} (P : S -> Prop) (body : S -> A -> M S) l :
  (forall s a k s' k', P s -> a ∈ l -> body s a k = Ok (s', k') -> P s') ->
  forall s k s' k', P s -> foldlM body s l k = Ok (s', k') -> P s'.
Proof.
  induction l as [|a l IH]; intros Hbody s k s' k' Hs; cbn [foldlM].
  - intros [= <- <-]. done.
  - intros Hrun. apply bind_M_inv in Hrun as (s1 & k1 & Hb & Hrun).
    eapply IH; [|eapply Hbody; [exact Hs | left | exact Hb]|exact Hrun].
    intros ? ? ? ? ? ? ?. apply Hbody; [done | by right].
Qed.

(** A loop that pushes one element per round. *)
Lemma foldlM_push {A B} (f : A -> M B) (Q : A -> Prop) (R : A -> B -> Prop) l :
  (forall a k, Q a -> exists b k', f a k = Ok (b, k') /\ R a b) ->
  Forall Q l ->
  forall bs k,
  exists cs k',
    foldlM (fun bs a => b ← f a; mret (bs ++ [b])) bs l k = Ok (bs ++ cs, k')
    /\ Forall2 R l cs.
Proof.
  intros Hf. induction 1 as [|a l Ha Hl IH]; intros bs k; cbn [foldlM].
  - exists [], k. rewrite app_nil_r. by split.
  - destruct (Hf a k Ha) as (b & k1 & Hb & HR).
    rewrite (bind_M_ok _ _ _ _ _ (bind_M_ok _ _ _ _ _ Hb)).
    destruct (IH (bs ++ [b]) k1) as (cs & k' & Heq & Hall).
    exists (b :: cs), k'. rewrite <- app_assoc in Heq. split; [exact Heq|].
    by constructor.
Qed.

(** *** Signs and finiteness *)

Lemma positive_add a c : positive a -> positive c -> positive (add a c).
Proof.
  destruct a as [p| | |], c as [q| | |]; simpl; try tauto. intros. lra.
Qed.

Lemma nonneg_fin_add a b : nonneg_fin a -> nonneg_fin b -> nonneg_fin (add a b).
Proof.
  destruct a as [p| | |], b as [q| | |]; simpl; try tauto. intros. lra.
Qed.

Lemma square_nonneg a : finite a -> nonneg_fin (Math_pow a 2).
Proof.
  destruct a as [q| | |]; simpl; try tauto. intros _. nra.
Qed.

Lemma finite_sub a b : finite a -> finite b -> finite (sub a b).
Proof. destruct a, b; simpl; tauto. Qed.

Lemma finite_add a b : finite a -> finite b -> finite (add a b).
Proof. by destruct a, b. Qed.
Lemma finite_mul a b : finite a -> finite b -> finite (mul a b).
Proof. by destruct a, b. Qed.
Lemma finite_abs a : finite a -> finite (Math_abs a).
Proof. by destruct a. Qed.
Lemma finite_Fin q : finite (Fin q).
Proof. done. Qed.
Lemma finite_one : finite one.
Proof. done. Qed.
Lemma finite_zero : finite zero.
Proof. done. Qed.
Lemma finite_of_nat n : finite (of_nat n).
Proof. done. Qed.
Lemma finite_of_Z n : finite (of_Z n).
Proof. done. Qed.
Lemma finite_div a q : Qeq_bool q 0 = false -> finite a -> finite (div a (Fin q)).
Proof. destruct a; try done. intros Hq _. simpl. by rewrite Hq. Qed.
Lemma finite_max a b : finite a -> finite b -> finite (Math_max a b).
Proof. destruct a, b; try done. intros _ _. unfold Math_max. simpl. by case_match. Qed.
Lemma finite_min a b : finite a -> finite b -> finite (Math_min a b).
Proof. destruct a, b; try done. intros _ _. unfold Math_min. simpl. by case_match. Qed.
Lemma finite_unit u : unit_interval u -> finite u.
Proof. by destruct u. Qed.
Lemma nonneg_fin_defined a : nonneg_fin a -> isNaN a = false.
Proof. by destruct a. Qed.

Create HintDb finite.
#[local] Hint Resolve finite_add finite_sub finite_mul finite_abs finite_Fin
  finite_one finite_zero finite_of_nat finite_of_Z finite_max finite_min finite_unit : finite.
#[local] Hint Extern 1 (finite (div _ (Fin _))) =>
  apply finite_div; [reflexivity|] : finite.

(** *** Sorting *)

Lemma leb_trans a b c : leb a b = true -> leb b c = true -> leb a c = true.
Proof.
  destruct a as [p| | |], b as [q| | |], c as [r| | |]; try done.
  rewrite !leb_Fin. apply Qle_trans.
Qed.

Lemma ltb_false_leb a b :
  isNaN a = false -> isNaN b = false -> ltb b a = false -> leb a b = true.
Proof.
  destruct a as [p| | |], b as [q| | |]; try done. intros _ _ Hlt.
  apply leb_Fin, Qnot_lt_le. intros H. apply ltb_Fin in H. congruence.
Qed.

(** On numbers that are not NaN, [a - b > 0] is [b < a]. *)
Lemma difference_positive a b :
  isNaN a = false -> isNaN b = false -> gtb (sub a b) zero = ltb b a.
Proof.
  destruct a as [p| | |], b as [q| | |]; try done. intros _ _.
  unfold gtb. cbn [sub add neg].
  destruct (ltb (Fin q) (Fin p)) eqn:E.
  - apply ltb_Fin. apply ltb_Fin in E. lra.
  - apply not_true_is_false. intros H. apply ltb_Fin in H.
    apply not_true_iff_false in E. apply E. apply ltb_Fin. lra.
Qed.

Section Sort.
Context {A : Type} (cmp : A -> A -> num).

Lemma insertSorted_perm a l : insertSorted cmp a l ≡ₚ a :: l.
Proof.
  induction l as [|b l IH]; cbn [insertSorted].
  - reflexivity.
  - destruct (gtb (cmp a b) zero); [|reflexivity].
    rewrite IH. apply Permutation_swap.
Qed.

Lemma sort_perm l : sort cmp l ≡ₚ l.
Proof.
  induction l as [|a l IH]; simpl.
  - reflexivity.
  - by rewrite insertSorted_perm, IH.
Qed.

Lemma sort_length l : length (sort cmp l) = length l.
Proof. by rewrite sort_perm. Qed.

(** The comparator compares the keys [key]: [cmp a b = key a - key b]. *)
Context (key : A -> num) (Hcmp : forall a b, cmp a b = sub (key a) (key b)).

Lemma insertSorted_sorted a l :
  isNaN (key a) = false -> Forall (fun b => isNaN (key b) = false) l ->
  StronglySorted (keyLe key) l -> StronglySorted (keyLe key) (insertSorted cmp a l).
Proof.
  intros Ha Hl Hs. induction Hs as [|b l Hs IH Hb]; cbn [insertSorted].
  - by repeat constructor.
  - apply Forall_cons in Hl as [Hkb Hl].
    rewrite Hcmp, difference_positive by done.
    destruct (ltb (key b) (key a)) eqn:E.
    + constructor; [by apply IH|].
      rewrite insertSorted_perm. constructor; [|done].
      by apply ltb_leb.
    + assert (keyLe key a b) as Hab by (by apply ltb_false_leb).
      constructor; [by constructor|].
      constructor; [done|].
      eapply Forall_impl; [exact Hb|]. intros c Hc. by eapply leb_trans.
Qed.

Lemma sort_sorted l :
  Forall (fun b => isNaN (key b) = false) l -> StronglySorted (keyLe key) (sort cmp l).
Proof.
  induction 1 as [|a l Ha Hl IH]; simpl.
  - constructor.
  - apply insertSorted_sorted; [done| |done].
    by rewrite sort_perm.
Qed.

End Sort.

(** ** The example host *)

Lemma exampleHost_random : random_sound exampleHost.
Proof.
  intros k. cbn [exampleHost Math_random unit_interval].
  pose proof (Nat.mod_upper_bound (k * 5) 7).
  unfold Qle, Qlt. cbn [Qnum Qden]. lia.
Qed.

Lemma exampleHost_sqrt : sqrt_sound exampleHost.
Proof.
  intros [q| | |] Hv; try done. cbn [exampleHost Math_sqrt exampleSqrt].
  cbn [nonneg_fin] in Hv. apply Qle_bool_iff in Hv as Hb. rewrite Hb.
  cbn [nonneg_fin]. unfold Qle. cbn [Qnum Qden].
  pose proof (Z.sqrt_nonneg (Qfloor (q * 1000000))). lia.
Qed.

Lemma exampleCities_initialized : Aco.citiesInitialized exampleCities.
Proof.
  split; [reflexivity|]. vm_compute. repeat constructor.
Qed.

Lemma exampleHost_trig : Gwo.trig_sound exampleHost.
Proof. by intros v _. Qed.

(** ** Ant colony engine *)

Module AcoTheory.
Import Aco.


Lemma scanStep_visited h cities ph c (visited : gset nat) acc n :
  n ∈ visited -> scanStep h cities ph c visited acc n = Ok acc.
Proof.
  intros Hin. unfold scanStep. destruct acc as [[probs cands] sum].
  by rewrite decide_True.
Qed.

Lemma scanStep_fresh h cities ph c (visited : gset nat) probs cands sum n p1 p2 row :
  n ∉ visited -> cities !! c = Some p1 -> cities !! n = Some p2 ->
  ph !! c = Some row ->
  scanStep h cities ph c visited (probs, cands, sum) n
  = Ok (probs ++ [mul (Math_pow (of_slot (row !! n)) 1)
                      (Math_pow (div one (distance h p1 p2)) 2)],
        cands ++ [n],
        add sum (mul (Math_pow (of_slot (row !! n)) 1)
                     (Math_pow (div one (distance h p1 p2)) 2))).
Proof.
  intros Hin H1 H2 H3. unfold scanStep.
  rewrite decide_False by done. by rewrite H1, H2, H3.
Qed.

Lemma scan_from h cities ph c (visited : gset nat) l :
  c < length cities -> is_Some (ph !! c) ->
  (forall n, n ∈ l -> n < length cities) ->
  forall probs cands sum, length probs = length cands ->
  exists probs' sum',
    foldlM (scanStep h cities ph c visited) (probs, cands, sum) l
    = Ok (probs', cands ++ filter (fun n => n ∉ visited) l, sum')
    /\ length probs' = length (cands ++ filter (fun n => n ∉ visited) l).
Proof.
  intros Hc [row Hrow]. induction l as [|n l IH]; intros Hl probs cands sum Hlen.
  - simpl. exists probs, sum. by rewrite app_nil_r.
  - cbn [foldlM].
    destruct (decide (n ∈ visited)) as [Hin|Hin].
    + rewrite scanStep_visited by done.
      rewrite filter_cons_False by (intros ?; done). simpl.
      apply IH; [|done]. intros; apply Hl; by right.
    + destruct (lookup_lt_is_Some_2 cities c Hc) as [p1 Hp1].
      destruct (lookup_lt_is_Some_2 cities n) as [p2 Hp2]; [apply Hl; left|].
      rewrite (scanStep_fresh _ _ _ _ _ _ _ _ _ p1 p2 row) by done.
      rewrite filter_cons_True by done. simpl.
      edestruct IH as (probs' & sum' & Heq & Hlen');
        [intros; apply Hl; by right | | ].
      2:{ exists probs', sum'. rewrite Heq.
          rewrite <- app_assoc in *. simpl in *. split; [reflexivity|]. exact Hlen'. }
      rewrite !length_app. simpl. lia.
Qed.

Lemma scan_ok h cities ph c (visited : gset nat) :
  length cities = CITY_COUNT -> c < CITY_COUNT -> is_Some (ph !! c) ->
  exists probs sum,
    scan h cities ph c visited
    = Ok (probs, filter (fun n => n ∉ visited) (seq 0 CITY_COUNT), sum)
    /\ length probs = length (filter (fun n => n ∉ visited) (seq 0 CITY_COUNT)).
Proof.
  intros Hlen Hc Hrow. unfold scan.
  destruct (scan_from h cities ph c visited (seq 0 CITY_COUNT)) with (probs := @nil num) (cands := @nil nat) (sum := zero)
    as (probs & sum & Heq & Hl); try done.
  - lia.
  - intros n Hn. apply elem_of_seq in Hn. lia.
  - eauto.
Qed.

(** The roulette loop returns a candidate or the value it started from. *)
Lemma roulette_elem probs cands i r sel c :
  roulette probs cands i r sel = Some c -> c ∈ cands \/ sel = Some c.
Proof.
  revert i r. induction probs as [|p probs IH]; intros i r; simpl.
  - auto.
  - destruct (leb (sub r p) zero).
    + intros H. left. by eapply list_elem_of_lookup_2.
    + apply IH.
Qed.

Lemma roulette_defined probs cands i r sel :
  i + length probs <= length cands -> is_Some sel ->
  is_Some (roulette probs cands i r sel).
Proof.
  revert i r. induction probs as [|p probs IH]; intros i r Hlen Hsel; simpl in *.
  - done.
  - destruct (leb (sub r p) zero).
    + apply lookup_lt_is_Some_2. lia.
    + apply IH; [lia | done].
Qed.

Lemma select_elem probs cands sum u c :
  select probs cands sum u = Some c -> c ∈ cands.
Proof.
  unfold select. intros H. apply roulette_elem in H as [H|H]; [done|].
  rewrite last_Some in H. destruct H as [l' ->].
  rewrite elem_of_app, list_elem_of_singleton. by right.
Qed.

Lemma select_defined probs cands sum u :
  length probs = length cands -> cands <> [] ->
  is_Some (select probs cands sum u).
Proof.
  intros Hlen Hne. apply roulette_defined; [lia|].
  destruct (last cands) eqn:E; [eauto|]. by apply last_None in E.
Qed.

(** A duplicate-free list of [n] numbers below [n] lists them all. *)
Lemma full_range_perm (path : list nat) n :
  NoDup path -> (forall c, c ∈ path -> c < n) -> n <= length path ->
  path ≡ₚ seq 0 n.
Proof.
  intros Hnd Hlt Hlen.
  apply submseteq_length_Permutation.
  - apply NoDup_submseteq; [done|]. intros c Hc. apply elem_of_seq. specialize (Hlt c Hc). lia.
  - by rewrite length_seq.
Qed.

Lemma visited_size (visited : gset nat) path :
  NoDup path -> (forall n, n ∈ visited <-> n ∈ path) -> size visited = length path.
Proof.
  intros Hnd Hv. rewrite <- (size_list_to_set (C := gset nat) path) by done.
  f_equal. apply set_eq. intros n. by rewrite Hv, elem_of_list_to_set.
Qed.

(** While fewer than [CITY_COUNT] cities are visited, one is left. *)
Lemma candidates_nonempty (visited : gset nat) :
  size visited < CITY_COUNT ->
  filter (fun n => n ∉ visited) (seq 0 CITY_COUNT) <> [].
Proof.
  intros Hsz Hnil.
  assert (list_to_set (C := gset nat) (seq 0 CITY_COUNT) ⊆ visited) as Hsub.
  { intros n Hn. apply elem_of_list_to_set in Hn.
    destruct (decide (n ∈ visited)) as [|Hnin]; [done|].
    assert (n ∈ filter (fun n => n ∉ visited) (seq 0 CITY_COUNT)) as Hf
      by (apply list_elem_of_filter; done).
    rewrite Hnil in Hf. by apply not_elem_of_nil in Hf. }
  apply subseteq_size in Hsub.
  rewrite size_list_to_set in Hsub by apply NoDup_seq.
  rewrite length_seq in Hsub. lia.
Qed.

Lemma walk_ok h cities ph fuel :
  length cities = CITY_COUNT ->
  (forall i, i < CITY_COUNT -> is_Some (ph !! i)) ->
  forall (visited : gset nat) path c k,
  NoDup path -> (forall n, n ∈ visited <-> n ∈ path) ->
  (forall n, n ∈ path -> n < CITY_COUNT) -> c < CITY_COUNT ->
  CITY_COUNT <= length path + fuel ->
  exists path' k',
    walk h cities ph fuel visited path c k = Ok (path', k')
    /\ path' ≡ₚ seq 0 CITY_COUNT.
Proof.
  intros Hcities Hrows. induction fuel as [|fuel IH];
    intros visited path c k Hnd Hv Hlt Hc Hfuel;
    pose proof (visited_size visited path Hnd Hv) as Hsz.
  - cbn [walk]. rewrite decide_False by lia.
    exists path, k. split; [done|]. apply full_range_perm; [done..|lia].
  - cbn [walk]. destruct (decide (size visited < CITY_COUNT)) as [Hlt15|Hge].
    + destruct (scan_ok h cities ph c visited Hcities Hc (Hrows c Hc))
        as (probs & sum & Hscan & Hlen).
      rewrite (bind_M_ok _ _ k _ k (pure_ok _ k _ Hscan)). cbv beta iota.
      set (cands := filter (fun n => n ∉ visited) (seq 0 CITY_COUNT)) in *.
      destruct (select_defined probs cands sum (Math_random h k) Hlen
                  (candidates_nonempty visited Hlt15)) as [s Hs].
      unfold mbind at 1, M_bind, random. rewrite Hs. cbn [pure defined].
      apply select_elem in Hs as Hin. apply list_elem_of_filter in Hin as [Hnv Hseq].
      apply elem_of_seq in Hseq.
      apply IH.
      * apply NoDup_app. split; [done|]. split; [|apply NoDup_singleton].
        intros n Hn Hn'. apply list_elem_of_singleton in Hn' as ->. apply Hnv. by apply Hv.
      * intros n. rewrite elem_of_union, elem_of_singleton, elem_of_app, list_elem_of_singleton, Hv. tauto.
      * intros n Hn. apply elem_of_app in Hn as [Hn|Hn]; [by apply Hlt|].
        apply list_elem_of_singleton in Hn as ->. lia.
      * lia.
      * rewrite length_app. simpl. lia.
    + exists path, k. split; [done|]. apply full_range_perm; [done..|lia].
Qed.

Lemma start_city u :
  unit_interval u ->
  exists c, to_index (Math_floor (mul u (of_nat CITY_COUNT))) = Some c
            /\ c < CITY_COUNT.
Proof.
  destruct u as [q| | |]; cbn [unit_interval]; try tauto. intros [H0 H1].
  cbn [mul of_nat of_Z Math_floor to_index].
  set (z := Qfloor (q * inject_Z (Z.of_nat CITY_COUNT))).
  assert (0 <= z)%Z as Hz0.
  { change 0%Z with (Qfloor 0). apply Qfloor_resp_le.
    apply Qmult_le_0_compat; [done|]. by compute. }
  assert (z < 15)%Z as Hz1.
  { apply Z.lt_nge. intros Hge.
    assert (inject_Z 15 <= q * inject_Z (Z.of_nat CITY_COUNT))%Q as Hle.
    { eapply Qle_trans; [|apply (Qfloor_le (q * inject_Z (Z.of_nat CITY_COUNT)))].
      rewrite <- Zle_Qle. exact Hge. }
    change (inject_Z (Z.of_nat CITY_COUNT)) with (15 # 1)%Q in Hle.
    change (inject_Z 15) with (15 # 1)%Q in Hle. lra. }
  rewrite Qfloor_Z. rewrite Qeq_bool_refl. cbn [andb].
  destruct (Z.leb_spec 0 z); [|lia].
  exists (Z.to_nat z). split; [done|]. unfold CITY_COUNT. lia.
Qed.

Lemma constructPath_ok h cities ph k :
  random_sound h -> length cities = CITY_COUNT ->
  (forall i, i < CITY_COUNT -> is_Some (ph !! i)) ->
  exists path k',
    constructPath h cities ph k = Ok (path, k') /\ path ≡ₚ seq 0 CITY_COUNT.
Proof.
  intros Hrand Hcities Hrows. unfold constructPath.
  destruct (start_city _ (Hrand k)) as (c & Hc & Hlt).
  unfold mbind at 1, M_bind, random. rewrite Hc. cbn [pure defined].
  apply walk_ok; try done.
  - apply NoDup_singleton.
  - intros n. by rewrite elem_of_singleton, list_elem_of_singleton.
  - intros n Hn. by apply list_elem_of_singleton in Hn as ->.
  - simpl. lia.
Qed.

Lemma cityAt_ok cities (path : list nat) i :
  i < length path -> (forall c, c ∈ path -> c < length cities) ->
  exists p, cityAt cities path i = Ok p.
Proof.
  intros Hi Hpath. unfold cityAt.
  destruct (lookup_lt_is_Some_2 path i Hi) as [c Hc]. rewrite Hc. simpl.
  destruct (lookup_lt_is_Some_2 cities c) as [p Hp].
  { apply Hpath. by eapply list_elem_of_lookup_2. }
  rewrite Hp. eauto.
Qed.

Lemma tourLength_ok h cities (path : list nat) :
  path <> [] -> (forall c, c ∈ path -> c < length cities) ->
  exists d, tourLength h cities path = Ok d.
Proof.
  intros Hne Hpath. unfold tourLength.
  assert (0 < length path) as Hlen by (destruct path; [done | simpl; lia]).
  destruct (foldlM_result_inv (fun _ => True)
              (fun d i => p ← cityAt cities path i;
                          q ← cityAt cities path (i + 1);
                          Ok (add d (distance h p q)))
              (seq 0 (length path - 1))) with (s := zero) as (d & Hd & _); [|done|].
  { intros d i _ Hi. apply elem_of_seq in Hi.
    destruct (cityAt_ok cities path i) as [p Hp]; [lia|done|].
    destruct (cityAt_ok cities path (i + 1)) as [q Hq]; [lia|done|].
    rewrite Hp. simpl. rewrite Hq. simpl. eauto. }
  rewrite Hd. simpl.
  destruct (cityAt_ok cities path (length path - 1)) as [p Hp]; [lia|done|].
  destruct (cityAt_ok cities path 0) as [q Hq]; [lia|done|].
  rewrite Hp. simpl. rewrite Hq. simpl. eauto.
Qed.

(** *** The pheromone matrix *)

(** Closes a goal whose hypotheses about membership in [a :: l] clash. *)
Ltac elem_contra :=
  exfalso;
  repeat match goal with
         | H : _ ∈ _ :: _ |- _ => apply elem_of_cons in H
         | H : ¬ (_ ∈ _ :: _) |- _ => rewrite elem_of_cons in H
         | H : _ ∉ _ :: _ |- _ => rewrite elem_of_cons in H
         end;
  intuition congruence.

Lemma foldl_insert_lookup {A} (f : nat -> option A -> A) (l : list nat) :
  NoDup l -> forall (row : gmap nat A) j,
  foldl (fun row j => <[j := f j (row !! j)]> row) row l !! j
  = if decide (j ∈ l) then Some (f j (row !! j)) else row !! j.
Proof.
  induction 1 as [|a l Hnin Hnd IH]; intros row j; cbn [foldl].
  - case_decide as Hin; [by apply not_elem_of_nil in Hin | done].
  - rewrite IH. destruct (decide (j = a)) as [->|Hne].
    + rewrite lookup_insert_eq. repeat case_decide; try done; elem_contra.
    + rewrite lookup_insert_ne by done.
      repeat case_decide; try done; elem_contra.
Qed.

Lemma evaporateRow_lookup row j :
  evaporateRow row !! j
  = if decide (j < CITY_COUNT) then Some (mul (of_slot (row !! j)) (sub one rho))
    else row !! j.
Proof.
  unfold evaporateRow.
  rewrite (foldl_insert_lookup (fun _ o => mul (of_slot o) (sub one rho)))
    by apply NoDup_seq.
  destruct (decide (j < CITY_COUNT)).
  - rewrite decide_True; [done|]. apply elem_of_seq. lia.
  - rewrite decide_False; [done|]. rewrite elem_of_seq. lia.
Qed.

Lemma evaporate_from (l : list nat) :
  NoDup l -> forall ph : gmap nat (gmap nat num),
  (forall i, i ∈ l -> is_Some (ph !! i)) ->
  exists ph',
    foldlM (fun ph i => row ← defined (ph !! i); Ok (<[i := evaporateRow row]> ph)) ph l
    = Ok ph'
    /\ forall i, ph' !! i = if decide (i ∈ l) then evaporateRow <$> ph !! i else ph !! i.
Proof.
  induction 1 as [|a l Hnin Hnd IH]; intros ph Hrows; cbn [foldlM].
  - exists ph. split; [done|]. intros i.
    case_decide as Hin; [by apply not_elem_of_nil in Hin | done].
  - destruct (Hrows a) as [row Hrow]; [left|]. rewrite Hrow. cbn [defined mbind result_bind].
    destruct (IH (<[a := evaporateRow row]> ph)) as (ph' & Heq & Hlook).
    { intros i Hi. rewrite lookup_insert_ne by (intros ->; done). apply Hrows. by right. }
    exists ph'. split; [done|]. intros i. rewrite Hlook.
    destruct (decide (i = a)) as [->|Hne].
    + rewrite lookup_insert_eq, Hrow.
      repeat case_decide; try done; elem_contra.
    + rewrite lookup_insert_ne by done.
      repeat case_decide; try done; elem_contra.
Qed.

Lemma evaporate_ok ph :
  (forall i, i < CITY_COUNT -> is_Some (ph !! i)) ->
  exists ph', evaporate ph = Ok ph'
    /\ forall i j, i < CITY_COUNT -> j < CITY_COUNT ->
         entry ph' i j = Some (mul (of_slot (entry ph i j)) (sub one rho)).
Proof.
  intros Hrows. destruct (evaporate_from (seq 0 CITY_COUNT) (NoDup_seq _ _) ph)
    as (ph' & Heq & Hlook).
  { intros i Hi. apply elem_of_seq in Hi. apply Hrows. lia. }
  exists ph'. split; [done|]. intros i j Hi Hj. unfold entry.
  rewrite Hlook. rewrite decide_True by (apply elem_of_seq; lia).
  destruct (Hrows i Hi) as [row Hrow]. rewrite Hrow. simpl.
  rewrite evaporateRow_lookup. by rewrite decide_True.
Qed.

Lemma bump_entry c ph u v :
  is_Some (ph !! u) ->
  exists ph', bump c ph u v = Ok ph'
    /\ forall i j, entry ph' i j
         = if decide (i = u /\ j = v) then Some (add (of_slot (entry ph u v)) c)
           else entry ph i j.
Proof.
  intros [row Hrow]. unfold bump. rewrite Hrow. simpl.
  eexists; split; [done|]. intros i j. unfold entry.
  destruct (decide (i = u)) as [->|Hi].
  - rewrite lookup_insert_eq, Hrow. simpl.
    destruct (decide (j = v)) as [->|Hj].
    + rewrite decide_True by done. by rewrite lookup_insert_eq.
    + rewrite decide_False by tauto. by rewrite lookup_insert_ne.
  - rewrite decide_False by tauto. by rewrite lookup_insert_ne.
Qed.

(** *** Positivity of the numbers involved *)

Lemma positive_evaporated v : positive v -> positive (mul v (sub one rho)).
Proof.
  destruct v as [q| | |]; simpl; try tauto. intros. lra.
Qed.

Lemma contribution_positive d : nonneg_fin d -> positive (div (Fin 100) d).
Proof.
  destruct d as [q| | |]; simpl; try tauto. intros Hq.
  destruct (Qeq_bool q 0) eqn:E.
  - by compute.
  - simpl. apply Qeq_bool_neq in E.
    apply Qlt_shift_div_l; [|lra].
    destruct (Qle_lt_or_eq _ _ Hq) as [|Heq]; [done|]. exfalso. apply E. by symmetry.
Qed.

Lemma distance_nonneg h p q :
  sqrt_sound h ->
  finite (Point.x p) -> finite (Point.y p) ->
  finite (Point.x q) -> finite (Point.y q) ->
  nonneg_fin (distance h p q).
Proof.
  intros Hs ? ? ? ?. unfold distance. apply Hs.
  apply nonneg_fin_add; apply square_nonneg; by apply finite_sub.
Qed.

(** *** One tick succeeds *)

Lemma perm_range (path : list nat) c :
  path ≡ₚ seq 0 CITY_COUNT -> c ∈ path -> c < CITY_COUNT.
Proof. intros Hp Hc. rewrite Hp in Hc. apply elem_of_seq in Hc. lia. Qed.

Lemma perm_length (path : list nat) :
  path ≡ₚ seq 0 CITY_COUNT -> length path = CITY_COUNT.
Proof. intros Hp. by rewrite Hp, length_seq. Qed.

Lemma bump_rows c ph u v :
  hasRows ph -> u < CITY_COUNT ->
  exists ph', bump c ph u v = Ok ph' /\ hasRows ph'.
Proof.
  intros Hrows Hu. destruct (Hrows u Hu) as [row Hrow].
  unfold bump. rewrite Hrow. simpl. eexists; split; [done|].
  intros i Hi. destruct (decide (i = u)) as [->|Hne].
  - by rewrite lookup_insert_eq.
  - rewrite lookup_insert_ne by done. by apply Hrows.
Qed.

Lemma depositEdge_rows c (path : list nat) ph i j :
  hasRows ph -> (forall n, n ∈ path -> n < CITY_COUNT) ->
  i < length path -> j < length path ->
  exists ph', depositEdge c path ph i j = Ok ph' /\ hasRows ph'.
Proof.
  intros Hrows Hpath Hi Hj. unfold depositEdge.
  destruct (lookup_lt_is_Some_2 path i Hi) as [u Hu].
  destruct (lookup_lt_is_Some_2 path j Hj) as [v Hv].
  rewrite Hu, Hv. simpl.
  destruct (bump_rows c ph u v Hrows) as (ph1 & H1 & Hrows1).
  { apply Hpath. by eapply list_elem_of_lookup_2. }
  rewrite H1. simpl. apply bump_rows; [done|].
  apply Hpath. by eapply list_elem_of_lookup_2.
Qed.

Lemma deposit_rows (paths : list (list nat)) dists ph k :
  hasRows ph -> Forall (fun path => path ≡ₚ seq 0 CITY_COUNT) paths ->
  k < length paths ->
  exists ph', deposit paths dists ph k = Ok ph' /\ hasRows ph'.
Proof.
  intros Hrows Hperm Hk. unfold deposit.
  destruct (lookup_lt_is_Some_2 paths k Hk) as [path Hpath]. rewrite Hpath.
  cbn [defined mbind result_bind].
  assert (path ≡ₚ seq 0 CITY_COUNT) as Hp.
  { rewrite Forall_forall in Hperm. apply Hperm. by eapply list_elem_of_lookup_2. }
  pose proof (perm_length path Hp) as Hlen.
  destruct (foldlM_result_inv hasRows
              (fun ph i => depositEdge (div (Fin 100) (of_slot (dists !! k))) path ph i (i + 1))
              (seq 0 (length path - 1))) with (s := ph) as (ph1 & H1 & Hrows1); [|done|].
  { intros s i Hs Hi. apply elem_of_seq in Hi.
    apply depositEdge_rows; [done| |lia|lia]. intros n. by apply perm_range. }
  rewrite H1. simpl. apply depositEdge_rows; [done| | |].
  - intros n. by apply perm_range.
  - unfold CITY_COUNT in *. lia.
  - unfold CITY_COUNT in *. lia.
Qed.

Lemma ant_ok h cities ph c i k :
  random_sound h -> length cities = CITY_COUNT -> hasRows ph ->
  exists path d k',
    ant h cities ph c i k
    = Ok ({| antsPaths := antsPaths c ++ [path];
             pathDistances := pathDistances c ++ [d];
             bestPath := if ltb d (bestDist c) then path else bestPath c;
             bestDist := if ltb d (bestDist c) then d else bestDist c |}, k')
    /\ path ≡ₚ seq 0 CITY_COUNT
    /\ tourLength h cities path = Ok d.
Proof.
  intros Hrand Hcities Hrows. unfold ant.
  destruct (constructPath_ok h cities ph k Hrand Hcities Hrows) as (path & k' & Hp & Hperm).
  rewrite (bind_M_ok _ _ _ _ _ Hp).
  destruct (tourLength_ok h cities path) as [d Hd].
  { intros ->. apply Permutation_nil_l in Hperm. discriminate. }
  { intros n Hn. rewrite Hcities. by eapply perm_range. }
  rewrite (bind_M_ok _ _ _ _ _ (pure_ok _ _ _ Hd)).
  by exists path, d, k'.
Qed.

(** The loop over the ants: the paths are permutations of the cities, the
    distances are their tour lengths and the best tour is the first strictly
    shortest one. *)
Lemma ants_ok h cities ph l :
  random_sound h -> length cities = CITY_COUNT -> hasRows ph ->
  forall c k,
  exists c' k' paths dists,
    foldlM (ant h cities ph) c l k = Ok (c', k')
    /\ antsPaths c' = antsPaths c ++ paths
    /\ pathDistances c' = pathDistances c ++ dists
    /\ length paths = length l
    /\ Forall (fun path => path ≡ₚ seq 0 CITY_COUNT) paths
    /\ Forall2 (fun path d => tourLength h cities path = Ok d) paths dists
    /\ (bestPath c', bestDist c')
       = bestAfter (bestPath c, bestDist c) (zip paths dists).
Proof.
  intros Hrand Hcities Hrows. induction l as [|i l IH]; intros c k; cbn [foldlM].
  - exists c, k, [], []. rewrite !app_nil_r. repeat split; constructor.
  - destruct (ant_ok h cities ph c i k Hrand Hcities Hrows)
      as (path & d & k1 & Hant & Hperm & Hd).
    rewrite (bind_M_ok _ _ _ _ _ Hant).
    edestruct IH as (c' & k' & paths & dists & Heq & Hp & Hds & Hlen & Hall & Hall2 & Hbest).
    exists c', k', (path :: paths), (d :: dists).
    split; [exact Heq|]. cbn [antsPaths pathDistances bestPath bestDist] in *.
    rewrite Hp, Hds, <- !app_assoc. repeat split.
    + simpl. by rewrite Hlen.
    + by constructor.
    + by constructor.
    + rewrite Hbest. cbn [zip zip_with bestAfter foldl]. simpl.
      by destruct (ltb d (bestDist c)).
Qed.

Lemma evaporate_rows ph :
  hasRows ph -> exists ph', evaporate ph = Ok ph' /\ hasRows ph'.
Proof.
  intros Hrows. destruct (evaporate_from (seq 0 CITY_COUNT) (NoDup_seq _ _) ph)
    as (ph' & Heq & Hlook).
  { intros i Hi. apply elem_of_seq in Hi. apply Hrows. lia. }
  exists ph'. split; [done|]. intros i Hi. rewrite Hlook.
  rewrite decide_True by (apply elem_of_seq; lia).
  destruct (Hrows i Hi) as [row ->]. by eexists.
Qed.

(** A running frame with a drawing context succeeds, and this is what it
    computes. *)
Lemma animate_run h config cities st k :
  random_sound h -> length cities = CITY_COUNT -> hasRows (pheromonesRef st) ->
  isRunning config = true ->
  exists paths dists ph1 ph2 k',
    length paths = Z.to_nat (populationSize config)
    /\ Forall (fun path => path ≡ₚ seq 0 CITY_COUNT) paths
    /\ Forall2 (fun path d => tourLength h cities path = Ok d) paths dists
    /\ evaporate (pheromonesRef st) = Ok ph1
    /\ foldlM (deposit paths dists) ph1 (seq 0 (length paths)) = Ok ph2
    /\ hasRows ph2
    /\ animate h config true cities st k
       = Ok ({| state :=
                 {| pheromonesRef := ph2;
                    bestPathRef := (bestAfter (bestPathRef st, bestDistRef st)
                                              (zip paths dists)).1;
                    bestDistRef := (bestAfter (bestPathRef st, bestDistRef st)
                                              (zip paths dists)).2;
                    iterationRef := S (iterationRef st) |};
               stats :=
                 Some {| iteration := S (iterationRef st);
                         bestScore := (bestAfter (bestPathRef st, bestDistRef st)
                                                 (zip paths dists)).2;
                         stats_populationSize := populationSize config |};
               currentAntsPaths := paths |}, k').
Proof.
  intros Hrand Hcities Hrows Hrun. unfold animate. rewrite Hrun. cbn [negb].
  destruct (ants_ok h cities (pheromonesRef st)
              (seq 0 (Z.to_nat (populationSize config))) Hrand Hcities Hrows
              {| antsPaths := []; pathDistances := [];
                 bestPath := bestPathRef st; bestDist := bestDistRef st |} k)
    as (c & k1 & paths & dists & Hants & Hp & Hds & Hlen & Hperm & Hd & Hbest).
  cbn [antsPaths pathDistances bestPath bestDist app] in *.
  rewrite (bind_M_ok _ _ _ _ _ Hants).
  destruct (evaporate_rows _ Hrows) as (ph1 & Hev & Hrows1).
  rewrite (bind_M_ok _ _ _ _ _ (pure_ok _ _ _ Hev)).
  destruct (foldlM_result_inv hasRows (deposit (antsPaths c) (pathDistances c))
              (seq 0 (length (antsPaths c)))) with (s := ph1)
    as (ph2 & Hdep & Hrows2); [|done|].
  { intros s i Hs Hi. apply elem_of_seq in Hi. rewrite Hp in Hi |- *.
    apply deposit_rows; [done|done|lia]. }
  rewrite (bind_M_ok _ _ _ _ _ (pure_ok _ _ _ Hdep)).
  rewrite Hp, Hds in Hdep.
  exists paths, dists, ph1, ph2, k1.
  rewrite length_seq in Hlen.
  repeat (split; [done|]).
  rewrite <- Hbest, Hp. reflexivity.
Qed.

(** *** The matrix stays symmetric and positive *)

Lemma symmetricPositive_rows ph : symmetricPositive ph -> hasRows ph.
Proof.
  intros Hsym i Hi. destruct (Hsym i i Hi Hi) as (v & Hv & _).
  unfold entry in Hv. destruct (ph !! i); [eauto | discriminate].
Qed.

Lemma evaporate_symmetric ph ph' :
  symmetricPositive ph -> evaporate ph = Ok ph' -> symmetricPositive ph'.
Proof.
  intros Hsym Hev.
  destruct (evaporate_ok ph (symmetricPositive_rows ph Hsym)) as (ph1 & Hev1 & Hent).
  rewrite Hev in Hev1. injection Hev1 as <-.
  intros i j Hi Hj. destruct (Hsym i j Hi Hj) as (v & Hij & Hji & Hv).
  exists (mul v (sub one rho)).
  rewrite !Hent by done. rewrite Hij, Hji. simpl.
  split; [done|]. split; [done|]. by apply positive_evaporated.
Qed.

Lemma depositEdge_symmetric c (path : list nat) ph i j :
  positive c -> symmetricPositive ph ->
  (forall n, n ∈ path -> n < CITY_COUNT) ->
  i < length path -> j < length path ->
  exists ph', depositEdge c path ph i j = Ok ph' /\ symmetricPositive ph'.
Proof.
  intros Hc Hsym Hpath Hi Hj. unfold depositEdge.
  destruct (lookup_lt_is_Some_2 path i Hi) as [u Hu].
  destruct (lookup_lt_is_Some_2 path j Hj) as [v Hv].
  rewrite Hu, Hv. cbn [defined mbind result_bind].
  assert (u < CITY_COUNT) as Hu' by (apply Hpath; by eapply list_elem_of_lookup_2).
  assert (v < CITY_COUNT) as Hv' by (apply Hpath; by eapply list_elem_of_lookup_2).
  pose proof (symmetricPositive_rows ph Hsym) as Hrows.
  destruct (bump_entry c ph u v (Hrows u Hu')) as (ph1 & H1 & Hent1).
  rewrite H1. cbn [mbind result_bind].
  destruct (bump_entry c ph1 v u) as (ph2 & H2 & Hent2).
  { destruct (bump_rows c ph u v Hrows Hu') as (ph1' & H1' & Hrows1).
    rewrite H1 in H1'. injection H1' as <-. by apply Hrows1. }
  exists ph2. split; [done|].
  intros a b Ha Hb.
  destruct (Hsym a b Ha Hb) as (w & Hab & Hba & Hw).
  destruct (Hsym u v Hu' Hv') as (e & Huv & Hvu & He).
  rewrite !Hent2, !Hent1. rewrite Huv, Hvu, Hab, Hba. cbn [of_slot default].
  repeat case_decide; destruct_and?; simplify_eq;
    try (exfalso; tauto);
    eexists; (split; [reflexivity|]); (split; [reflexivity|]);
    eauto using positive_add.
Qed.

Lemma cityAt_finite cities path i p :
  Forall (fun p => finite (Point.x p) /\ finite (Point.y p)) cities ->
  cityAt cities path i = Ok p -> finite (Point.x p) /\ finite (Point.y p).
Proof.
  intros Hfin Hat. unfold cityAt in Hat.
  apply bind_result_inv in Hat as (c & _ & Hp). apply defined_inv in Hp.
  rewrite Forall_forall in Hfin. apply Hfin. by eapply list_elem_of_lookup_2.
Qed.

Lemma tourLength_nonneg h cities path d :
  sqrt_sound h ->
  Forall (fun p => finite (Point.x p) /\ finite (Point.y p)) cities ->
  tourLength h cities path = Ok d -> nonneg_fin d.
Proof.
  intros Hs Hfin Hd. unfold tourLength in Hd.
  apply bind_result_inv in Hd as (d0 & Hd0 & Hd).
  apply bind_result_inv in Hd as (p & Hp & Hd).
  apply bind_result_inv in Hd as (q & Hq & Hd).
  injection Hd as <-.
  apply cityAt_finite in Hp as [? ?]; [|done].
  apply cityAt_finite in Hq as [? ?]; [|done].
  apply nonneg_fin_add; [|by apply distance_nonneg].
  revert Hd0. apply foldlM_result_partial; [|simpl; lra].
  intros s i s' Hs' _ Hstep.
  apply bind_result_inv in Hstep as (p1 & Hp1 & Hstep).
  apply bind_result_inv in Hstep as (q1 & Hq1 & Hstep).
  injection Hstep as <-.
  apply cityAt_finite in Hp1 as [? ?]; [|done].
  apply cityAt_finite in Hq1 as [? ?]; [|done].
  apply nonneg_fin_add; [done | by apply distance_nonneg].
Qed.

Lemma deposit_symmetric h cities (paths : list (list nat)) dists ph k :
  sqrt_sound h ->
  Forall (fun p => finite (Point.x p) /\ finite (Point.y p)) cities ->
  Forall (fun path => path ≡ₚ seq 0 CITY_COUNT) paths ->
  Forall2 (fun path d => tourLength h cities path = Ok d) paths dists ->
  symmetricPositive ph -> k < length paths ->
  exists ph', deposit paths dists ph k = Ok ph' /\ symmetricPositive ph'.
Proof.
  intros Hs Hfin Hperm Hd Hsym Hk. unfold deposit.
  destruct (lookup_lt_is_Some_2 paths k Hk) as [path Hpath]. rewrite Hpath.
  cbn [defined mbind result_bind].
  assert (path ≡ₚ seq 0 CITY_COUNT) as Hp.
  { rewrite Forall_forall in Hperm. apply Hperm. by eapply list_elem_of_lookup_2. }
  pose proof (perm_length path Hp) as Hlen.
  destruct (Forall2_lookup_l _ _ _ _ _ Hd Hpath) as (d & Hdk & Htour).
  rewrite Hdk. change (of_slot (Some d)) with d.
  assert (positive (div (Fin 100) d)) as Hc
    by (eapply contribution_positive, tourLength_nonneg; done).
  destruct (foldlM_result_inv symmetricPositive
              (fun ph i => depositEdge (div (Fin 100) d) path ph i (i + 1))
              (seq 0 (length path - 1))) with (s := ph) as (ph1 & H1 & Hsym1); [|done|].
  { intros s i Hs' Hi. apply elem_of_seq in Hi.
    apply depositEdge_symmetric; [done|done| |lia|lia]. intros n. by apply perm_range. }
  rewrite H1. cbn [mbind result_bind]. apply depositEdge_symmetric; [done|done| | |].
  - intros n. by apply perm_range.
  - unfold CITY_COUNT in *. lia.
  - unfold CITY_COUNT in *. lia.
Qed.

(** What a frame leaves unchanged when it is paused or has no context. *)
Lemma animate_idle h config ctx cities st k :
  isRunning config = false \/ ctx = false ->
  animate h config ctx cities st k
  = Ok ({| state := st; stats := None; currentAntsPaths := [] |}, k).
Proof.
  unfold animate. intros [-> | ->]; [done|]. by destruct (isRunning config).
Qed.

(** A property of the state that running frames keep holds after any frame
    that returns. *)
Lemma animate_preserves h cities (P : State -> Prop) :
  (forall config st k fr k',
     P st -> isRunning config = true ->
     animate h config true cities st k = Ok (fr, k') -> P (state fr)) ->
  forall config ctx st k fr k',
    P st -> animate h config ctx cities st k = Ok (fr, k') -> P (state fr).
Proof.
  intros Hrun config ctx st k fr k' HP Hfr.
  destruct (isRunning config) eqn:Hr; [destruct ctx|].
  - by eapply Hrun.
  - rewrite animate_idle in Hfr by auto. by injection Hfr as <- <-.
  - rewrite animate_idle in Hfr by auto. by injection Hfr as <- <-.
Qed.

Lemma ticks_ind_from h cities (P : State -> Prop) st0 :
  P st0 ->
  (forall config st k fr k',
     P st -> isRunning config = true ->
     animate h config true cities st k = Ok (fr, k') -> P (state fr)) ->
  forall st, ticks h cities st0 st -> P st.
Proof.
  intros H0 Hstep st Hticks. induction Hticks as [|config ctx st st' k fr k' _ IH Hfr].
  - done.
  - eapply animate_preserves; [exact Hstep | exact (IH H0) | exact Hfr].
Qed.

Lemma initState_symmetric : symmetricPositive (pheromonesRef initState).
Proof.
  intros i j Hi Hj. exists one. unfold entry, initState. cbn [pheromonesRef].
  unfold array.
  rewrite !lookup_map_seq_0, !lookup_replicate_2 by done. cbn [mbind option_bind].
  rewrite !lookup_map_seq_0, !lookup_replicate_2 by done.
  split; [done|]. split; [done|]. by compute.
Qed.

Lemma reachable_symmetric h cities st :
  random_sound h -> sqrt_sound h -> citiesInitialized cities ->
  reachable h cities st -> symmetricPositive (pheromonesRef st).
Proof.
  intros Hrand Hs [Hlen Hfin] Hreach.
  apply (ticks_ind_from h cities (fun st => symmetricPositive (pheromonesRef st))
           initState initState_symmetric); [|exact Hreach].
  intros config st0 k fr k' Hsym Hrun Hfr.
  destruct (animate_run h config cities st0 k Hrand Hlen
              (symmetricPositive_rows _ Hsym) Hrun)
    as (paths & dists & ph1 & ph2 & k1 & Hn & Hperm & Hd & Hev & Hdep & _ & Heq).
  rewrite Hfr in Heq. injection Heq as -> ->. cbn [state pheromonesRef].
  apply evaporate_symmetric in Hev; [|done].
  destruct (foldlM_result_inv symmetricPositive (deposit paths dists)
              (seq 0 (length paths))) with (s := ph1) as (ph3 & Hdep3 & Hsym3); [|done|].
  { intros s i Hs' Hi. apply elem_of_seq in Hi.
    eapply deposit_symmetric; try done. lia. }
  rewrite Hdep in Hdep3. by injection Hdep3 as <-.
Qed.

(** *** The best tour *)

Lemma ant_inv h cities ph c i k c' k' :
  ant h cities ph c i k = Ok (c', k') ->
  exists path d,
    tourLength h cities path = Ok d
    /\ c' = {| antsPaths := antsPaths c ++ [path];
               pathDistances := pathDistances c ++ [d];
               bestPath := if ltb d (bestDist c) then path else bestPath c;
               bestDist := if ltb d (bestDist c) then d else bestDist c |}.
Proof.
  unfold ant. intros Hant.
  apply bind_M_inv in Hant as (path & k1 & _ & Hant).
  apply bind_M_inv in Hant as (d & k2 & Hd & Hant).
  apply pure_inv in Hd as [Hd ->].
  injection Hant as <- <-. eauto.
Qed.

Lemma ants_improved h cities ph c0 l k c k' :
  foldlM (ant h cities ph) c0 l k = Ok (c, k') -> improved h cities c0 c.
Proof.
  apply (foldlM_M_partial (improved h cities c0)); [|by left].
  intros s i k1 s' k1' Hs _ Hant.
  apply ant_inv in Hant as (path & d & Hd & ->).
  unfold improved in *. cbn [bestPath bestDist antsPaths].
  destruct (ltb d (bestDist s)) eqn:Hlt.
  - right. split; [|split; [|done]].
    2:{ rewrite elem_of_app, list_elem_of_singleton. by right. }
    destruct Hs as [[= _ <-] | (Hlt0 & _ & _)]; [done|]. by eapply ltb_trans.
  - destruct Hs as [Hs | (Hlt0 & Hin & Htour)]; [by left|].
    right. split; [done|]. split; [|done]. rewrite elem_of_app. by left.
Qed.

(** What a running frame with a context does to the best tour. *)
Lemma animate_best h config cities st k fr k' :
  isRunning config = true ->
  animate h config true cities st k = Ok (fr, k') ->
  (bestPathRef (state fr), bestDistRef (state fr)) = (bestPathRef st, bestDistRef st)
  \/ (ltb (bestDistRef (state fr)) (bestDistRef st) = true
      /\ bestPathRef (state fr) ∈ currentAntsPaths fr
      /\ tourLength h cities (bestPathRef (state fr)) = Ok (bestDistRef (state fr))).
Proof.
  intros Hrun. unfold animate. rewrite Hrun. cbn [negb]. intros Hfr.
  apply bind_M_inv in Hfr as (c & k1 & Hants & Hfr).
  apply bind_M_inv in Hfr as (ph1 & k2 & _ & Hfr).
  apply bind_M_inv in Hfr as (ph2 & k3 & _ & Hfr).
  injection Hfr as <- <-. cbn [state bestPathRef bestDistRef currentAntsPaths].
  apply ants_improved in Hants. exact Hants.
Qed.

Lemma animate_best_any h config ctx cities st k fr k' :
  animate h config ctx cities st k = Ok (fr, k') ->
  (bestPathRef (state fr), bestDistRef (state fr)) = (bestPathRef st, bestDistRef st)
  \/ (ltb (bestDistRef (state fr)) (bestDistRef st) = true
      /\ bestPathRef (state fr) ∈ currentAntsPaths fr
      /\ tourLength h cities (bestPathRef (state fr)) = Ok (bestDistRef (state fr))).
Proof.
  intros Hfr. destruct (isRunning config) eqn:Hr; [destruct ctx|].
  - by eapply animate_best.
  - rewrite animate_idle in Hfr by auto. injection Hfr as <- <-. by left.
  - rewrite animate_idle in Hfr by auto. injection Hfr as <- <-. by left.
Qed.

Lemma ticks_best h cities st st' :
  ticks h cities st st' ->
  (bestPathRef st', bestDistRef st') = (bestPathRef st, bestDistRef st)
  \/ ltb (bestDistRef st') (bestDistRef st) = true.
Proof.
  induction 1 as [|config ctx st st' k fr k' _ IH Hfr]; [by left|].
  apply animate_best_any in Hfr as [[= Hp Hd] | (Hlt & _ & _)].
  - rewrite Hp, Hd. exact IH.
  - right. destruct IH as [[= _ Hd] | Hlt0].
    + by rewrite <- Hd.
    + by eapply ltb_trans.
Qed.

Lemma reachable_best_defined h cities st :
  reachable h cities st -> isNaN (bestDistRef st) = false.
Proof.
  intros Hreach. apply ticks_best in Hreach as [[= _ ->] | Hlt]; [done|].
  by eapply ltb_not_NaN.
Qed.

(** C5.  The best distance starts at +Infinity and is not increased by any
    sequence of frames.  Over a sequence the best tour is either untouched or
    its length has become strictly smaller; one frame either leaves the stored
    best path and distance as they were, or stores the path of one of its ants
    whose tour length is strictly below the previous best, so a tie replaces
    nothing. *)
Theorem aco_best_distance_monotone h cities st st' :
  reachable h cities st -> ticks h cities st st' ->
  bestDistRef initState = PInf
  /\ leb (bestDistRef st') (bestDistRef st) = true
  /\ ((bestPathRef st', bestDistRef st') = (bestPathRef st, bestDistRef st)
      \/ ltb (bestDistRef st') (bestDistRef st) = true)
  /\ forall config ctx k fr k',
       animate h config ctx cities st k = Ok (fr, k') ->
       (bestPathRef (state fr), bestDistRef (state fr))
       = (bestPathRef st, bestDistRef st)
       \/ (ltb (bestDistRef (state fr)) (bestDistRef st) = true
           /\ bestPathRef (state fr) ∈ currentAntsPaths fr
           /\ tourLength h cities (bestPathRef (state fr))
              = Ok (bestDistRef (state fr))).
Proof.
  intros Hreach Hticks. split; [done|].
  pose proof (ticks_best h cities st st' Hticks) as Hbest.
  split; [|split; [exact Hbest|]].
  - destruct Hbest as [[= _ ->] | Hlt].
    + apply leb_refl. by eapply reachable_best_defined.
    + by apply ltb_leb.
  - intros config ctx k fr k'. apply animate_best_any.
Qed.

Lemma exampleAcoState_ticks :
  ticks exampleHost exampleCities initState exampleAcoState.
Proof.
  unfold exampleAcoState.
  destruct (animate exampleHost (exampleConfig 3) true exampleCities initState 30)
    as [[fr k']|e] eqn:E.
  - eapply ticks_step; [apply ticks_refl | exact E].
  - apply ticks_refl.
Qed.

Lemma aco_best_distance_monotone_witness :
  reachable exampleHost exampleCities initState
  /\ ticks exampleHost exampleCities initState exampleAcoState
  /\ leb (bestDistRef exampleAcoState) (bestDistRef initState) = true.
Proof.
  split; [apply ticks_refl|]. split; [apply exampleAcoState_ticks|].
  apply (aco_best_distance_monotone exampleHost exampleCities initState
           exampleAcoState (ticks_refl _ _ _) exampleAcoState_ticks).
Defined.

Lemma reachable_rows h cities st :
  random_sound h -> length cities = CITY_COUNT ->
  reachable h cities st -> hasRows (pheromonesRef st).
Proof.
  intros Hrand Hlen Hreach.
  apply (ticks_ind_from h cities (fun st => hasRows (pheromonesRef st)) initState);
    [apply symmetricPositive_rows, initState_symmetric | | exact Hreach].
  intros config st0 k fr k' Hrows Hrun Hfr.
  destruct (animate_run h config cities st0 k Hrand Hlen Hrows Hrun)
    as (paths & dists & ph1 & ph2 & k1 & _ & _ & _ & _ & _ & Hrows2 & Heq).
  rewrite Hfr in Heq. by injection Heq as -> ->.
Qed.

(** C1.  With cities and pheromones initialised and random draws in [0, 1),
    every running frame, from every state the frames reach, succeeds, builds
    one path per ant, and each path is a permutation of the [CITY_COUNT] city
    indices: every city once, none left out. *)
Theorem aco_paths_are_permutations h cities config st k :
  random_sound h -> length cities = CITY_COUNT -> reachable h cities st ->
  isRunning config = true ->
  exists fr k',
    animate h config true cities st k = Ok (fr, k')
    /\ length (currentAntsPaths fr) = Z.to_nat (populationSize config)
    /\ Forall (fun path => path ≡ₚ seq 0 CITY_COUNT) (currentAntsPaths fr).
Proof.
  intros Hrand Hlen Hreach Hrun.
  destruct (animate_run h config cities st k Hrand Hlen
              (reachable_rows h cities st Hrand Hlen Hreach) Hrun)
    as (paths & dists & ph1 & ph2 & k1 & Hn & Hperm & _ & _ & _ & _ & Heq).
  eexists _, _. split; [exact Heq|]. by split.
Qed.

Lemma aco_paths_are_permutations_witness :
  random_sound exampleHost
  /\ length exampleCities = CITY_COUNT
  /\ reachable exampleHost exampleCities exampleAcoState
  /\ exists fr k',
       animate exampleHost (exampleConfig 3) true exampleCities exampleAcoState 75
       = Ok (fr, k')
       /\ length (currentAntsPaths fr) = 3
       /\ Forall (fun path => path ≡ₚ seq 0 CITY_COUNT) (currentAntsPaths fr).
Proof.
  split; [apply exampleHost_random|]. split; [reflexivity|].
  split; [apply exampleAcoState_ticks|].
  apply (aco_paths_are_permutations exampleHost exampleCities (exampleConfig 3)
           exampleAcoState 75 exampleHost_random eq_refl
           exampleAcoState_ticks eq_refl).
Defined.

(** C4.  Starting from the all-ones matrix, after every frame the pheromone
    matrix is symmetric and strictly positive on all city pairs: [M[i][j]] and
    [M[j][i]] hold the same value, and that value is above zero.  Evaporation
    and the two-way deposit each keep this. *)
Theorem aco_pheromones_symmetric_positive h cities st :
  random_sound h -> sqrt_sound h -> citiesInitialized cities ->
  reachable h cities st ->
  forall i j, i < CITY_COUNT -> j < CITY_COUNT ->
    exists v, entry (pheromonesRef st) i j = Some v
              /\ entry (pheromonesRef st) j i = Some v
              /\ positive v
              /\ eqb v v = true.
Proof.
  intros Hrand Hs Hc Hreach i j Hi Hj.
  destruct (reachable_symmetric h cities st Hrand Hs Hc Hreach i j Hi Hj)
    as (v & Hij & Hji & Hv).
  exists v. repeat (split; [done|]).
  destruct v as [q| | |]; try done. apply Qeq_bool_refl.
Qed.

Lemma aco_pheromones_symmetric_positive_witness :
  random_sound exampleHost /\ sqrt_sound exampleHost
  /\ citiesInitialized exampleCities
  /\ reachable exampleHost exampleCities exampleAcoState
  /\ exists v, entry (pheromonesRef exampleAcoState) 12 14 = Some v
               /\ entry (pheromonesRef exampleAcoState) 14 12 = Some v
               /\ positive v
               /\ eqb v v = true.
Proof.
  split; [apply exampleHost_random|]. split; [apply exampleHost_sqrt|].
  split; [apply exampleCities_initialized|].
  split; [apply exampleAcoState_ticks|].
  apply (aco_pheromones_symmetric_positive exampleHost exampleCities
           exampleAcoState exampleHost_random exampleHost_sqrt
           exampleCities_initialized exampleAcoState_ticks 12 14);
    unfold CITY_COUNT; lia.
Defined.

(** *** Roulette wheel selection *)

Lemma unbounded_sub r p : unbounded r -> unbounded (sub r p).
Proof. intros [-> | ->]; destruct p; simpl; unfold unbounded; auto. Qed.

Lemma unbounded_leb r : unbounded r -> leb r zero = false.
Proof. by intros [-> | ->]. Qed.

Lemma roulette_unbounded probs cands i r sel :
  unbounded r -> roulette probs cands i r sel = sel.
Proof.
  revert i r. induction probs as [|p probs IH]; intros i r Hr; simpl; [done|].
  rewrite (unbounded_leb (sub r p)) by by apply unbounded_sub.
  apply IH. by apply unbounded_sub.
Qed.

Lemma unbounded_total u sumProb :
  unit_interval u -> sumProb = PInf \/ sumProb = NaN -> unbounded (mul u sumProb).
Proof.
  destruct u as [q| | |]; cbn [unit_interval]; try tauto.
  intros [H0 _] [-> | ->]; cbn [mul]; [|by right].
  unfold signed. destruct (q ?= 0)%Q eqn:E; [by right | | by left].
  apply Qlt_alt in E. lra.
Qed.

(** C7, as the code has it.  For a non-empty list of candidates with one
    desirability each, the selection returns one of the candidates for every
    random draw, so it never reads past [candidates] and nothing is thrown.
    When the total desirability is NaN or +Infinity the last candidate in
    iteration order is returned.  When the total is zero the test [r <= 0]
    holds in the first round and the first candidate is returned. *)
Theorem aco_select_degenerate probs cands sumProb u :
  length probs = length cands -> cands <> [] ->
  (exists c, select probs cands sumProb u = Some c /\ c ∈ cands)
  /\ (unit_interval u -> sumProb = PInf \/ sumProb = NaN ->
      select probs cands sumProb u = last cands)
  /\ (unit_interval u -> eqb sumProb zero = true ->
      Forall (fun p => eqb p zero = true) probs ->
      select probs cands sumProb u = head cands).
Proof.
  intros Hlen Hne. split; [|split].
  - destruct (select_defined probs cands sumProb u Hlen Hne) as [c Hc].
    exists c. split; [done|]. by eapply select_elem.
  - intros Hu Hsum. unfold select. apply roulette_unbounded.
    by apply unbounded_total.
  - intros Hu Hsum Hzero. unfold select.
    destruct probs as [|p probs]; [by destruct cands|].
    apply Forall_cons in Hzero as [Hp _].
    destruct u as [q| | |]; cbn [unit_interval] in Hu; try tauto.
    destruct sumProb as [s| | |]; try discriminate.
    destruct p as [p| | |]; try discriminate.
    apply Qeq_bool_iff in Hsum, Hp.
    cbn [roulette mul sub add neg].
    assert (leb (Fin (q * s + - p)) zero = true) as ->.
    { apply leb_Fin. rewrite Hsum, Hp. lra. }
    by destruct cands.
Qed.

Lemma aco_select_degenerate_witness :
  length [zero; zero; zero] = length [3; 5; 8]
  /\ [3; 5; 8] <> []
  /\ select [zero; zero; zero] [3; 5; 8] zero (Fin (1 # 2)) = head [3; 5; 8]
  /\ select [PInf; one; PInf] [3; 5; 8] PInf (Fin (1 # 2)) = last [3; 5; 8].
Proof.
  split; [reflexivity|]. split; [discriminate|].
  split.
  - apply (aco_select_degenerate [zero; zero; zero] [3; 5; 8] zero (Fin (1 # 2))
             eq_refl); [discriminate | by compute | reflexivity | by repeat constructor].
  - reflexivity.
Defined.

(** The claim as the specification words it fails: with a total desirability
    of zero the first candidate is selected, not the last. *)
Lemma aco_select_zero_total_counterexample :
  foldl add zero [zero; zero; zero] = zero
  /\ select [zero; zero; zero] [3; 5; 8] zero (Fin (1 # 2)) = Some 3
  /\ select [zero; zero; zero] [3; 5; 8] zero (Fin (1 # 2)) <> last [3; 5; 8].
Proof.
  split; [reflexivity|]. split; [reflexivity|]. discriminate.
Qed.

End AcoTheory.
(** ** Grey wolf engine *)

Module GwoTheory.
Import Gwo.

(** *** The RANK action *)

Lemma setType_setType t t' w : Wolf.setType t (Wolf.setType t' w) = Wolf.setType t w.
Proof. by destruct w. Qed.

Lemma scoreAt_lookup wolves i w :
  wolves !! i = Some w -> scoreAt wolves i = Wolf.score w.
Proof. intros H. unfold scoreAt. by rewrite H. Qed.

Lemma rank_length wolves : length (rank wolves) = length wolves.
Proof.
  unfold rank, assign.
  repeat (case_match; rewrite ?length_alter); by rewrite length_fmap.
Qed.

(** The three best positions [a], [b], [d] of the sorted copy, and what the
    RANK action leaves at each position. *)
Lemma rank_spec wolves :
  3 <= length wolves ->
  Forall (fun w => isNaN (Wolf.score w) = false) wolves ->
  exists a b d,
    a <> b /\ a <> d /\ b <> d
    /\ a < length wolves /\ b < length wolves /\ d < length wolves
    /\ (forall i w, wolves !! i = Some w ->
          rank wolves !! i
          = Some (Wolf.setType (if decide (i = a) then alpha
                                else if decide (i = b) then beta
                                else if decide (i = d) then delta
                                else omega) w))
    /\ leb (scoreAt wolves a) (scoreAt wolves b) = true
    /\ leb (scoreAt wolves b) (scoreAt wolves d) = true
    /\ (forall i, i < length wolves -> i <> a -> i <> b -> i <> d ->
          leb (scoreAt wolves d) (scoreAt wolves i) = true).
Proof.
  intros Hn Hscores. unfold rank.
  set (cmp := fun a b => sub (scoreAt wolves a) (scoreAt wolves b)).
  pose proof (sort_perm cmp (seq 0 (length wolves))) as Hperm.
  assert (StronglySorted (keyLe (scoreAt wolves)) (sort cmp (seq 0 (length wolves))))
    as Hsorted.
  { apply sort_sorted; [done|]. apply Forall_forall. intros i Hi.
    apply elem_of_seq in Hi.
    destruct (lookup_lt_is_Some_2 wolves i) as [w Hw]; [lia|].
    rewrite (scoreAt_lookup _ _ _ Hw). rewrite Forall_forall in Hscores.
    apply Hscores. by eapply list_elem_of_lookup_2. }
  assert (NoDup (sort cmp (seq 0 (length wolves)))) as Hnd
    by (rewrite Hperm; apply NoDup_seq).
  pose proof (sort_length cmp (seq 0 (length wolves))) as Hlen.
  rewrite length_seq in Hlen.
  destruct (sort cmp (seq 0 (length wolves))) as [|a [|b [|d rest]]];
    simpl in Hlen; try lia.
  exists a, b, d.
  apply NoDup_cons in Hnd as [Ha Hnd]. apply NoDup_cons in Hnd as [Hb Hnd].
  apply NoDup_cons in Hnd as [Hd _].
  apply StronglySorted_cons in Hsorted as [Hfa Hsorted].
  apply StronglySorted_cons in Hsorted as [Hfb Hsorted].
  apply StronglySorted_cons in Hsorted as [Hfd _].
  assert (forall i, i ∈ a :: b :: d :: rest <-> i < length wolves) as Hmem.
  { intros i. rewrite Hperm, elem_of_seq. lia. }
  assert (a <> b) by (intros ->; apply Ha; left).
  assert (a <> d) by (intros ->; apply Ha; right; left).
  assert (b <> d) by (intros ->; apply Hb; left).
  repeat (split; [done|]).
  split; [apply Hmem; left|].
  split; [apply Hmem; right; left|].
  split; [apply Hmem; right; right; left|].
  split; [|split; [|split]].
  - intros i w Hw. unfold assign. cbn [lookup list_lookup].
    assert ((Wolf.setType omega <$> wolves) !! i = Some (Wolf.setType omega w)) as Hw0
      by (by rewrite list_lookup_fmap, Hw).
    destruct (decide (i = a)) as [->|Hia];
      [|destruct (decide (i = b)) as [->|Hib];
        [|destruct (decide (i = d)) as [->|Hid]]].
    + rewrite !list_lookup_alter_ne by done.
      by rewrite list_lookup_alter_eq, Hw0, <- (setType_setType alpha omega w).
    + rewrite list_lookup_alter_ne by done.
      rewrite list_lookup_alter_eq, list_lookup_alter_ne by done.
      by rewrite Hw0, <- (setType_setType beta omega w).
    + rewrite list_lookup_alter_eq, !list_lookup_alter_ne by done.
      by rewrite Hw0, <- (setType_setType delta omega w).
    + by rewrite !list_lookup_alter_ne by done.
  - apply Forall_cons in Hfa as [Hab _]. exact Hab.
  - apply Forall_cons in Hfb as [Hbd _]. exact Hbd.
  - intros i Hi Hia Hib Hid.
    assert (i ∈ rest) as Hin.
    { apply Hmem in Hi. rewrite !elem_of_cons in Hi. tauto. }
    rewrite Forall_forall in Hfd. by apply Hfd.
Qed.

(** *** Frames keep invariants *)

Lemma gwo_animate_idle h config ctx now st k :
  isRunning config = false \/ ctx = false ->
  animate h config ctx now st k = Ok ({| state := st; stats := None |}, k).
Proof.
  unfold animate. intros [-> | ->]; [done|]. by destruct (isRunning config).
Qed.

(** A property of the state that the timer, the phase actions and the
    interpolation keep holds after every frame that returns. *)
Lemma animate_invariant h (P : State -> Prop) config ctx now st k fr k' :
  (forall t s, P s -> P (setTimer t s)) ->
  (forall s k s' k', P s -> advancePhase h now s k = Ok (s', k') -> P s') ->
  (forall t s, finite t -> P s -> P (setWolves (moveWolves t (wolvesRef s)) s)) ->
  P st -> animate h config ctx now st k = Ok (fr, k') -> P (state fr).
Proof.
  intros Htimer Hphase Hmove HP Hfr.
  destruct (isRunning config) eqn:Hr; [destruct ctx|];
    [|rewrite gwo_animate_idle in Hfr by auto; by injection Hfr as <- <-..].
  unfold animate in Hfr. rewrite Hr in Hfr. cbn [negb] in Hfr.
  apply bind_M_inv in Hfr as (st1 & k1 & Hst1 & Hfr).
  injection Hfr as <- <-. cbn [state].
  assert (P st1) as HP1.
  { destruct (geb _ PHASE_DURATION).
    - eapply Hphase; [|exact Hst1]. by do 2 apply Htimer.
    - injection Hst1 as <- <-. by apply Htimer. }
  case_bool_decide; [|done].
  apply Hmove; [|done]. auto with finite.
Qed.

Lemma reachable_invariant h (P : State -> Prop) :
  (forall config k st k', mount h config k = Ok (st, k') -> P st) ->
  (forall config st k st' k',
     P st -> initialize h config (preyRef st) k = Ok (st', k') -> P st') ->
  (forall t s, P s -> P (setTimer t s)) ->
  (forall now s k s' k',
     finite now -> P s -> advancePhase h now s k = Ok (s', k') -> P s') ->
  (forall t s, finite t -> P s -> P (setWolves (moveWolves t (wolvesRef s)) s)) ->
  forall st, reachable h st -> P st.
Proof.
  intros Hmount Hinit Htimer Hphase Hmove st Hreach.
  induction Hreach as [config k st k' Hm
                      |config st k st' k' _ IH Hi
                      |config ctx now st k fr k' _ IH Hnow Hfr].
  - by eapply Hmount.
  - by eapply Hinit.
  - eapply animate_invariant; [exact Htimer| |exact Hmove|exact IH|exact Hfr].
    intros s k0 s' k0'. by apply Hphase.
Qed.

(** *** Well-formed states *)

(** *** The initialisation effect *)

Lemma initWolves_run h n k :
  (n < ARRAY_LENGTH_LIMIT)%Z ->
  initWolves h n k
  = foldlM (fun ws i => w ← initialWolf h i; mret (ws ++ [w]))
           [] (seq 0 (Z.to_nat n)) k.
Proof.
  intros Hn. unfold initWolves.
  destruct (Z.leb_spec ARRAY_LENGTH_LIMIT n); [lia|done].
Qed.

Lemma initWolves_inv h n k ws k' :
  initWolves h n k = Ok (ws, k') ->
  (n < ARRAY_LENGTH_LIMIT)%Z
  /\ foldlM (fun ws i => w ← initialWolf h i; mret (ws ++ [w]))
            [] (seq 0 (Z.to_nat n)) k = Ok (ws, k').
Proof.
  unfold initWolves. destruct (Z.leb_spec ARRAY_LENGTH_LIMIT n); [done|].
  by intros ->.
Qed.

Lemma initWolves_limit h n k :
  (ARRAY_LENGTH_LIMIT <= n)%Z -> initWolves h n k = Err RangeError.
Proof.
  intros Hn. unfold initWolves.
  destruct (Z.leb_spec ARRAY_LENGTH_LIMIT n); [done|lia].
Qed.

Lemma initialize_bound h config prey k st k' :
  initialize h config prey k = Ok (st, k') ->
  (populationSize config < ARRAY_LENGTH_LIMIT)%Z.
Proof.
  unfold initialize. intros Hi. apply bind_M_inv in Hi as (ws & k1 & Hws & _).
  by apply initWolves_inv in Hws as [? _].
Qed.

Section Invariant.
Context (h : Host) (Hrand : random_sound h) (Hsqrt : sqrt_sound h)
        (Htrig : trig_sound h).

Lemma random_finite k : finite (Math_random h k).
Proof. apply finite_unit, Hrand. Qed.
Hint Resolve random_finite : finite.

Lemma initialWolf_ok i k :
  exists w k', initialWolf h i k = Ok (w, k')
               /\ (wolfOk w /\ Wolf.type w = omega).
Proof.
  eexists _, _. split; [cbv [initialWolf mbind M_bind random mret M_ret]; reflexivity|].
  unfold wolfOk, CANVAS_SIZE. cbn. repeat split; auto with finite.
Qed.

Lemma initWolves_ok n k :
  (n < ARRAY_LENGTH_LIMIT)%Z ->
  exists ws k',
    initWolves h n k = Ok (ws, k')
    /\ length ws = Z.to_nat n
    /\ Forall (fun w => wolfOk w /\ Wolf.type w = omega) ws.
Proof.
  intros Hn. rewrite initWolves_run by done.
  destruct (foldlM_push (initialWolf h) (fun _ => True)
              (fun _ w => wolfOk w /\ Wolf.type w = omega)
              (seq 0 (Z.to_nat n))) with (bs := @nil Wolf.t) (k := k)
    as (ws & k' & Heq & Hall).
  { intros i k0 _. apply initialWolf_ok. }
  { by apply Forall_true. }
  exists ws, k'. split; [exact Heq|].
  split; [by rewrite <- (Forall2_length _ _ _ Hall), length_seq|].
  eapply Forall2_Forall_r; [exact Hall|]. by apply Forall_true.
Qed.

Lemma gwo_initialize_ok config prey k :
  (populationSize config < ARRAY_LENGTH_LIMIT)%Z ->
  finite (Point.x prey) -> finite (Point.y prey) ->
  exists st k',
    initialize h config prey k = Ok (st, k')
    /\ length (wolvesRef st) = Z.to_nat (populationSize config)
    /\ wellFormed st
    /\ Forall (fun w => Wolf.type w = omega) (wolvesRef st).
Proof.
  intros Hn Hx Hy. unfold initialize.
  destruct (initWolves_ok (populationSize config) k Hn)
    as (ws & k' & Heq & Hlen & Hall).
  rewrite (bind_M_ok _ _ _ _ _ Heq).
  eexists _, _. split; [reflexivity|]. split; [done|].
  split; [split; [|done]|]; cbn [wolvesRef];
    (eapply Forall_impl; [exact Hall|]); by intros w [? ?].
Qed.

Lemma computeDim_finite A cur a b d k :
  finite A -> finite cur -> finite a -> finite b -> finite d ->
  exists v, computeDim h A cur a b d k = Ok (v, 6 + k) /\ finite v.
Proof.
  intros. eexists.
  split; [cbv [computeDim mbind M_bind random mret M_ret]; reflexivity|].
  auto 20 with finite.
Qed.

Lemma clamp_finite v : finite v -> finite (clamp v).
Proof. intros. unfold clamp, CANVAS_SIZE. auto with finite. Qed.

Lemma retarget_ok it a b d w k :
  wolfOk a -> wolfOk b -> wolfOk d -> wolfOk w ->
  exists w' k', retarget h it a b d w k = Ok (w', k')
                /\ (retargeted w w' /\ wolfOk w').
Proof.
  intros (? & ? & _) (? & ? & _) (? & ? & _) (? & ? & ? & ? & ?).
  unfold retarget.
  set (A := sub (Fin 2) (mul (Fin 2) (div (of_nat it) (Fin 1000)))).
  assert (finite A) by (unfold A; auto with finite).
  destruct (computeDim_finite A (Wolf.x w) (Wolf.x a) (Wolf.x b) (Wolf.x d) k)
    as (tx & Htx & ?); try done.
  rewrite (bind_M_ok _ _ _ _ _ Htx).
  destruct (computeDim_finite A (Wolf.y w) (Wolf.y a) (Wolf.y b) (Wolf.y d) (6 + k))
    as (ty & Hty & ?); try done.
  rewrite (bind_M_ok _ _ _ _ _ Hty).
  eexists _, _. split; [reflexivity|]. split; [by eexists _, _|].
  unfold wolfOk. destruct w. cbn in *. repeat split; auto using clamp_finite.
Qed.

Lemma findType_elem ty ws i w :
  findType ty ws = Some (i, w) -> ws !! i = Some w /\ Wolf.type w = ty.
Proof.
  unfold findType. intros H. apply list_find_Some in H as (? & ? & _). done.
Qed.

Lemma calculate_ok it ws k :
  Forall wolfOk ws ->
  exists ws' k',
    calculate h it ws k = Ok (ws', k')
    /\ Forall2 retargeted ws ws'
    /\ Forall wolfOk ws'.
Proof.
  intros Hok. unfold calculate.
  assert (Forall2 retargeted ws ws) as Hrefl.
  { apply Forall2_same_length_lookup. split; [done|].
    intros i w w' H1 H2. simplify_eq. exists (Wolf.targetX w), (Wolf.targetY w).
    by destruct w. }
  destruct (findType alpha ws) as [[ia a]|] eqn:Ea; [|by exists ws, k].
  destruct (findType beta ws) as [[ib b]|] eqn:Eb; [|by exists ws, k].
  destruct (findType delta ws) as [[id d]|] eqn:Ed; [|by exists ws, k].
  rewrite Forall_forall in Hok.
  apply findType_elem in Ea as [Ha%list_elem_of_lookup_2 _].
  apply findType_elem in Eb as [Hb%list_elem_of_lookup_2 _].
  apply findType_elem in Ed as [Hd%list_elem_of_lookup_2 _].
  destruct (foldlM_push (retarget h it a b d) wolfOk
              (fun w w' => retargeted w w' /\ wolfOk w') ws)
    with (bs := @nil Wolf.t) (k := k) as (ws' & k' & Heq & Hall).
  { intros w k0 Hw. apply retarget_ok; auto. }
  { by apply Forall_forall. }
  exists ws', k'. split; [exact Heq|]. split.
  - eapply Forall2_impl; [exact Hall|]. by intros ? ? [? ?].
  - eapply Forall2_Forall_r; [exact Hall|]. apply Forall_true. by intros ? ? [? ?].
Qed.

Lemma wolfOk_setType ty w : wolfOk w -> wolfOk (Wolf.setType ty w).
Proof. by destruct w. Qed.

Lemma assign_Forall (P : Wolf.t -> Prop) sorted i ty ws :
  (forall w, P w -> P (Wolf.setType ty w)) ->
  Forall P ws -> Forall P (assign sorted i ty ws).
Proof.
  intros Hset Hall. unfold assign. case_match; [|done].
  apply Forall_alter; [done|]. intros w _. apply Hset.
Qed.

Lemma rank_Forall (P : Wolf.t -> Prop) ws :
  (forall ty w, ty <> delta -> P w -> P (Wolf.setType ty w)) ->
  (forall w, P w -> P (Wolf.setType delta w)) ->
  Forall P ws -> Forall P (rank ws).
Proof.
  intros Hset Hdelta Hall. unfold rank.
  apply assign_Forall; [done|].
  apply assign_Forall; [intros w; by apply Hset|].
  apply assign_Forall; [intros w; by apply Hset|].
  apply Forall_fmap. eapply Forall_impl; [exact Hall|].
  intros w. by apply Hset.
Qed.

Lemma gwo_distance_nonneg x1 y1 x2 y2 :
  finite x1 -> finite y1 -> finite x2 -> finite y2 ->
  nonneg_fin (distance h x1 y1 x2 y2).
Proof.
  intros. unfold distance. apply Hsqrt.
  apply nonneg_fin_add; apply square_nonneg; auto with finite.
Qed.

Lemma wellFormed_prey ws px py ph t it :
  Forall wolfOk ws -> finite px -> finite py ->
  wellFormed {| wolvesRef := ws; preyRef := Point.mk px py; phaseRef := ph;
                phaseTimerRef := t; iterationRef := it |}.
Proof. by repeat split. Qed.

Lemma advancePhase_wellFormed now st k st' k' :
  finite now -> wellFormed st ->
  advancePhase h now st k = Ok (st', k') -> wellFormed st'.
Proof.
  intros Hnow (Hws & Hpx & Hpy). unfold advancePhase.
  destruct (phaseRef st).
  - intros [= <- <-].
    assert (finite (mul now (Fin (5 # 10000)))) as Ht by auto with finite.
    destruct (Htrig _ Ht) as [Hc _].
    assert (finite (mul (mul now (Fin (5 # 10000))) (Fin 2))) as Ht2 by auto with finite.
    destruct (Htrig _ Ht2) as [_ Hs].
    pose proof (finite_mul _ (Fin 150) Hc I) as Hmc.
    pose proof (finite_mul _ (Fin 80) Hs I) as Hms.
    apply wellFormed_prey; [done|..].
    + by destruct (mul (Math_cos h _) (Fin 150)).
    + by destruct (mul (Math_sin h _) (Fin 80)).
  - intros [= <- <-]. split; [|done]. cbn [wolvesRef].
    apply Forall_fmap. eapply Forall_impl; [exact Hws|].
    intros w (? & ? & ? & ? & _). unfold wolfOk. destruct w; cbn in *.
    repeat split; try done.
    by apply nonneg_fin_defined, gwo_distance_nonneg.
  - intros [= <- <-]. split; [|done]. cbn [wolvesRef].
    apply rank_Forall; [by intros; apply wolfOk_setType..|done].
  - intros Hc. apply bind_M_inv in Hc as (ws' & k1 & Hcalc & Hc).
    injection Hc as <- <-. split; [|done]. cbn [wolvesRef].
    destruct (calculate_ok (iterationRef st) (wolvesRef st) k Hws)
      as (ws1 & k2 & Hcalc1 & _ & Hok).
    rewrite Hcalc in Hcalc1. by injection Hcalc1 as <- <-.
  - intros [= <- <-]. by split.
Qed.

Lemma lerp_finite a b t : finite a -> finite b -> finite t -> finite (lerp a b t).
Proof. intros. unfold lerp. auto with finite. Qed.

Lemma moveWolves_wellFormed t st :
  finite t -> wellFormed st ->
  wellFormed (setWolves (moveWolves t (wolvesRef st)) st).
Proof.
  intros Ht (Hws & Hp). split; [|done]. cbn [setWolves wolvesRef].
  unfold moveWolves. apply Forall_fmap. eapply Forall_impl; [exact Hws|].
  intros w (? & ? & ? & ? & ?). unfold wolfOk.
  cbn [Wolf.setPos Wolf.x Wolf.y Wolf.targetX Wolf.targetY Wolf.score].
  repeat split; try done; by apply lerp_finite.
Qed.

Lemma reachable_wellFormed st : reachable h st -> wellFormed st.
Proof.
  apply reachable_invariant.
  - intros config k st0 k' Hm. unfold mount in Hm.
    pose proof (initialize_bound _ _ _ _ _ _ Hm) as Hn.
    destruct (gwo_initialize_ok config
                (Point.mk (div CANVAS_SIZE (Fin 2)) (div CANVAS_SIZE (Fin 2))) k)
      as (st1 & k1 & Heq & _ & Hwf & _); [done..|].
    rewrite Hm in Heq. by injection Heq as <- <-.
  - intros config st0 k st' k' (_ & Hx & Hy) Hi.
    pose proof (initialize_bound _ _ _ _ _ _ Hi) as Hn.
    destruct (gwo_initialize_ok config (preyRef st0) k Hn Hx Hy)
      as (st1 & k1 & Heq & _ & Hwf & _).
    rewrite Hi in Heq. by injection Heq as <- <-.
  - intros t s Hs. exact Hs.
  - intros now s k s' k'. apply advancePhase_wellFormed.
  - apply moveWolves_wellFormed.
Qed.

End Invariant.

(** *** The rank postcondition *)

Lemma holds_lookup ty ws i :
  holds ty ws i <-> exists w, ws !! i = Some w /\ Wolf.type w = ty.
Proof.
  unfold holds. destruct (ws !! i) as [w|]; simpl; split.
  - intros [= <-]. eauto.
  - by intros (w' & [= <-] & ->).
  - done.
  - by intros (? & ? & _).
Qed.

Lemma scoreAt_rank wolves i : scoreAt (rank wolves) i = scoreAt wolves i.
Proof.
  unfold rank, assign, scoreAt.
  assert (forall ty j (ws : list Wolf.t) ,
            Wolf.score <$> alter (Wolf.setType ty) j ws !! i = Wolf.score <$> ws !! i)
    as Halter.
  { intros ty j ws. destruct (decide (j = i)) as [->|Hne].
    - rewrite list_lookup_alter_eq. by destruct (ws !! i) as [[]|].
    - by rewrite list_lookup_alter_ne. }
  repeat (case_match; rewrite ?Halter).
  all: rewrite list_lookup_fmap; by destruct (wolves !! i) as [[]|].
Qed.

Lemma frames_reachable h n config now st k st' k' :
  finite now -> reachable h st ->
  frames h n config now st k = Ok (st', k') -> reachable h st'.
Proof.
  intros Hnow. revert st k. induction n as [|n IH]; intros st k Hreach; cbn [frames].
  - by intros [= <- <-].
  - intros Hrun. apply bind_M_inv in Hrun as (fr & k1 & Hfr & Hrun).
    eapply IH; [|exact Hrun]. by eapply reachable_frame.
Qed.

Lemma exampleGwoState_reachable n m : reachable exampleHost (exampleGwoState n m).
Proof.
  unfold exampleGwoState.
  destruct (mount exampleHost (fastConfig n) 0) as [[st k]|e] eqn:Em.
  - pose proof (reachable_mount _ _ _ _ _ Em) as Hst.
    destruct (frames exampleHost m (fastConfig n) zero st k) as [[st' k']|e] eqn:Ef;
      [|done].
    eapply frames_reachable; [|exact Hst|exact Ef]. done.
  - by apply (reachable_mount exampleHost (fastConfig 0) 0 emptyGwoState 0).
Qed.

(** C2.  In every state that the engine reaches (so the scores are numbers)
    with at least three wolves, the RANK transition leaves exactly one wolf
    [a] with rank alpha, exactly one wolf [b] with rank beta, exactly one wolf
    [d] with rank delta, all three different, every other wolf omega, and the
    scores ordered: score a <= score b <= score d <= score w for every omega
    wolf [w]. *)
Theorem gwo_rank_postcondition h now st k :
  random_sound h -> sqrt_sound h -> trig_sound h ->
  reachable h st -> phaseRef st = RANK -> 3 <= length (wolvesRef st) ->
  exists st',
    advancePhase h now st k = Ok (st', k)
    /\ phaseRef st' = CALCULATE
    /\ length (wolvesRef st') = length (wolvesRef st)
    /\ exists a b d,
         a <> b /\ a <> d /\ b <> d
         /\ (forall i, holds alpha (wolvesRef st') i <-> i = a)
         /\ (forall i, holds beta (wolvesRef st') i <-> i = b)
         /\ (forall i, holds delta (wolvesRef st') i <-> i = d)
         /\ (forall i, i < length (wolvesRef st') ->
               i <> a -> i <> b -> i <> d -> holds omega (wolvesRef st') i)
         /\ leb (scoreAt (wolvesRef st') a) (scoreAt (wolvesRef st') b) = true
         /\ leb (scoreAt (wolvesRef st') b) (scoreAt (wolvesRef st') d) = true
         /\ (forall i, holds omega (wolvesRef st') i ->
               leb (scoreAt (wolvesRef st') d) (scoreAt (wolvesRef st') i) = true).
Proof.
  intros Hrand Hsqrt Htrig Hreach Hphase Hn.
  destruct (reachable_wellFormed h Hrand Hsqrt Htrig st Hreach) as (Hok & _).
  unfold advancePhase. rewrite Hphase. eexists. split; [reflexivity|].
  cbn [phaseRef wolvesRef]. split; [done|]. split; [apply rank_length|].
  destruct (rank_spec (wolvesRef st) Hn) as
    (a & b & d & Hab & Had & Hbd & Ha & Hb & Hd & Hlook & Hsab & Hsbd & Hrest).
  { eapply Forall_impl; [exact Hok|]. by intros w (_ & _ & _ & _ & ?). }
  set (ws := wolvesRef st) in *.
  assert (forall i ty, holds ty (rank ws) i <->
            i < length ws /\
            (if decide (i = a) then alpha else if decide (i = b) then beta
             else if decide (i = d) then delta else omega) = ty) as Hholds.
  { intros i ty. rewrite holds_lookup. split.
    - intros (w' & Hw' & Hty).
      assert (i < length ws) as Hi
        by (rewrite <- (rank_length ws); by eapply lookup_lt_Some).
      destruct (lookup_lt_is_Some_2 ws i Hi) as [w Hw].
      rewrite (Hlook i w Hw) in Hw'. injection Hw' as <-. split; [done|].
      by destruct w.
    - intros [Hi Hty]. destruct (lookup_lt_is_Some_2 ws i Hi) as [w Hw].
      eexists. split; [by apply Hlook|]. by destruct w. }
  exists a, b, d. repeat (split; [done|]).
  rewrite !scoreAt_rank.
  split; [|split; [|split; [|split; [|split; [done|split; [done|]]]]]].
  - intros i. rewrite Hholds. split.
    + intros [_ Hty]. repeat case_decide; done.
    + intros ->. split; [done|]. by rewrite decide_True.
  - intros i. rewrite Hholds. split.
    + intros [_ Hty]. repeat case_decide; done.
    + intros ->. split; [done|]. rewrite decide_False by done. by rewrite decide_True.
  - intros i. rewrite Hholds. split.
    + intros [_ Hty]. repeat case_decide; done.
    + intros ->. split; [done|]. rewrite !decide_False by done. by rewrite decide_True.
  - intros i Hi Hia Hib Hid. apply Hholds. rewrite rank_length in Hi.
    split; [done|]. by rewrite !decide_False.
  - intros i Hi. rewrite scoreAt_rank. apply Hholds in Hi as [Hi Hty].
    apply Hrest; [done|..]; intros ->; repeat case_decide; done.
Qed.

Lemma gwo_rank_postcondition_witness :
  random_sound exampleHost /\ sqrt_sound exampleHost /\ trig_sound exampleHost
  /\ reachable exampleHost (exampleGwoState 5 150)
  /\ phaseRef (exampleGwoState 5 150) = RANK
  /\ 3 <= length (wolvesRef (exampleGwoState 5 150))
  /\ exists st',
       advancePhase exampleHost zero (exampleGwoState 5 150) 20 = Ok (st', 20)
       /\ phaseRef st' = CALCULATE.
Proof.
  split; [apply exampleHost_random|]. split; [apply exampleHost_sqrt|].
  split; [apply exampleHost_trig|]. split; [apply exampleGwoState_reachable|].
  split; [by vm_compute|]. split; [vm_compute; lia|].
  destruct (gwo_rank_postcondition exampleHost zero (exampleGwoState 5 150) 20
              exampleHost_random exampleHost_sqrt exampleHost_trig
              (exampleGwoState_reachable 5 150))
    as (st' & Hst' & Hph & _); [by vm_compute | vm_compute; lia |].
  exists st'. by split.
Defined.

(** *** Packs without a leader *)

Lemma retarget_total h it a b d w k :
  exists w' k', retarget h it a b d w k = Ok (w', k') /\ retargeted w w'.
Proof.
  eexists _, _.
  split; [cbv [retarget computeDim mbind M_bind random mret M_ret]; reflexivity|].
  by eexists _, _.
Qed.

Lemma retargeted_refl ws : Forall2 retargeted ws ws.
Proof.
  apply Forall2_same_length_lookup. split; [done|].
  intros i w w' H1 H2. simplify_eq.
  exists (Wolf.targetX w), (Wolf.targetY w). by destruct w.
Qed.

Lemma calculate_total h it ws k :
  exists ws' k', calculate h it ws k = Ok (ws', k') /\ Forall2 retargeted ws ws'.
Proof.
  unfold calculate.
  destruct (findType alpha ws) as [[ia a]|];
    [|exists ws, k; split; [done | apply retargeted_refl]].
  destruct (findType beta ws) as [[ib b]|];
    [|exists ws, k; split; [done | apply retargeted_refl]].
  destruct (findType delta ws) as [[id d]|];
    [|exists ws, k; split; [done | apply retargeted_refl]].
  destruct (foldlM_push (retarget h it a b d) (fun _ => True) retargeted ws)
    with (bs := @nil Wolf.t) (k := k) as (ws' & k' & Heq & Hall).
  { intros w k0 _. apply retarget_total. }
  { by apply Forall_true. }
  by exists ws', k'.
Qed.

Lemma rank_small ws : length ws < 3 -> noDelta (rank ws).
Proof.
  intros Hlen. unfold rank.
  set (sorted := sort _ _).
  assert (sorted !! 2 = None) as Hnone.
  { apply lookup_ge_None. unfold sorted. rewrite sort_length, length_seq. lia. }
  unfold assign at 1. rewrite Hnone.
  apply assign_Forall; [by destruct w|].
  apply assign_Forall; [by destruct w|].
  apply Forall_fmap, Forall_true. by intros [].
Qed.

Lemma noDelta_retargeted ws ws' :
  Forall2 retargeted ws ws' -> noDelta ws -> noDelta ws'.
Proof.
  intros Hall Hnd. unfold noDelta in *. rewrite Forall_forall in Hnd.
  apply Forall_forall. intros w' Hw'.
  apply list_elem_of_lookup in Hw' as [i Hi].
  destruct (Forall2_lookup_r _ _ _ _ _ Hall Hi) as (w & Hw & tx & ty & ->).
  destruct w. cbn. apply (Hnd _ (list_elem_of_lookup_2 _ _ _ Hw)).
Qed.

(** With fewer than three wolves no wolf is ever delta. *)
Lemma reachable_small h st :
  reachable h st -> length (wolvesRef st) < 3 -> noDelta (wolvesRef st).
Proof.
  revert st.
  apply (reachable_invariant h
           (fun st => length (wolvesRef st) < 3 -> noDelta (wolvesRef st))).
  - intros config k st k' Hm _. unfold mount, initialize in Hm.
    apply bind_M_inv in Hm as (ws & k1 & Hws & Hm). injection Hm as <- <-.
    cbn [wolvesRef]. apply initWolves_inv in Hws as [_ Hws].
    destruct (foldlM_push (initialWolf h) (fun _ => True)
                (fun _ w => Wolf.type w <> delta)
                (seq 0 (Z.to_nat (populationSize config))))
      with (bs := @nil Wolf.t) (k := k) as (ws' & k2 & Heq & Hall).
    { intros i k0 _. eexists _, _.
      split; [cbv [initialWolf mbind M_bind random mret M_ret]; reflexivity|done]. }
    { by apply Forall_true. }
    rewrite Hws in Heq. injection Heq as -> ->.
    eapply Forall2_Forall_r; [exact Hall|]. by apply Forall_true.
  - intros config st k st' k' _ Hi _. unfold initialize in Hi.
    apply bind_M_inv in Hi as (ws & k1 & Hws & Hi). injection Hi as <- <-.
    cbn [wolvesRef]. apply initWolves_inv in Hws as [_ Hws].
    destruct (foldlM_push (initialWolf h) (fun _ => True)
                (fun _ w => Wolf.type w <> delta)
                (seq 0 (Z.to_nat (populationSize config))))
      with (bs := @nil Wolf.t) (k := k) as (ws' & k2 & Heq & Hall).
    { intros i k0 _. eexists _, _.
      split; [cbv [initialWolf mbind M_bind random mret M_ret]; reflexivity|done]. }
    { by apply Forall_true. }
    rewrite Hws in Heq. injection Heq as -> ->.
    eapply Forall2_Forall_r; [exact Hall|]. by apply Forall_true.
  - intros t s Hs. exact Hs.
  - intros now s k s' k' _ Hs. unfold advancePhase. destruct (phaseRef s).
    + intros [= <- <-]. exact Hs.
    + intros [= <- <-]. cbn [wolvesRef]. rewrite length_fmap. intros Hlen.
      apply Forall_fmap. eapply Forall_impl; [exact (Hs Hlen)|]. by intros [].
    + intros [= <- <-]. cbn [wolvesRef]. rewrite rank_length. apply rank_small.
    + intros Hc. apply bind_M_inv in Hc as (ws' & k1 & Hcalc & Hc).
      injection Hc as <- <-. cbn [wolvesRef].
      destruct (calculate_total h (iterationRef s) (wolvesRef s) k)
        as (ws1 & k2 & Hcalc1 & Hall).
      rewrite Hcalc in Hcalc1. injection Hcalc1 as <- <-.
      rewrite <- (Forall2_length _ _ _ Hall). intros Hlen.
      eapply noDelta_retargeted; [exact Hall | by apply Hs].
    + intros [= <- <-]. exact Hs.
  - intros t s _ Hs. cbn [setWolves wolvesRef]. unfold moveWolves.
    rewrite length_fmap. intros Hlen.
    apply Forall_fmap. eapply Forall_impl; [exact (Hs Hlen)|]. by intros [].
Qed.

Lemma findType_None ty ws :
  Forall (fun w => Wolf.type w <> ty) ws -> findType ty ws = None.
Proof.
  intros Hall. unfold findType. apply list_find_None.
  eapply Forall_impl; [exact Hall|]. done.
Qed.

(** C10.  When alpha, beta or delta is unassigned at the CALCULATE transition,
    as it is in every reachable state of a pack of fewer than three wolves,
    the transition leaves the array of wolves, and with it every target
    position, as it was, and draws no random number; only the phase changes. *)
Theorem gwo_calculate_skipped h now st k :
  phaseRef st = CALCULATE ->
  findType alpha (wolvesRef st) = None
  \/ findType beta (wolvesRef st) = None
  \/ findType delta (wolvesRef st) = None
  \/ (reachable h st /\ length (wolvesRef st) < 3) ->
  exists st',
    advancePhase h now st k = Ok (st', k)
    /\ wolvesRef st' = wolvesRef st
    /\ phaseRef st' = MOVE_WOLVES.
Proof.
  intros Hphase Hmissing.
  assert (calculate h (iterationRef st) (wolvesRef st) k = Ok (wolvesRef st, k))
    as Hcalc.
  { unfold calculate.
    destruct Hmissing as [-> | [Hb | [Hd | [Hreach Hlen]]]]; [done|..].
    - rewrite Hb. by case_match; [case_match|].
    - rewrite Hd. by repeat case_match.
    - rewrite (findType_None delta (wolvesRef st)) by by apply (reachable_small h).
      by repeat case_match. }
  unfold advancePhase. rewrite Hphase.
  rewrite (bind_M_ok _ _ _ _ _ Hcalc). eexists. by repeat split.
Qed.

Lemma gwo_calculate_skipped_witness :
  phaseRef (exampleGwoState 2 300) = CALCULATE
  /\ reachable exampleHost (exampleGwoState 2 300)
  /\ length (wolvesRef (exampleGwoState 2 300)) < 3
  /\ exists st',
       advancePhase exampleHost zero (exampleGwoState 2 300) 8 = Ok (st', 8)
       /\ wolvesRef st' = wolvesRef (exampleGwoState 2 300)
       /\ phaseRef st' = MOVE_WOLVES.
Proof.
  split; [by vm_compute|]. split; [apply exampleGwoState_reachable|].
  split; [vm_compute; lia|].
  apply (gwo_calculate_skipped exampleHost zero (exampleGwoState 2 300) 8);
    [by vm_compute|].
  right. right. right. split; [apply exampleGwoState_reachable | vm_compute; lia].
Defined.

(** *** The random draws of [computeDim] *)

Lemma withDraw_other h j v k : k <> j -> Math_random (withDraw h j v) k = Math_random h k.
Proof. intros Hne. cbn. by rewrite decide_False. Qed.

(** C8, as the code has it.  [computeDim] makes six draws, but its result
    does not depend on the fifth: whatever value replaces it, the result is
    the same, because the delta coefficient [A3] is computed from the third
    draw, the one of the beta term.  With the draws of the example host the
    result differs from the one of the update rule that forms [A3] from the
    fifth draw. *)
Theorem gwo_computeDim_ignores_fifth_draw :
  (forall h A current alphaPos betaPos deltaPos k v,
     computeDim (withDraw h (4 + k) v) A current alphaPos betaPos deltaPos k
     = computeDim h A current alphaPos betaPos deltaPos k)
  /\ computeDim exampleHost (Fin 2) zero (Fin 100) (Fin 100) (Fin 100) 0
     = Ok (Fin (73710700 # 352947), 6)
  /\ computeDimSpec exampleHost (Fin 2) zero (Fin 100) (Fin 100) (Fin 100) 0
     = Ok (Fin (50661100 # 352947), 6)
  /\ computeDim exampleHost (Fin 2) zero (Fin 100) (Fin 100) (Fin 100) 0
     <> computeDimSpec exampleHost (Fin 2) zero (Fin 100) (Fin 100) (Fin 100) 0.
Proof.
  split; [|split; [by vm_compute|split; [by vm_compute|by vm_compute]]].
  intros h A current alphaPos betaPos deltaPos k v.
  cbv [computeDim mbind M_bind random mret M_ret].
  rewrite !withDraw_other by lia. reflexivity.
Qed.

End GwoTheory.

(** ** Bees engine *)

Module BeesTheory.
Import Bees.

Lemma scout_run h k :
  scout h k
  = Ok (Point.mk (mul (Math_random h k) Bees.CANVAS_SIZE)
                 (mul (Math_random h (S k)) Bees.CANVAS_SIZE), S (S k)).
Proof. reflexivity. Qed.

Lemma scouting_ok h (l : list nat) bs k :
  exists cs k',
    foldlM (fun bs (_ : nat) => b ← scout h; mret (bs ++ [b])) bs l k
    = Ok (bs ++ cs, k')
    /\ length cs = length l.
Proof.
  destruct (foldlM_push (fun _ : nat => scout h) (fun _ => True) (fun _ _ => True) l)
    with (bs := bs) (k := k) as (cs & k' & Heq & Hall).
  { intros _ k0 _. rewrite scout_run. by eexists _, _. }
  { by apply Forall_true. }
  exists cs, k'. split; [exact Heq|]. symmetry. by eapply Forall2_length.
Qed.

Lemma bees_initialize_ok h config k :
  (0 <= populationSize config < ARRAY_LENGTH_LIMIT)%Z ->
  exists st k',
    initialize h config k = Ok (st, k')
    /\ length (beesRef st) = Z.to_nat (populationSize config)
    /\ bestRef st = zero /\ iterationRef st = 0.
Proof.
  intros Hn. unfold initialize.
  destruct (Z.ltb_spec (populationSize config) 0); [lia|].
  destruct (Z.leb_spec ARRAY_LENGTH_LIMIT (populationSize config)); [lia|].
  cbn [orb].
  destruct (scouting_ok h (seq 0 (Z.to_nat (populationSize config))) [] k)
    as (bs & k' & Heq & Hlen).
  rewrite (bind_M_ok _ _ _ _ _ Heq).
  eexists _, _. split; [reflexivity|]. cbn. by rewrite Hlen, length_seq.
Qed.

Lemma bees_initialize_range h config k :
  (populationSize config < 0)%Z \/ (ARRAY_LENGTH_LIMIT <= populationSize config)%Z ->
  initialize h config k = Err RangeError.
Proof.
  intros Hn. unfold initialize.
  destruct (Z.ltb_spec (populationSize config) 0);
    destruct (Z.leb_spec ARRAY_LENGTH_LIMIT (populationSize config));
    try reflexivity; lia.
Qed.

(** What an initialisation that succeeds has built. *)
Lemma bees_initialize_inv h config k st k' :
  initialize h config k = Ok (st, k') ->
  (0 <= populationSize config < ARRAY_LENGTH_LIMIT)%Z
  /\ length (beesRef st) = Z.to_nat (populationSize config)
  /\ bestRef st = zero /\ iterationRef st = 0.
Proof.
  intros Hi.
  assert (0 <= populationSize config < ARRAY_LENGTH_LIMIT)%Z as Hn.
  { destruct (Z.ltb_spec (populationSize config) 0);
      [rewrite bees_initialize_range in Hi by lia; discriminate|].
    destruct (Z.leb_spec ARRAY_LENGTH_LIMIT (populationSize config));
      [rewrite bees_initialize_range in Hi by lia; discriminate|]. lia. }
  split; [exact Hn|].
  destruct (bees_initialize_ok h config k Hn) as (st1 & k1 & Heq & Hrest).
  rewrite Hi in Heq. by injection Heq as <- <-.
Qed.

Lemma neighbor_run h width s k :
  exists p, neighbor h width s k = Ok (p, S (S k)).
Proof.
  eexists. cbv [neighbor mbind M_bind random mret M_ret]. reflexivity.
Qed.

Lemma floorOf_le n ratio :
  (0 <= n)%Z -> (0 <= ratio <= 1)%Q -> (0 <= floorOf n ratio <= n)%Z.
Proof.
  intros Hn [H0 H1]. unfold floorOf.
  assert (0 <= inject_Z n)%Q as HnQ by (change 0%Q with (inject_Z 0); by rewrite <- Zle_Qle).
  split.
  - change 0%Z with (Qfloor 0). apply Qfloor_resp_le. by apply Qmult_le_0_compat.
  - rewrite <- (Qfloor_Z n) at 2. apply Qfloor_resp_le. nra.
Qed.

Lemma eliteSites_ok h scoredBees eliteCount newBees k :
  Z.to_nat eliteCount <= length scoredBees ->
  exists newBees' k', eliteSites h scoredBees eliteCount newBees k = Ok (newBees', k').
Proof.
  intros Hlen. unfold eliteSites.
  destruct (foldlM_M_inv (fun _ => True)
              (fun newBees i =>
                 s ← pure (defined (scoredBees !! i));
                 let newBees := newBees ++ [Point.mk (Point.x (pos s)) (Point.y (pos s))] in
                 n ← neighbor h (Fin 20) s;
                 mret (newBees ++ [n]))
              (seq 0 (Z.to_nat eliteCount))) with (s := newBees) (k := k)
    as (bs & k' & Heq & _); [|done|by eexists _, _].
  intros bs i k0 _ Hi. apply elem_of_seq in Hi.
  destruct (lookup_lt_is_Some_2 scoredBees i) as [s Hs]; [lia|].
  rewrite Hs. rewrite (bind_M_ok (pure (defined (Some s))) _ k0 s k0 (pure_ok _ _ _ eq_refl)). cbv zeta.
  destruct (neighbor_run h (Fin 20) s k0) as [p Hp].
  rewrite (bind_M_ok _ _ _ _ _ Hp). by eexists _, _.
Qed.

Lemma otherSites_ok h config scoredBees eliteCount bestCount newBees k :
  Z.to_nat bestCount <= length scoredBees ->
  exists newBees' k',
    otherSites h config scoredBees eliteCount bestCount newBees k = Ok (newBees', k').
Proof.
  intros Hlen. unfold otherSites.
  destruct (foldlM_M_inv (fun _ => True)
              (fun newBees i =>
                 if (Z.of_nat (length newBees) <? populationSize config)%Z then
                   s ← pure (defined (scoredBees !! i));
                   n ← neighbor h (Fin 50) s;
                   mret (newBees ++ [n])
                 else mret newBees)
              (seq (Z.to_nat eliteCount) (Z.to_nat bestCount - Z.to_nat eliteCount)))
    with (s := newBees) (k := k) as (bs & k' & Heq & _); [|done|by eexists _, _].
  intros bs i k0 _ Hi. apply elem_of_seq in Hi.
  destruct (Z.of_nat (length bs) <? populationSize config)%Z; [|by eexists _, _].
  destruct (lookup_lt_is_Some_2 scoredBees i) as [s Hs]; [lia|].
  rewrite Hs. rewrite (bind_M_ok (pure (defined (Some s))) _ k0 s k0 (pure_ok _ _ _ eq_refl)).
  destruct (neighbor_run h (Fin 50) s k0) as [p Hp].
  rewrite (bind_M_ok _ _ _ _ _ Hp). by eexists _, _.
Qed.

Lemma scouts_ok h config newBees k :
  exists newBees' k',
    scouts h config newBees k = Ok (newBees', k')
    /\ Z.to_nat (populationSize config) <= length newBees'.
Proof.
  unfold scouts.
  destruct (scouting_ok h
              (seq 0 (Z.to_nat (populationSize config - Z.of_nat (length newBees))))
              newBees k) as (cs & k' & Heq & Hlen).
  exists (newBees ++ cs), k'. split; [exact Heq|].
  rewrite length_app, Hlen, length_seq. lia.
Qed.

Lemma slice0_length {A} (l : list A) n :
  (0 <= n)%Z -> Z.to_nat n <= length l -> length (slice0 l n) = Z.to_nat n.
Proof.
  intros Hn Hlen. unfold slice0. destruct (Z.ltb_spec n 0); [lia|].
  rewrite length_take. lia.
Qed.

Lemma bees_animate_idle h config st k :
  isRunning config = false ->
  animate h config false st k = Ok ({| state := st; stats := None |}, k)
  /\ forall ctx, animate h config ctx st k = Ok ({| state := st; stats := None |}, k).
Proof. intros Hr. unfold animate. by rewrite Hr. Qed.

(** One frame of a closure with the population size [populationSize config]
    on bees that may be of another number: it returns when there is a bee
    and there are as many bees as the sites it reads, and then leaves as many
    bees as its own [config] says. *)
Lemma bees_frame_sites h config ctx st k :
  (1 <= populationSize config)%Z ->
  1 <= length (beesRef st) ->
  Z.to_nat (floorOf (populationSize config) (5 # 10)) <= length (beesRef st) ->
  exists fr k',
    animate h config ctx st k = Ok (fr, k')
    /\ (isRunning config = true -> ctx = true ->
        length (beesRef (state fr)) = Z.to_nat (populationSize config))
    /\ (isRunning config = true ->
        iterationRef (state fr) = S (iterationRef st)).
Proof.
  intros Hn Hlen1 Hlen. unfold animate.
  destruct (isRunning config); cbn [negb]; [|by eexists _, _].
  destruct ctx; cbn [negb]; [|by eexists _, _].
  cbn [setIteration beesRef bestRef iterationRef].
  set (scoredBees := sort _ _).
  assert (length scoredBees = length (beesRef st)) as Hscored
    by (unfold scoredBees; by rewrite sort_length, length_fmap).
  destruct (lookup_lt_is_Some_2 scoredBees 0) as [top Htop]; [lia|].
  rewrite (bind_M_ok _ _ k top k) by (by rewrite Htop). cbv zeta.
  assert (0 <= floorOf (populationSize config) (2 # 10))%Z as He
    by (apply floorOf_le; [lia|split; by compute]).
  assert (floorOf (populationSize config) (2 # 10)
          <= floorOf (populationSize config) (5 # 10))%Z as Heb.
  { unfold floorOf. apply Qfloor_resp_le.
    assert (0 <= inject_Z (populationSize config))%Q as HnQ
      by (change 0%Q with (inject_Z 0); rewrite <- Zle_Qle; lia).
    nra. }
  destruct (eliteSites_ok h scoredBees (floorOf (populationSize config) (2 # 10)) [] k)
    as (bs1 & k1 & H1).
  { rewrite Hscored. lia. }
  rewrite (bind_M_ok _ _ _ _ _ H1).
  destruct (otherSites_ok h config scoredBees
              (floorOf (populationSize config) (2 # 10))
              (floorOf (populationSize config) (5 # 10)) bs1 k1) as (bs2 & k2 & H2).
  { by rewrite Hscored. }
  rewrite (bind_M_ok _ _ _ _ _ H2).
  destruct (scouts_ok h config bs2 k2) as (bs3 & k3 & H3 & Hlen3).
  rewrite (bind_M_ok _ _ _ _ _ H3).
  eexists _, _. split; [reflexivity|]. cbn [state beesRef iterationRef].
  split; [|done]. intros _ _. apply slice0_length; [lia|done].
Qed.

(** One frame on a population of the configured size. *)
Lemma bees_frame h config ctx st k :
  (1 <= populationSize config)%Z ->
  length (beesRef st) = Z.to_nat (populationSize config) ->
  exists fr k',
    animate h config ctx st k = Ok (fr, k')
    /\ length (beesRef (state fr)) = Z.to_nat (populationSize config).
Proof.
  intros Hn Hlen.
  destruct (bees_frame_sites h config ctx st k) as (fr & k' & Heq & Hl & _);
    [done | lia | |].
  { rewrite Hlen. apply Z2Nat.inj_le; try lia;
      apply (floorOf_le (populationSize config) (5 # 10)); try lia; split; by compute. }
  exists fr, k'. split; [exact Heq|].
  unfold animate in Heq.
  destruct (isRunning config); cbn [negb] in Heq;
    [|injection Heq as <- <-; exact Hlen].
  destruct ctx; cbn [negb] in Heq; [by apply Hl|].
  injection Heq as <- <-. exact Hlen.
Qed.

(** A frame whose closure has read a population size with more elite sites
    than there are bees throws: it reads a site that is not there. *)
Lemma eliteSites_throws h scoredBees eliteCount newBees k :
  length scoredBees < Z.to_nat eliteCount ->
  eliteSites h scoredBees eliteCount newBees k = Err TypeError.
Proof.
  intros Hlen. unfold eliteSites.
  replace (Z.to_nat eliteCount)
    with (length scoredBees + S (Z.to_nat eliteCount - S (length scoredBees)))
    by lia.
  rewrite seq_app, foldlM_M_app.
  destruct (eliteSites_ok h scoredBees (Z.of_nat (length scoredBees)) newBees k)
    as (bs & k' & Heq); [lia|].
  unfold eliteSites in Heq. rewrite Nat2Z.id in Heq. rewrite Heq.
  cbn [foldlM seq Nat.add].
  apply bind_M_err, bind_M_err.
  by rewrite (lookup_ge_None_2 scoredBees (length scoredBees)).
Qed.

Lemma frame_throws h config st k :
  isRunning config = true ->
  length (beesRef st) < Z.to_nat (floorOf (populationSize config) (2 # 10)) ->
  animate h config true st k = Err TypeError.
Proof.
  intros Hr Hlen. unfold animate. rewrite Hr. cbn [negb].
  cbn [setIteration beesRef bestRef iterationRef].
  set (scoredBees := sort _ _).
  assert (length scoredBees = length (beesRef st)) as Hscored
    by (unfold scoredBees; by rewrite sort_length, length_fmap).
  destruct (scoredBees !! 0) as [top|] eqn:Htop; [|by apply bind_M_err].
  rewrite (bind_M_ok _ _ k top k) by done. cbv zeta.
  apply bind_M_err, eliteSites_throws. by rewrite Hscored.
Qed.

(** The refs that a throwing frame leaves are a state of the relation,
    whatever made the frame throw: some closure throws on every state. *)
Lemma thrown_reachable h st : reachable h st -> reachable h (thrown h st).
Proof.
  intros Hreach.
  apply (reachable_thrown h
           {| populationSize := 5 * (Z.of_nat (length (beesRef st)) + 1);
              speed := 0; isRunning := true |} true st 0 TypeError Hreach).
  apply frame_throws; [done|]. cbn [populationSize]. unfold floorOf.
  set (z := (Z.of_nat (length (beesRef st)) + 1)%Z).
  assert (inject_Z (5 * z) * (2 # 10) == inject_Z z)%Q as ->
    by (unfold Qeq, Qmult, inject_Z; simpl; lia).
  rewrite Qfloor_Z. lia.
Qed.

Lemma exampleBeesState_reachable n :
  (0 <= n < ARRAY_LENGTH_LIMIT)%Z -> reachable exampleHost (exampleBeesState n).
Proof.
  intros Hn. unfold exampleBeesState.
  destruct (bees_initialize_ok exampleHost (exampleConfig n) 0 Hn) as (st & k & Hi & _).
  rewrite Hi.
  assert (reachable exampleHost st) as Hst
    by (by eapply (reachable_initialize exampleHost (exampleConfig n))).
  destruct (animate exampleHost (exampleConfig n) true st k) as [[fr k']|e] eqn:Ef;
    [|done].
  by eapply (reachable_frame exampleHost (exampleConfig n)).
Qed.

Lemma staleBeesState_reachable : reachable exampleHost staleBeesState.
Proof.
  unfold staleBeesState.
  destruct (bees_initialize_ok exampleHost (exampleConfig 10) 60)
    as (st & k & Hi & _); [by compute|].
  rewrite Hi.
  assert (reachable exampleHost st) as Hst
    by (by eapply (reachable_initialize exampleHost (exampleConfig 10))).
  destruct (animate exampleHost (exampleConfig 30) true st k) as [[fr k']|e] eqn:Ef.
  - by eapply (reachable_frame exampleHost (exampleConfig 30)).
  - by eapply (reachable_thrown exampleHost (exampleConfig 30)).
Qed.

End BeesTheory.

(** ** All engines *)

(** While the [isRunning] that a closure has read is false, a frame of it
    returns the engine state it was given, unchanged in every field, reports
    no statistics and draws no random number. *)
Lemma paused_closure_is_noop h config ctx now cities
    (aco : Aco.State) (gwo : Gwo.State) (bees : Bees.State) k :
  isRunning config = false ->
  Aco.animate h config ctx cities aco k
  = Ok ({| Aco.state := aco; Aco.stats := None; Aco.currentAntsPaths := [] |}, k)
  /\ Gwo.animate h config ctx now gwo k
     = Ok ({| Gwo.state := gwo; Gwo.stats := None |}, k)
  /\ Bees.animate h config ctx bees k
     = Ok ({| Bees.state := bees; Bees.stats := None |}, k).
Proof.
  intros Hpaused. unfold Aco.animate, Gwo.animate, Bees.animate.
  rewrite Hpaused. by repeat split.
Qed.

(** C9, as the code has it.  Initialisation validates nothing.  For every
    population size below three the grey wolf engine initialises, with as
    many wolves as the size says and none for a size below one, all of them
    omega.  For size zero the bees engine initialises, with no bees; for a
    negative size the array constructor throws a RangeError. *)
Theorem initialization_never_validates h config k :
  (populationSize config < 3)%Z ->
  (exists st k',
     Gwo.mount h config k = Ok (st, k')
     /\ length (Gwo.wolvesRef st) = Z.to_nat (populationSize config)
     /\ Forall (fun w => Gwo.Wolf.type w = Gwo.omega) (Gwo.wolvesRef st))
  /\ ((populationSize config < 1)%Z ->
      Bees.initialize h config k
      = (if (populationSize config <? 0)%Z then Err RangeError
         else Ok ({| Bees.beesRef := []; Bees.bestRef := zero;
                     Bees.iterationRef := 0 |}, k))).
Proof.
  intros Hn. split.
  - unfold Gwo.mount, Gwo.initialize, Gwo.initWolves.
    destruct (Z.leb_spec ARRAY_LENGTH_LIMIT (populationSize config));
      [unfold ARRAY_LENGTH_LIMIT in *; lia|].
    destruct (foldlM_push (Gwo.initialWolf h) (fun _ => True)
                (fun _ w => Gwo.Wolf.type w = Gwo.omega)
                (seq 0 (Z.to_nat (populationSize config))))
      with (bs := @nil Gwo.Wolf.t) (k := k) as (ws & k' & Heq & Hall).
    { intros i k0 _. eexists _, _.
      split; [cbv [Gwo.initialWolf mbind M_bind random mret M_ret]; reflexivity|done]. }
    { by apply Forall_true. }
    rewrite (bind_M_ok _ _ _ _ _ Heq). eexists _, _. split; [reflexivity|].
    cbn [Gwo.wolvesRef app]. split.
    + by rewrite <- (Forall2_length _ _ _ Hall), length_seq.
    + eapply Forall2_Forall_r; [exact Hall|]. by apply Forall_true.
  - intros Hn1. destruct (Z.ltb_spec (populationSize config) 0) as [Hneg|Hpos].
    + apply BeesTheory.bees_initialize_range. by left.
    + assert (populationSize config = 0)%Z as H0 by lia.
      unfold Bees.initialize. rewrite H0. reflexivity.
Qed.

Lemma initialization_never_validates_witness :
  (populationSize (exampleConfig 2) < 3)%Z
  /\ exists st k',
       Gwo.mount exampleHost (exampleConfig 2) 0 = Ok (st, k')
       /\ length (Gwo.wolvesRef st) = 2
       /\ Forall (fun w => Gwo.Wolf.type w = Gwo.omega) (Gwo.wolvesRef st).
Proof.
  split; [simpl; lia|].
  destruct (initialization_never_validates exampleHost (exampleConfig 2) 0)
    as [Hgwo _]; [simpl; lia|].
  exact Hgwo.
Defined.

(** The claim as the specification words it fails: sizes zero and two are
    accepted by the grey wolf engine, size zero by the bees engine. *)
Lemma initialization_accepts_small_sizes_counterexample :
  Gwo.mount exampleHost (exampleConfig 0) 0 = Ok (emptyGwoState, 0)
  /\ (exists st, Gwo.mount exampleHost (exampleConfig 2) 0 = Ok (st, 8)
                 /\ length (Gwo.wolvesRef st) = 2)
  /\ Bees.initialize exampleHost (exampleConfig 0) 0
     = Ok ({| Bees.beesRef := []; Bees.bestRef := zero; Bees.iterationRef := 0 |}, 0).
Proof.
  split; [reflexivity|]. split; [|reflexivity].
  eexists. split; [vm_compute; reflexivity | reflexivity].
Qed.

(** ** The components *)

Module ComponentTheory.
Import Component.

Section Scheduler.
Context {S : Type} (E : Engine S).

(** A callback leaves the props, and it leaves the refs unless it is a frame
    whose [animate] wrote them. *)
Lemma fire_inv i ctx now k w w' :
  fire E i ctx now k w = Some w' ->
  props w' = props w
  /\ ((exists closure, tasks w !! i = Some (Timer closure) /\ refs w' = refs w)
      \/ exists handle closure s nx,
           tasks w !! i = Some (Frame handle closure)
           /\ animate E closure ctx now (refs w) k = Some (s, nx)
           /\ refs w' = s).
Proof.
  unfold fire. destruct (tasks w !! i) as [[handle closure|closure]|]; [| |done].
  - cbn [refs]. destruct (animate E closure ctx now (refs w) k) as [[s nx]|] eqn:Ea;
      [|done].
    intros Hw'. split.
    + by destruct nx; injection Hw' as <-.
    + right. exists handle, closure, s, nx. split; [done|]. split; [done|].
      by destruct nx; injection Hw' as <-.
  - intros [= <-]. split; [done|]. left. by exists closure.
Qed.

(** A render sets the props, and leaves the refs unless the initialisation
    effect ran. *)
Lemma render_inv config k w w' :
  render E config k w = Some w' ->
  props w' = config
  /\ exists s k',
       (if initDeps E (props w) config then initEffect E config (refs w)
        else mret (refs w)) k = Ok (s, k')
       /\ refs w' = s.
Proof.
  unfold render.
  destruct ((if initDeps E (props w) config then initEffect E config (refs w)
             else mret (refs w)) k) as [[s k']|e]; [|done].
  intros [= <-]. split; [by destruct (loopDeps E (props w) config)|].
  exists s, k'. split; [done|]. by destruct (loopDeps E (props w) config).
Qed.

Lemma start_reachable config k events w :
  start E config k events = Some w -> reachable E w.
Proof.
  unfold start. destruct (mount E config k) as [w0|] eqn:Em; [|done].
  assert (reachable E w0) as Hw0 by (by eapply reachable_mount).
  clear Em. revert w0 Hw0.
  induction events as [|event events IH]; intros w0 Hw0; cbn [run].
  - by intros [= <-].
  - destruct (step E w0 event) as [w1|] eqn:Es; [|done].
    apply IH. by eapply reachable_step.
Qed.

End Scheduler.

(** *** The engine states of the components

    The refs of a component are, in every state it reaches, an engine state
    that the frames reach. *)

Section Engines.
Context (h : Host).

Lemma bees_refs_reachable w :
  reachable (bees h) w -> Bees.reachable h (refs w).
Proof.
  induction 1 as [config k w Hm|w event w' _ IH Hs].
  - unfold mount in Hm. cbn [mountEffect bees] in Hm.
    destruct (Bees.initialize h config k) as [[s k']|e] eqn:Ei; [|done].
    injection Hm as <-. cbn [request refs].
    by eapply Bees.reachable_initialize.
  - destruct event as [i ctx now k|config k]; cbn [step] in Hs.
    + apply fire_inv in Hs as [_ [(closure & _ & ->)|(handle & closure & s & nx & _ & Ha & ->)]];
        [done|].
      cbn [animate bees] in Ha.
      destruct (Bees.animate h closure ctx (refs w) k) as [[fr k']|e] eqn:Ef.
      * injection Ha as <- _. by eapply Bees.reachable_frame.
      * injection Ha as <- _. by eapply Bees.reachable_thrown.
    + apply render_inv in Hs as (_ & s & k' & Hi & ->).
      destruct (initDeps (bees h) (props w) config); [|by injection Hi as <- _].
      cbn [initEffect bees] in Hi. by eapply Bees.reachable_initialize.
Qed.

Lemma gwo_refs_reachable w :
  reachable (gwo h) w -> Gwo.reachable h (refs w).
Proof.
  induction 1 as [config k w Hm|w event w' _ IH Hs].
  - unfold mount in Hm. cbn [mountEffect gwo] in Hm.
    destruct (Gwo.mount h config k) as [[s k']|e] eqn:Ei; [|done].
    injection Hm as <-. cbn [request refs].
    by eapply Gwo.reachable_mount.
  - destruct event as [i ctx now k|config k]; cbn [step] in Hs.
    + apply fire_inv in Hs as [_ [(closure & _ & ->)|(handle & closure & s & nx & _ & Ha & ->)]];
        [done|].
      cbn [animate gwo] in Ha.
      destruct (Gwo.animate h closure ctx (Fin now) (refs w) k) as [[fr k']|e] eqn:Ef;
        [|done].
      injection Ha as <- _.
      by eapply (Gwo.reachable_frame h closure ctx (Fin now)).
    + apply render_inv in Hs as (_ & s & k' & Hi & ->).
      destruct (initDeps (gwo h) (props w) config); [|by injection Hi as <- _].
      cbn [initEffect gwo] in Hi. by eapply Gwo.reachable_initialize.
Qed.

Lemma aco_refs_reachable cities w :
  reachable (aco h cities) w -> Aco.reachable h cities (refs w).
Proof.
  induction 1 as [config k w Hm|w event w' _ IH Hs].
  - unfold mount in Hm. cbn in Hm. injection Hm as <-. cbn [refs].
    apply Aco.ticks_refl.
  - destruct event as [i ctx now k|config k]; cbn [step] in Hs.
    + apply fire_inv in Hs as [_ [(closure & _ & ->)|(handle & closure & s & nx & _ & Ha & ->)]];
        [done|].
      cbn [animate aco] in Ha.
      destruct (Aco.animate h closure ctx cities (refs w) k) as [[fr k']|e] eqn:Ef;
        [|done].
      injection Ha as <- _. by eapply Aco.ticks_step.
    + apply render_inv in Hs as (_ & s & k' & Hi & ->).
      cbn in Hi. by injection Hi as <- _.
Qed.

(** *** Pausing the grey wolves

    The grey wolves request the next frame directly, so the browser holds at
    most one callback, the frame whose handle is in [requestRef], and the
    cleanup of the effect cancels it whenever [isRunning] changes: the
    closure that runs has read the [isRunning] of the props. *)

Lemma gwo_tasks w : reachable (gwo h) w -> gwoTasks w.
Proof.
  induction 1 as [config k w Hm|w event w' _ IH Hs].
  - unfold mount in Hm. destruct (mountEffect (gwo h) config k) as [[s k']|e]; [|done].
    injection Hm as <-. right. by exists config.
  - destruct event as [i ctx now k|config k]; cbn [step] in Hs.
    + unfold fire in Hs. destruct IH as [Ht|(closure & Ht & Hr)]; rewrite Ht in Hs.
      { by rewrite lookup_nil in Hs. }
      destruct i as [|i]; [|done]. cbn in Hs.
      destruct (Gwo.animate h closure ctx (Fin now) (refs w) k) as [[fr k']|e]; [|done].
      unfold next in Hs.
      destruct (isRunning closure) eqn:Ec; cbn [negb] in Hs;
        [destruct ctx; cbn [negb] in Hs|];
        injection Hs as <-; unfold gwoTasks; cbn;
        (by left) || (right; exists closure; split; congruence).
    + unfold render in Hs.
      destruct ((if initDeps (gwo h) (props w) config
                 then initEffect (gwo h) config (refs w) else mret (refs w)) k)
        as [[s k']|e]; [|done].
      destruct (loopDeps (gwo h) (props w) config) eqn:Ed; injection Hs as <-.
      * right. exists config. split; [|done].
        cbn [request tasks requestRef cancel handles].
        destruct IH as [->|(closure & -> & _)]; [done|].
        cbn. rewrite decide_False; [done|]. intros Hn. by apply Hn.
      * cbn [tasks requestRef props].
        destruct IH as [Ht|(closure & Ht & Hr)]; [by left|].
        right. exists closure. split; [done|]. rewrite Hr.
        cbn [loopDeps gwo] in Ed. apply negb_false_iff in Ed.
        apply andb_true_iff in Ed as [Ed _]. by apply Bool.eqb_prop in Ed.
Qed.

(** While the grey wolves are paused no callback changes the engine state. *)
Lemma gwo_paused w i ctx now k w' :
  reachable (gwo h) w -> isRunning (props w) = false ->
  fire (gwo h) i ctx now k w = Some w' ->
  refs w' = refs w /\ props w' = props w.
Proof.
  intros Hreach Hpaused Hf.
  pose proof (gwo_tasks w Hreach) as Ht.
  apply fire_inv in Hf as [Hp [(closure & _ & Hr)|(handle & closure & s & nx & Hi & Ha & ->)]];
    [done|].
  split; [|done].
  destruct Ht as [Ht|(closure' & Ht & Hr)]; rewrite Ht in Hi;
    [by rewrite lookup_nil in Hi|].
  destruct i as [|i]; [|done]. injection Hi as _ ->.
  cbn [animate gwo] in Ha.
  destruct (paused_closure_is_noop h closure ctx (Fin now) [] Aco.initState (refs w)
              {| Bees.beesRef := []; Bees.bestRef := zero; Bees.iterationRef := 0 |} k)
    as (_ & Hg & _); [by rewrite Hr|].
  rewrite Hg in Ha. by injection Ha as <- _.
Qed.

End Engines.

(** *** Closures that outlive their props *)

(** C3.  The bees do not hold [populationSize] members after every frame.
    The effect that starts the loop follows [isRunning] and [speed] only, so
    after a render with another population size the frames of the former
    closure go on, on the bees that the initialisation effect has made for
    the new size.  Mounted with thirty bees and rendered with a population
    size of one hundred, the component holds one hundred bees; the frame
    requested at mount then leaves thirty, and holds the timer for the next
    frame of the same closure.  Rendered with a population size of ten
    instead, the same frame reads a site past the ten bees and throws a
    TypeError, and no callback is left. *)
Theorem bees_frame_keeps_former_population_size :
  (exists w w',
     start (bees exampleHost) (exampleConfig 30) 0 [Render (exampleConfig 100) 60]
     = Some w
     /\ length (Bees.beesRef (refs w)) = 100
     /\ tasks w = [Frame 1 (exampleConfig 30)]
     /\ step (bees exampleHost) w (Fire 0 true 0 260) = Some w'
     /\ populationSize (props w') = 100%Z
     /\ length (Bees.beesRef (refs w')) = 30
     /\ tasks w' = [Timer (exampleConfig 30)])
  /\ (exists w w',
        start (bees exampleHost) (exampleConfig 30) 0 [Render (exampleConfig 10) 60]
        = Some w
        /\ length (Bees.beesRef (refs w)) = 10
        /\ tasks w = [Frame 1 (exampleConfig 30)]
        /\ Bees.animate exampleHost (exampleConfig 30) true (refs w) 80
           = Err TypeError
        /\ step (bees exampleHost) w (Fire 0 true 0 80) = Some w'
        /\ populationSize (props w') = 10%Z
        /\ refs w' = Bees.thrown exampleHost (refs w)
        /\ tasks w' = []).
Proof.
  split.
  - eexists _, _. split; [vm_compute; reflexivity|].
    split; [reflexivity|]. split; [reflexivity|].
    split; [vm_compute; reflexivity|]. by repeat split.
  - eexists _, _. split; [vm_compute; reflexivity|].
    split; [reflexivity|]. split; [reflexivity|].
    split; [vm_compute; reflexivity|].
    split; [vm_compute; reflexivity|]. by repeat split.
Qed.

(** C6.  Pausing does not stop the ant colony and the bees.  A frame that
    has run leaves a timer whose callback requests the next frame of the
    same closure; the cleanup of the effect cancels the frame in
    [requestRef] and not the timer.  After a frame, a render with [isRunning]
    false and the callback of the timer, the props say paused and the
    browser holds a frame of the closure that has read [isRunning] as true:
    that frame counts an iteration, moves the bees or the pheromones, and
    leaves its timer again. *)
Theorem frame_runs_while_paused :
  (exists w w',
     start (bees exampleHost) (exampleConfig 10) 0
       [Fire 0 true 0 20; Render (pausedConfig 10) 40; Fire 0 true 0 40]
     = Some w
     /\ isRunning (props w) = false
     /\ tasks w = [Frame 2 (pausedConfig 10); Frame 3 (exampleConfig 10)]
     /\ step (bees exampleHost) w (Fire 1 true 0 40) = Some w'
     /\ isRunning (props w') = false
     /\ Bees.iterationRef (refs w') = S (Bees.iterationRef (refs w))
     /\ Bees.beesRef (refs w') <> Bees.beesRef (refs w)
     /\ tasks w' = [Frame 2 (pausedConfig 10); Timer (exampleConfig 10)])
  /\ (exists w w',
        start (aco exampleHost exampleCities) (exampleConfig 3) 0
          [Fire 0 true 0 30; Render (pausedConfig 3) 60; Fire 0 true 0 60]
        = Some w
        /\ isRunning (props w) = false
        /\ tasks w = [Frame 2 (pausedConfig 3); Frame 3 (exampleConfig 3)]
        /\ step (aco exampleHost exampleCities) w (Fire 1 true 0 60) = Some w'
        /\ isRunning (props w') = false
        /\ Aco.iterationRef (refs w') = S (Aco.iterationRef (refs w))
        /\ Aco.pheromonesRef (refs w') <> Aco.pheromonesRef (refs w)
        /\ tasks w' = [Frame 2 (pausedConfig 3); Timer (exampleConfig 3)]).
Proof.
  split.
  - eexists _, _. split; [vm_compute; reflexivity|].
    split; [reflexivity|]. split; [reflexivity|].
    split; [vm_compute; reflexivity|].
    split; [reflexivity|]. split; [reflexivity|]. split; [|reflexivity].
    cbn [refs Bees.beesRef]. intros Heq. by injection Heq.
  - eexists _, _. split; [vm_compute; reflexivity|].
    split; [reflexivity|]. split; [reflexivity|].
    split; [vm_compute; reflexivity|].
    split; [reflexivity|]. split; [reflexivity|]. split; [|reflexivity].
    cbn [refs Aco.pheromonesRef]. intros Heq.
    apply (f_equal (fun ph => Aco.entry ph 0 1)) in Heq. vm_compute in Heq.
    discriminate.
Qed.

End ComponentTheory.

(** ** Further properties of the engines *)

(** *** Intervals *)

Lemma within_Fin lo hi q : within (Fin lo) (Fin hi) (Fin q) <-> (lo <= q <= hi)%Q.
Proof. unfold within. rewrite !leb_Fin. tauto. Qed.

Lemma within_finite lo hi v : within (Fin lo) (Fin hi) v -> finite v.
Proof. destruct v; unfold within; simpl; intuition discriminate. Qed.

Lemma within_inv lo hi v :
  within (Fin lo) (Fin hi) v -> exists q, v = Fin q /\ (lo <= q <= hi)%Q.
Proof.
  intros H. pose proof (within_finite _ _ _ H) as Hf.
  destruct v as [q| | |]; try done. exists q. split; [done|]. by apply within_Fin.
Qed.

Lemma within_weaken lo hi lo' hi' v :
  (lo' <= lo)%Q -> (hi <= hi')%Q ->
  within (Fin lo) (Fin hi) v -> within (Fin lo') (Fin hi') v.
Proof.
  intros ? ? H. apply within_inv in H as (q & -> & ?). apply within_Fin. lra.
Qed.

(** A draw of [Math.random()] scaled by a non-negative size stays below it. *)
Lemma scaled_draw_within h k size :
  random_sound h -> (0 <= size)%Q ->
  within zero (Fin size) (mul (Math_random h k) (Fin size)).
Proof.
  intros Hrand Hs. pose proof (Hrand k) as H0.
  destruct (Math_random h k) as [a| | |]; try done.
  cbn [unit_interval] in H0. cbn [mul]. apply within_Fin. split; nra.
Qed.

(** The stand-in for [Math.exp] of the example host is finite on finite
    numbers. *)
Lemma exampleHost_exp : exp_sound exampleHost.
Proof.
  intros [q| | |] Hv; try done. cbn [exampleHost Math_exp Math_abs add one].
  unfold div. destruct (Qeq_bool (1 + Qabs q) 0) eqn:E; [|done].
  apply Qeq_bool_eq in E. pose proof (Qabs_nonneg q). lra.
Qed.

(** *** Loops *)

(** A loop that pushes one element per round and draws [c] random numbers in
    each. *)
Lemma foldlM_push_draws {A B} (f : A -> M B) (Q : A -> Prop) (R : A -> B -> Prop)
    (c : nat) l :
  (forall a k, Q a -> exists b, f a k = Ok (b, c + k) /\ R a b) ->
  Forall Q l ->
  forall bs k,
  exists cs,
    foldlM (fun bs a => b ← f a; mret (bs ++ [b])) bs l k
    = Ok (bs ++ cs, c * length l + k)
    /\ Forall2 R l cs.
Proof.
  intros Hf. induction 1 as [|a l Ha Hl IH]; intros bs k; cbn [foldlM].
  - exists []. rewrite app_nil_r. split; [|done]. cbn [length]. by rewrite Nat.mul_0_r.
  - destruct (Hf a k Ha) as (b & Hb & HR).
    rewrite (bind_M_ok _ _ _ _ _ (bind_M_ok _ _ _ _ _ Hb)).
    destruct (IH (bs ++ [b]) (c + k)) as (cs & Heq & Hall).
    exists (b :: cs). rewrite <- app_assoc in Heq. split; [|by constructor].
    rewrite Heq. cbn [length]. do 2 f_equal. lia.
Qed.

Lemma Forall2_fmap_eq {A B} (f : B -> A) l bs :
  Forall2 (fun a b => f b = a) l bs -> f <$> bs = l.
Proof. induction 1 as [|a b l bs Hab _ IH]; [done|]. cbn. by rewrite Hab, IH. Qed.

Lemma fmap_alter_same {A B} (f : A -> B) (g : A -> A) i (l : list A) :
  (forall x, f (g x) = f x) -> f <$> alter g i l = f <$> l.
Proof.
  intros Hg. apply list_eq. intros j.
  rewrite !list_lookup_fmap, list_lookup_alter.
  case_decide; [subst|done]. destruct (l !! j); cbn; [|done]. by rewrite Hg.
Qed.

Lemma exampleHost_trig_bounded : trig_bounded exampleHost.
Proof. intros v. by split. Qed.

Lemma exampleHost_exp_decay : exp_decay exampleHost.
Proof.
  intros q Hq. cbn [exampleHost Math_exp Math_abs add one].
  pose proof (Qabs_nonneg q) as Habs. unfold div.
  destruct (Qeq_bool (1 + Qabs q) 0) eqn:E.
  { apply Qeq_bool_eq in E. lra. }
  apply within_Fin. split.
  - apply Qle_shift_div_l; lra.
  - apply Qle_shift_div_r; lra.
Qed.

(** A loop over a list that grows by one element per round. *)
Lemma foldlM_result_count {A B} (P : list B -> Prop)
    (body : list B -> A -> result (list B)) l :
  (forall s a, P s -> a ∈ l ->
     exists s', body s a = Ok s' /\ length s' = S (length s) /\ P s') ->
  forall s, P s ->
  exists s', foldlM body s l = Ok s' /\ length s' = length s + length l /\ P s'.
Proof.
  induction l as [|a l IH]; intros Hbody s Hs; cbn [foldlM].
  - exists s. cbn [length]. by rewrite Nat.add_0_r.
  - destruct (Hbody s a Hs) as (s1 & Hb & Hlen & Hs1); [left|].
    rewrite Hb. cbn [mbind result_bind].
    destruct (IH (fun s a Hs Ha => Hbody s a Hs (list_elem_of_further _ _ _ Ha)) s1 Hs1)
      as (s' & Heq & Hlen' & Hs').
    exists s'. split; [exact Heq|]. split; [|done]. cbn [length]. lia.
Qed.

(** *** Ant colony engine *)

Module AcoInvariants.
Import Aco AcoTheory.

(** X1.  The mount effect draws two random numbers per city and builds
    [CITY_COUNT] cities with finite coordinates, each at least 20 from every
    border of the canvas. *)
Theorem initCities_on_canvas h k :
  random_sound h ->
  exists cities,
    initCities h k = Ok (cities, 2 * CITY_COUNT + k)
    /\ citiesInitialized cities
    /\ Forall (fun p => within (Fin 20) (Fin 580) (Point.x p)
                        /\ within (Fin 20) (Fin 580) (Point.y p)) cities.
Proof.
  intros Hrand. unfold initCities.
  destruct (foldlM_push_draws
              (fun _ : nat =>
                 rx ← random h; ry ← random h;
                 mret (Point.mk (add (mul rx (sub CANVAS_SIZE (Fin 40))) (Fin 20))
                                (add (mul ry (sub CANVAS_SIZE (Fin 40))) (Fin 20))))
              (fun _ => True)
              (fun _ p => within (Fin 20) (Fin 580) (Point.x p)
                          /\ within (Fin 20) (Fin 580) (Point.y p))
              2 (seq 0 CITY_COUNT)) with (bs := @nil Point.t) (k := k)
    as (cities & Heq & Hall).
  { intros _ k0 _. eexists.
    split; [cbv [mbind M_bind random mret M_ret]; reflexivity|].
    cbn [Point.x Point.y].
    pose proof (Hrand k0) as H0. pose proof (Hrand (S k0)) as H1.
    destruct (Math_random h k0) as [a| | |]; try done.
    destruct (Math_random h (S k0)) as [b| | |]; try done.
    cbn [unit_interval] in H0, H1. unfold CANVAS_SIZE. cbn [mul sub add neg].
    rewrite !within_Fin. repeat split; lra. }
  { by apply Forall_true. }
  assert (Forall (fun p => within (Fin 20) (Fin 580) (Point.x p)
                           /\ within (Fin 20) (Fin 580) (Point.y p)) cities) as Hin.
  { eapply Forall2_Forall_r; [exact Hall|]. by apply Forall_true. }
  rewrite length_seq in Heq. cbn [app] in Heq.
  exists cities. split; [exact Heq|].
  assert (length cities = CITY_COUNT) as Hlen
    by (by rewrite <- (Forall2_length _ _ _ Hall), length_seq).
  split; [|done]. split; [done|].
  eapply Forall_impl; [exact Hin|]. intros p [Hx Hy].
  split; by eapply within_finite.
Qed.

Lemma initCities_on_canvas_witness :
  random_sound exampleHost
  /\ exists cities,
       initCities exampleHost 0 = Ok (cities, 2 * CITY_COUNT + 0)
       /\ citiesInitialized cities
       /\ Forall (fun p => within (Fin 20) (Fin 580) (Point.x p)
                           /\ within (Fin 20) (Fin 580) (Point.y p)) cities.
Proof.
  split; [apply exampleHost_random|].
  apply (initCities_on_canvas exampleHost 0 exampleHost_random).
Defined.

(** X2.  In every reachable state the stored best path is a tour of all cities
    and the stored best distance is the length of that closed tour, or no tour
    has been stored yet and the distance is +Infinity. *)
Theorem best_tour_valid h cities st :
  random_sound h -> length cities = CITY_COUNT -> reachable h cities st ->
  bestTourValid h cities st.
Proof.
  intros Hrand Hlen Hreach.
  enough (bestTourValid h cities st /\ hasRows (pheromonesRef st)) by tauto.
  apply (ticks_ind_from h cities
           (fun st => bestTourValid h cities st /\ hasRows (pheromonesRef st))
           initState); [| |exact Hreach].
  - split; [by left|]. apply symmetricPositive_rows, initState_symmetric.
  - intros config st0 k fr k' [Hvalid Hrows] Hrun Hfr.
    destruct (animate_run h config cities st0 k Hrand Hlen Hrows Hrun)
      as (paths & dists & ph1 & ph2 & k1 & _ & Hperm & _ & _ & _ & Hrows2 & Heq).
    pose proof (animate_best h config cities st0 k fr k' Hrun Hfr) as Hbest.
    rewrite Hfr in Heq. injection Heq as Hfr' _.
    split; [|rewrite Hfr'; exact Hrows2].
    destruct Hbest as [[= Hp Hd] | (_ & Hin & Htour)].
    + unfold bestTourValid. by rewrite Hp, Hd.
    + right. split; [|done]. rewrite Forall_forall in Hperm. apply Hperm.
      by rewrite Hfr' in Hin at 2.
Qed.

Lemma best_tour_valid_witness :
  random_sound exampleHost /\ length exampleCities = CITY_COUNT
  /\ reachable exampleHost exampleCities exampleAcoState
  /\ bestTourValid exampleHost exampleCities exampleAcoState.
Proof.
  split; [apply exampleHost_random|]. split; [reflexivity|].
  split; [apply exampleAcoState_ticks|].
  apply (best_tour_valid exampleHost exampleCities exampleAcoState
           exampleHost_random eq_refl exampleAcoState_ticks).
Defined.

(** X3.  A running frame of a colony without ants (population size zero or
    below) only evaporates: every pheromone entry of a city pair is multiplied
    by [1 - rho], the best tour stays, and the iteration counter advances. *)
Theorem empty_colony_evaporates h config cities st k :
  isRunning config = true -> (populationSize config <= 0)%Z ->
  hasRows (pheromonesRef st) ->
  exists ph,
    animate h config true cities st k
    = Ok ({| state := {| pheromonesRef := ph;
                         bestPathRef := bestPathRef st;
                         bestDistRef := bestDistRef st;
                         iterationRef := S (iterationRef st) |};
             stats := Some {| iteration := S (iterationRef st);
                              bestScore := bestDistRef st;
                              stats_populationSize := populationSize config |};
             currentAntsPaths := [] |}, k)
    /\ forall i j, i < CITY_COUNT -> j < CITY_COUNT ->
         entry ph i j = Some (mul (of_slot (entry (pheromonesRef st) i j))
                                  (sub one rho)).
Proof.
  intros Hrun Hn Hrows. unfold animate. rewrite Hrun. cbn [negb].
  replace (Z.to_nat (populationSize config)) with 0 by lia.
  cbn [seq foldlM]. unfold mret at 1, M_ret. unfold mbind at 1, M_bind.
  cbn [antsPaths pathDistances bestPath bestDist length seq foldlM].
  destruct (evaporate_ok _ Hrows) as (ph & Hev & Hent).
  rewrite Hev. exists ph. split; [reflexivity|exact Hent].
Qed.

Lemma empty_colony_evaporates_witness :
  isRunning (exampleConfig 0) = true /\ (populationSize (exampleConfig 0) <= 0)%Z
  /\ hasRows (pheromonesRef initState)
  /\ exists ph,
       animate exampleHost (exampleConfig 0) true exampleCities initState 30
       = Ok ({| state := {| pheromonesRef := ph;
                            bestPathRef := [];
                            bestDistRef := PInf;
                            iterationRef := 1 |};
                stats := Some {| iteration := 1;
                                 bestScore := PInf;
                                 stats_populationSize := 0 |};
                currentAntsPaths := [] |}, 30)
       /\ entry ph 3 7 = Some (mul one (sub one rho)).
Proof.
  split; [reflexivity|]. split; [by compute|].
  split; [apply symmetricPositive_rows, initState_symmetric|].
  destruct (empty_colony_evaporates exampleHost (exampleConfig 0) exampleCities
              initState 30 eq_refl)
    as (ph & Heq & Hent); [by compute | apply symmetricPositive_rows, initState_symmetric|].
  exists ph. split; [exact Heq|]. apply (Hent 3 7); unfold CITY_COUNT; lia.
Defined.

(** **** Evaporation and deposit *)

Lemma bump_entry_inv c ph u v ph' :
  bump c ph u v = Ok ph' ->
  forall i j, entry ph' i j
    = if decide (i = u /\ j = v) then Some (add (of_slot (entry ph u v)) c)
      else entry ph i j.
Proof.
  intros Hb. assert (is_Some (ph !! u)) as Hrow.
  { unfold bump in Hb. apply bind_result_inv in Hb as (row & Hrow & _).
    apply defined_inv in Hrow. eauto. }
  destruct (bump_entry c ph u v Hrow) as (ph'' & Hb' & Hent).
  rewrite Hb in Hb'. by injection Hb' as <-.
Qed.

(** A property of the matrix that every deposit on an edge between two
    different cities keeps holds after the deposits of all ants. *)
Lemma deposits_inv h cities (P : gmap nat (gmap nat num) -> Prop)
    (paths : list (list nat)) dists ph ph' :
  sqrt_sound h ->
  Forall (fun p => finite (Point.x p) /\ finite (Point.y p)) cities ->
  Forall (fun path => path ≡ₚ seq 0 CITY_COUNT) paths ->
  Forall2 (fun path d => tourLength h cities path = Ok d) paths dists ->
  (forall c ph u v ph',
     positive c -> u <> v -> P ph -> bump c ph u v = Ok ph' -> P ph') ->
  P ph -> foldlM (deposit paths dists) ph (seq 0 (length paths)) = Ok ph' -> P ph'.
Proof.
  intros Hs Hfin Hperm Hd Hbump.
  assert (forall c (path : list nat) ph i j ph',
            positive c -> NoDup path -> i <> j -> P ph ->
            depositEdge c path ph i j = Ok ph' -> P ph') as Hedge.
  { intros c path ph0 i j ph0' Hc Hnd Hij HP Hdep. unfold depositEdge in Hdep.
    apply bind_result_inv in Hdep as (u & Hu & Hdep). apply defined_inv in Hu.
    apply bind_result_inv in Hdep as (v & Hv & Hdep). apply defined_inv in Hv.
    apply bind_result_inv in Hdep as (ph1 & H1 & H2).
    assert (u <> v) as Huv.
    { intros ->. apply Hij. by eapply NoDup_lookup. }
    eapply Hbump; [exact Hc| |eapply Hbump; [exact Hc|exact Huv|exact HP|exact H1]|exact H2].
    congruence. }
  apply foldlM_result_partial. intros s k s' HP Hk Hdep.
  apply elem_of_seq in Hk. unfold deposit in Hdep.
  apply bind_result_inv in Hdep as (path & Hpath & Hdep). apply defined_inv in Hpath.
  assert (path ≡ₚ seq 0 CITY_COUNT) as Hp.
  { rewrite Forall_forall in Hperm. apply Hperm. by eapply list_elem_of_lookup_2. }
  pose proof (perm_length path Hp) as Hlen.
  assert (NoDup path) as Hnd by (rewrite Hp; apply NoDup_seq).
  destruct (Forall2_lookup_l _ _ _ _ _ Hd Hpath) as (d & Hdk & Htour).
  rewrite Hdk in Hdep. change (of_slot (Some d)) with d in Hdep.
  assert (positive (div (Fin 100) d)) as Hc
    by (eapply contribution_positive, tourLength_nonneg; done).
  apply bind_result_inv in Hdep as (ph1 & H1 & H2).
  eapply Hedge; [exact Hc|exact Hnd| | |exact H2].
  { unfold CITY_COUNT in Hlen. lia. }
  revert H1. apply foldlM_result_partial; [|exact HP].
  intros s0 i s0' HP0 _ Hstep. eapply Hedge; [exact Hc|exact Hnd| |exact HP0|exact Hstep].
  lia.
Qed.

Lemma leb_add_positive e v c :
  leb e v = true -> positive v -> positive c -> leb e (add v c) = true.
Proof.
  destruct e as [p| | |], v as [q| | |], c as [r| | |]; try done;
    cbn [add positive]; try done.
  rewrite !leb_Fin. intros. lra.
Qed.

(** X4.  A running frame lowers no pheromone entry of a city pair below [1 -
    rho] times its value before the frame, and the entries on the diagonal,
    which belong to no edge of a tour, are exactly evaporated. *)
Theorem pheromone_floor h config cities st k fr k' :
  random_sound h -> sqrt_sound h -> citiesInitialized cities ->
  symmetricPositive (pheromonesRef st) -> isRunning config = true ->
  animate h config true cities st k = Ok (fr, k') ->
  forall i j, i < CITY_COUNT -> j < CITY_COUNT ->
    leb (mul (of_slot (entry (pheromonesRef st) i j)) (sub one rho))
        (of_slot (entry (pheromonesRef (state fr)) i j)) = true
    /\ (i = j ->
        entry (pheromonesRef (state fr)) i j
        = Some (mul (of_slot (entry (pheromonesRef st) i j)) (sub one rho))).
Proof.
  intros Hrand Hs [Hlen Hfin] Hsym Hrun Hfr i j Hi Hj.
  pose proof (symmetricPositive_rows _ Hsym) as Hrows.
  destruct (animate_run h config cities st k Hrand Hlen Hrows Hrun)
    as (paths & dists & ph1 & ph2 & k1 & _ & Hperm & Hd & Hev & Hdep & _ & Heq).
  rewrite Hfr in Heq. injection Heq as -> _. cbn [state pheromonesRef].
  destruct (evaporate_ok _ Hrows) as (ph1' & Hev' & Hent).
  rewrite Hev in Hev'. injection Hev' as <-.
  set (e := mul (of_slot (entry (pheromonesRef st) i j)) (sub one rho)).
  assert (positive e) as Hpe.
  { destruct (Hsym i j Hi Hj) as (v & Hv & _ & Hpos). unfold e. rewrite Hv.
    by apply positive_evaporated. }
  assert (leb e e = true) as Hee by (apply leb_refl; by destruct e).
  split.
  - enough (leb e (of_slot (entry ph2 i j)) = true
            /\ positive (of_slot (entry ph2 i j))) by tauto.
    apply (deposits_inv h cities
             (fun ph => leb e (of_slot (entry ph i j)) = true
                        /\ positive (of_slot (entry ph i j)))
             paths dists ph1 ph2 Hs Hfin Hperm Hd); [| |exact Hdep].
    + intros c ph u v ph' Hc _ [HP Hpos] Hb. rewrite (bump_entry_inv _ _ _ _ _ Hb).
      case_decide as Huv; [|done]. destruct Huv as [-> ->].
      cbn [of_slot default]. split; [by apply leb_add_positive|by apply positive_add].
    + rewrite (Hent i j Hi Hj). cbn [of_slot default]. by split.
  - intros <-.
    apply (deposits_inv h cities (fun ph => entry ph i i = Some e)
             paths dists ph1 ph2 Hs Hfin Hperm Hd); [| |exact Hdep].
    + intros c ph u v ph' _ Huv HP Hb. rewrite (bump_entry_inv _ _ _ _ _ Hb).
      rewrite decide_False; [done|]. intros [-> <-]. done.
    + by apply Hent.
Qed.

Lemma pheromone_floor_witness :
  random_sound exampleHost /\ sqrt_sound exampleHost
  /\ citiesInitialized exampleCities
  /\ symmetricPositive (pheromonesRef initState)
  /\ isRunning (exampleConfig 3) = true
  /\ forall fr k',
       animate exampleHost (exampleConfig 3) true exampleCities initState 30
       = Ok (fr, k') ->
       leb (mul (of_slot (entry (pheromonesRef initState) 3 3)) (sub one rho))
           (of_slot (entry (pheromonesRef (state fr)) 3 3)) = true
       /\ (3 = 3 ->
           entry (pheromonesRef (state fr)) 3 3
           = Some (mul (of_slot (entry (pheromonesRef initState) 3 3))
                       (sub one rho))).
Proof.
  split; [apply exampleHost_random|]. split; [apply exampleHost_sqrt|].
  split; [apply exampleCities_initialized|]. split; [apply initState_symmetric|].
  split; [reflexivity|]. intros fr k' Hfr.
  apply (pheromone_floor exampleHost (exampleConfig 3) exampleCities initState 30
           fr k' exampleHost_random exampleHost_sqrt exampleCities_initialized
           initState_symmetric eq_refl Hfr 3 3); unfold CITY_COUNT; lia.
Defined.

(** **** The best tour and the tours of a frame *)

Lemma bestAfter_le (best : list nat * num) ants :
  isNaN best.2 = false -> Forall (fun ant => isNaN ant.2 = false) ants ->
  leb (bestAfter best ants).2 best.2 = true
  /\ Forall (fun ant => leb (bestAfter best ants).2 ant.2 = true) ants.
Proof.
  intros Hb Hants. revert best Hb.
  induction Hants as [|a l Ha Hl IH]; intros best Hb; unfold bestAfter; cbn [foldl].
  - split; [by apply leb_refl|done].
  - set (b1 := if ltb a.2 best.2 then a else best).
    assert (isNaN b1.2 = false /\ leb b1.2 best.2 = true /\ leb b1.2 a.2 = true)
      as (Hn1 & Hle1 & Hle2).
    { unfold b1. destruct (ltb a.2 best.2) eqn:E.
      - split; [done|]. split; [by apply ltb_leb|by apply leb_refl].
      - split; [done|]. split; [by apply leb_refl|by apply ltb_false_leb]. }
    destruct (IH b1 Hn1) as [Hle Hall]. fold (bestAfter b1 l) in *.
    split; [by eapply leb_trans|]. constructor; [by eapply leb_trans|done].
Qed.

(** X5.  After a running frame from a reachable state, the stored best
    distance is at most the length of the closed tour of every ant of the
    frame. *)
Theorem best_bounds_frame_tours h config cities st k fr k' :
  random_sound h -> sqrt_sound h -> citiesInitialized cities ->
  reachable h cities st -> isRunning config = true ->
  animate h config true cities st k = Ok (fr, k') ->
  Forall (fun path =>
            exists d, tourLength h cities path = Ok d
                      /\ leb (bestDistRef (state fr)) d = true)
         (currentAntsPaths fr).
Proof.
  intros Hrand Hs [Hlen Hfin] Hreach Hrun Hfr.
  pose proof (reachable_rows h cities st Hrand Hlen Hreach) as Hrows.
  pose proof (reachable_best_defined h cities st Hreach) as Hbest.
  destruct (animate_run h config cities st k Hrand Hlen Hrows Hrun)
    as (paths & dists & ph1 & ph2 & k1 & _ & _ & Hd & _ & _ & _ & Heq).
  rewrite Hfr in Heq. injection Heq as -> _.
  cbn [state bestDistRef currentAntsPaths].
  destruct (bestAfter_le (bestPathRef st, bestDistRef st) (zip paths dists))
    as [_ Hall]; [done| |].
  { apply Forall_lookup. intros i [path d] Hi.
    apply lookup_zip_with_Some in Hi as (p & d' & [= -> ->] & Hp & Hd').
    destruct (Forall2_lookup_l _ _ _ _ _ Hd Hp) as (d0 & Hd0 & Htour).
    rewrite Hd' in Hd0. injection Hd0 as <-. cbn.
    eapply nonneg_fin_defined, tourLength_nonneg; done. }
  apply Forall_lookup. intros i path Hp.
  destruct (Forall2_lookup_l _ _ _ _ _ Hd Hp) as (d & Hdi & Htour).
  exists d. split; [done|].
  rewrite Forall_lookup in Hall. apply (Hall i (path, d)).
  apply lookup_zip_with_Some. by exists path, d.
Qed.

Lemma best_bounds_frame_tours_witness :
  random_sound exampleHost /\ sqrt_sound exampleHost
  /\ citiesInitialized exampleCities
  /\ reachable exampleHost exampleCities initState
  /\ isRunning (exampleConfig 3) = true
  /\ forall fr k',
       animate exampleHost (exampleConfig 3) true exampleCities initState 30
       = Ok (fr, k') ->
       Forall (fun path =>
                 exists d, tourLength exampleHost exampleCities path = Ok d
                           /\ leb (bestDistRef (state fr)) d = true)
              (currentAntsPaths fr).
Proof.
  split; [apply exampleHost_random|]. split; [apply exampleHost_sqrt|].
  split; [apply exampleCities_initialized|]. split; [apply ticks_refl|].
  split; [reflexivity|]. intros fr k'.
  apply (best_bounds_frame_tours exampleHost (exampleConfig 3) exampleCities
           initState 30 fr k' exampleHost_random exampleHost_sqrt
           exampleCities_initialized (ticks_refl _ _ _) eq_refl).
Defined.

End AcoInvariants.

(** *** Grey wolf engine *)

Module GwoInvariants.
Import Gwo GwoTheory.

Lemma retargeted_ids ws ws' :
  Forall2 retargeted ws ws' -> Wolf.id <$> ws' = Wolf.id <$> ws.
Proof.
  induction 1 as [|w w' ws ws' (tx & ty & ->) _ IH]; [done|].
  cbn. by rewrite IH.
Qed.

Lemma rank_ids ws : Wolf.id <$> rank ws = Wolf.id <$> ws.
Proof.
  unfold rank, assign.
  repeat (case_match; rewrite ?fmap_alter_same by done);
    rewrite <- list_fmap_compose; by apply list_fmap_ext.
Qed.

Lemma moveWolves_ids t ws : Wolf.id <$> moveWolves t ws = Wolf.id <$> ws.
Proof. unfold moveWolves. rewrite <- list_fmap_compose. by apply list_fmap_ext. Qed.

(** One call of [advancePhase]: it returns, moves to the next phase of the
    cycle, counts an iteration exactly when it leaves MOVE_WOLVES, and keeps
    the wolves' identifiers, in array order, and the phase timer. *)
Lemma advancePhase_step h now st k :
  exists st' k',
    advancePhase h now st k = Ok (st', k')
    /\ phaseRef st' = nextPhase (phaseRef st)
    /\ iterationRef st'
       = (if decide (phaseRef st = MOVE_WOLVES) then S (iterationRef st)
          else iterationRef st)
    /\ Wolf.id <$> wolvesRef st' = Wolf.id <$> wolvesRef st
    /\ phaseTimerRef st' = phaseTimerRef st.
Proof.
  unfold advancePhase. destruct (phaseRef st) eqn:Hph.
  - eexists _, _. split; [reflexivity|]. by repeat split.
  - eexists _, _. split; [reflexivity|]. repeat split; try done.
    cbn [wolvesRef]. rewrite <- list_fmap_compose. by apply list_fmap_ext.
  - eexists _, _. split; [reflexivity|]. repeat split; try done.
    cbn [wolvesRef]. apply rank_ids.
  - destruct (calculate_total h (iterationRef st) (wolvesRef st) k)
      as (ws & k' & Hcalc & Hall).
    rewrite (bind_M_ok _ _ _ _ _ Hcalc).
    eexists _, _. split; [reflexivity|]. repeat split; try done.
    cbn [wolvesRef]. by apply retargeted_ids.
  - eexists _, _. split; [reflexivity|]. by repeat split.
Qed.

Lemma ids_length (ws ws' : list Wolf.t) :
  Wolf.id <$> ws' = Wolf.id <$> ws -> length ws' = length ws.
Proof. intros H. apply (f_equal length) in H. by rewrite !length_fmap in H. Qed.

(** X6.  Five phase transitions in a row, from any state, return: they lead
    back to the phase they started from with exactly one more iteration
    counted, the identifiers of the wolves as they were, in array order, and
    the phase timer untouched. *)
Theorem phase_cycle h now st k :
  exists st' k',
    advanceTimes h 5 now st k = Ok (st', k')
    /\ phaseRef st' = phaseRef st
    /\ iterationRef st' = S (iterationRef st)
    /\ Wolf.id <$> wolvesRef st' = Wolf.id <$> wolvesRef st
    /\ phaseTimerRef st' = phaseTimerRef st.
Proof.
  cbn [advanceTimes].
  destruct (advancePhase_step h now st k) as (s1 & k1 & E1 & P1 & I1 & L1 & T1).
  destruct (advancePhase_step h now s1 k1) as (s2 & k2 & E2 & P2 & I2 & L2 & T2).
  destruct (advancePhase_step h now s2 k2) as (s3 & k3 & E3 & P3 & I3 & L3 & T3).
  destruct (advancePhase_step h now s3 k3) as (s4 & k4 & E4 & P4 & I4 & L4 & T4).
  destruct (advancePhase_step h now s4 k4) as (s5 & k5 & E5 & P5 & I5 & L5 & T5).
  rewrite (bind_M_ok _ _ _ _ _ E1), (bind_M_ok _ _ _ _ _ E2),
    (bind_M_ok _ _ _ _ _ E3), (bind_M_ok _ _ _ _ _ E4), (bind_M_ok _ _ _ _ _ E5).
  exists s5, k5. split; [reflexivity|].
  split; [|split; [|split; [congruence|congruence]]].
  - rewrite P5, P4, P3, P2, P1. by destruct (phaseRef st).
  - rewrite I5, I4, I3, I2, I1, P4, P3, P2, P1.
    destruct (phaseRef st); cbn [nextPhase]; repeat case_decide; congruence.
Qed.

(** X7.  Every frame returns, whatever the state, the configuration and the
    random draws, and leaves the identifiers of the wolves as they were, in
    array order: no frame adds, drops or reorders a wolf. *)
Theorem frame_returns h config ctx now st k :
  exists fr k',
    animate h config ctx now st k = Ok (fr, k')
    /\ Wolf.id <$> wolvesRef (state fr) = Wolf.id <$> wolvesRef st.
Proof.
  destruct (isRunning config) eqn:Hr; [destruct ctx|];
    [|eexists _, _; rewrite gwo_animate_idle by auto; by split..].
  unfold animate. rewrite Hr. cbn [negb].
  set (sm := add (Fin (2 # 10)) (mul (div (of_Z (speed config)) (Fin 100)) (Fin (8 # 10)))).
  set (st0 := setTimer (add (phaseTimerRef st) sm) st).
  assert (exists st1 k1,
            (if geb (phaseTimerRef st0) PHASE_DURATION
             then advancePhase h now (setTimer zero st0) else mret st0) k
            = Ok (st1, k1)
            /\ Wolf.id <$> wolvesRef st1 = Wolf.id <$> wolvesRef st)
    as (st1 & k1 & Hst1 & Hids).
  { destruct (geb _ PHASE_DURATION).
    - destruct (advancePhase_step h now (setTimer zero st0) k)
        as (st1 & k1 & Heq & _ & _ & Hids & _).
      by exists st1, k1.
    - by exists st0, k. }
  rewrite (bind_M_ok _ _ _ _ _ Hst1).
  eexists _, _. split; [reflexivity|]. cbn [state].
  case_bool_decide; [|done]. cbn [setWolves wolvesRef]. by rewrite moveWolves_ids.
Qed.

(** **** The initialisation effect *)

Lemma initialWolf_run h i k :
  initialWolf h i k
  = Ok (Wolf.mk i (mul (Math_random h k) CANVAS_SIZE)
                  (mul (Math_random h (S k)) CANVAS_SIZE)
                  (mul (Math_random h k) CANVAS_SIZE)
                  (mul (Math_random h (S k)) CANVAS_SIZE)
                  omega PInf, 4 + k).
Proof. reflexivity. Qed.

(** X8.  The initialisation effect returns for every population size below
    the greatest length of an array, 2^32; it builds one wolf per unit of a
    positive size, with the identifiers 0, 1, ... in array order, every wolf
    an omega with the score +Infinity, on the canvas, and with its target at
    its own position; it draws four random numbers per wolf and starts in
    the EVALUATE phase at iteration 0. *)
Theorem initialize_postcondition h config prey k :
  random_sound h ->
  (populationSize config < ARRAY_LENGTH_LIMIT)%Z ->
  exists st,
    initialize h config prey k
    = Ok (st, 4 * Z.to_nat (populationSize config) + k)
    /\ Wolf.id <$> wolvesRef st = seq 0 (Z.to_nat (populationSize config))
    /\ Forall (fun w => wolfOnCanvas w
                        /\ Wolf.targetX w = Wolf.x w /\ Wolf.targetY w = Wolf.y w
                        /\ Wolf.type w = omega /\ Wolf.score w = PInf)
              (wolvesRef st)
    /\ preyRef st = prey /\ phaseRef st = EVALUATE
    /\ phaseTimerRef st = zero /\ iterationRef st = 0.
Proof.
  intros Hrand Hsize. unfold initialize, initWolves.
  destruct (Z.leb_spec ARRAY_LENGTH_LIMIT (populationSize config)); [lia|].
  destruct (foldlM_push_draws (initialWolf h) (fun _ => True)
              (fun i w => Wolf.id w = i
                          /\ wolfOnCanvas w
                          /\ Wolf.targetX w = Wolf.x w /\ Wolf.targetY w = Wolf.y w
                          /\ Wolf.type w = omega /\ Wolf.score w = PInf)
              4 (seq 0 (Z.to_nat (populationSize config))))
    with (bs := @nil Wolf.t) (k := k) as (ws & Heq & Hall).
  { intros i k0 _. eexists. split; [apply initialWolf_run|].
    cbn [Wolf.id Wolf.x Wolf.y Wolf.targetX Wolf.targetY Wolf.type Wolf.score].
    split; [done|]. split; [|done]. unfold wolfOnCanvas, CANVAS_SIZE.
    cbn [Wolf.x Wolf.y Wolf.targetX Wolf.targetY].
    repeat split; apply scaled_draw_within; done. }
  { by apply Forall_true. }
  rewrite length_seq in Heq. cbn [app] in Heq.
  rewrite (bind_M_ok _ _ _ _ _ Heq). eexists. split; [reflexivity|].
  cbn [wolvesRef preyRef phaseRef phaseTimerRef iterationRef].
  split; [|split; [|done]].
  - apply Forall2_fmap_eq. eapply Forall2_impl; [exact Hall|]. by intros i w [? _].
  - eapply Forall2_Forall_r.
    + eapply Forall2_impl; [exact Hall|]. intros i w [_ Hw]. exact Hw.
    + by apply Forall_true.
Qed.

Lemma initialize_postcondition_witness :
  random_sound exampleHost
  /\ (populationSize (exampleConfig 5) < ARRAY_LENGTH_LIMIT)%Z
  /\ exists st,
       initialize exampleHost (exampleConfig 5)
                  (Point.mk (div CANVAS_SIZE (Fin 2)) (div CANVAS_SIZE (Fin 2))) 0
       = Ok (st, 4 * Z.to_nat (populationSize (exampleConfig 5)) + 0)
       /\ Wolf.id <$> wolvesRef st
          = seq 0 (Z.to_nat (populationSize (exampleConfig 5)))
       /\ Forall (fun w => wolfOnCanvas w
                           /\ Wolf.targetX w = Wolf.x w /\ Wolf.targetY w = Wolf.y w
                           /\ Wolf.type w = omega /\ Wolf.score w = PInf)
                 (wolvesRef st)
       /\ preyRef st = Point.mk (div CANVAS_SIZE (Fin 2)) (div CANVAS_SIZE (Fin 2))
       /\ phaseRef st = EVALUATE
       /\ phaseTimerRef st = zero /\ iterationRef st = 0.
Proof.
  split; [apply exampleHost_random|]. split; [reflexivity|].
  apply (initialize_postcondition exampleHost (exampleConfig 5) _ 0 exampleHost_random).
  reflexivity.
Defined.

(** X9.  In every reachable state the wolves carry the identifiers 0, 1, ...
    in array order: the identifier of a wolf is its position in the array. *)
Theorem reachable_ids h st :
  reachable h st ->
  Wolf.id <$> wolvesRef st = seq 0 (length (wolvesRef st)).
Proof.
  revert st.
  assert (forall config prey k st k',
            initialize h config prey k = Ok (st, k') ->
            Wolf.id <$> wolvesRef st = seq 0 (length (wolvesRef st))) as Hinit.
  { intros config prey k st k' Hi. unfold initialize, initWolves in Hi.
    destruct (Z.leb_spec ARRAY_LENGTH_LIMIT (populationSize config));
      [discriminate Hi|].
    destruct (foldlM_push_draws (initialWolf h) (fun _ => True)
                (fun i w => Wolf.id w = i)
                4 (seq 0 (Z.to_nat (populationSize config))))
      with (bs := @nil Wolf.t) (k := k) as (ws & Heq & Hall).
    { intros i k0 _. eexists. split; [apply initialWolf_run|done]. }
    { by apply Forall_true. }
    cbn [app] in Heq. rewrite (bind_M_ok _ _ _ _ _ Heq) in Hi.
    injection Hi as <- _. cbn [wolvesRef].
    rewrite <- (Forall2_length _ _ _ Hall), length_seq.
    by apply Forall2_fmap_eq. }
  apply (reachable_invariant h
           (fun st => Wolf.id <$> wolvesRef st = seq 0 (length (wolvesRef st)))).
  - intros config k st k'. apply Hinit.
  - intros config st k st' k' _. apply Hinit.
  - done.
  - intros now s k s' k' _ HP Hadv.
    destruct (advancePhase_step h now s k) as (s1 & k1 & Heq & _ & _ & Hids & _).
    rewrite Hadv in Heq. injection Heq as <- <-.
    by rewrite (ids_length _ _ Hids), Hids.
  - intros t s _ HP. cbn [setWolves wolvesRef].
    rewrite moveWolves_ids. unfold moveWolves. by rewrite length_fmap.
Qed.

Lemma reachable_ids_witness :
  reachable exampleHost (exampleGwoState 5 3)
  /\ Wolf.id <$> wolvesRef (exampleGwoState 5 3)
     = seq 0 (length (wolvesRef (exampleGwoState 5 3))).
Proof.
  split; [apply exampleGwoState_reachable|].
  apply (reachable_ids exampleHost _ (exampleGwoState_reachable 5 3)).
Defined.

(** **** Targets and positions *)

Lemma clamp_within v : isNaN v = false -> within (Fin 10) (Fin 590) (clamp v).
Proof.
  intros Hv. unfold clamp, CANVAS_SIZE.
  change (sub (Fin 600) (Fin 10)) with (Fin (600 + - 10)).
  assert (v = NInf \/ v <> NInf) as [->|Hv'] by (destruct v; auto).
  { unfold Math_min, Math_max. cbn [isNaN orb ltb]. apply within_Fin. lra. }
  assert (exists m, Math_min (Fin (600 + - 10)) v = Fin m /\ (m <= 590)%Q)
    as (m & -> & Hm).
  { unfold Math_min. destruct v as [q| | |]; try done; cbn [isNaN orb].
    - destruct (ltb (Fin q) (Fin (600 + - 10))) eqn:E.
      + apply ltb_Fin in E. exists q. split; [done|lra].
      + eexists. split; [done|lra].
    - eexists. split; [done|lra]. }
  unfold Math_max. cbn [isNaN orb]. destruct (ltb (Fin 10) (Fin m)) eqn:E.
  - apply ltb_Fin in E. apply within_Fin. lra.
  - apply within_Fin. lra.
Qed.

Lemma retarget_clamped h it a b d w k :
  random_sound h ->
  finite (Wolf.x a) -> finite (Wolf.y a) -> finite (Wolf.x b) -> finite (Wolf.y b) ->
  finite (Wolf.x d) -> finite (Wolf.y d) -> finite (Wolf.x w) -> finite (Wolf.y w) ->
  exists w', retarget h it a b d w k = Ok (w', 12 + k)
             /\ (retargeted w w' /\ targetClamped w').
Proof.
  intros Hrand ? ? ? ? ? ? ? ?. unfold retarget.
  set (A := sub (Fin 2) (mul (Fin 2) (div (of_nat it) (Fin 1000)))).
  assert (finite A) by (unfold A; auto with finite).
  destruct (computeDim_finite h Hrand A (Wolf.x w) (Wolf.x a) (Wolf.x b) (Wolf.x d) k)
    as (tx & Htx & ?); try done.
  rewrite (bind_M_ok _ _ _ _ _ Htx).
  destruct (computeDim_finite h Hrand A (Wolf.y w) (Wolf.y a) (Wolf.y b) (Wolf.y d)
              (6 + k)) as (ty & Hty & ?); try done.
  rewrite (bind_M_ok _ _ _ _ _ Hty).
  eexists. split; [reflexivity|]. split; [by eexists _, _|].
  unfold targetClamped. cbn [Wolf.setTarget Wolf.targetX Wolf.targetY].
  split; apply clamp_within; [by destruct tx | by destruct ty].
Qed.

Lemma calculate_clamped h it ws k ia a ib b id d :
  random_sound h ->
  Forall (fun w => finite (Wolf.x w) /\ finite (Wolf.y w)) ws ->
  findType alpha ws = Some (ia, a) -> findType beta ws = Some (ib, b) ->
  findType delta ws = Some (id, d) ->
  exists ws',
    calculate h it ws k = Ok (ws', 12 * length ws + k)
    /\ Forall2 (fun w w' => retargeted w w' /\ targetClamped w') ws ws'.
Proof.
  intros Hrand Hfin Ha Hb Hd. unfold calculate. rewrite Ha, Hb, Hd.
  assert (forall ty i w, findType ty ws = Some (i, w) ->
            finite (Wolf.x w) /\ finite (Wolf.y w)) as Hleader.
  { intros ty i w Hw. apply findType_elem in Hw as [Hw _].
    rewrite Forall_forall in Hfin. apply Hfin. by eapply list_elem_of_lookup_2. }
  destruct (Hleader _ _ _ Ha), (Hleader _ _ _ Hb), (Hleader _ _ _ Hd).
  destruct (foldlM_push_draws (retarget h it a b d)
              (fun w => finite (Wolf.x w) /\ finite (Wolf.y w))
              (fun w w' => retargeted w w' /\ targetClamped w')
              12 ws) with (bs := @nil Wolf.t) (k := k) as (ws' & Heq & Hall).
  { intros w k0 [? ?]. by apply retarget_clamped. }
  { exact Hfin. }
  cbn [app] in Heq. by exists ws'.
Qed.

(** X10.  With an alpha, a beta and a delta in a pack whose positions are
    finite, the CALCULATE transition returns after exactly twelve random draws
    per wolf, gives every wolf, the leaders included, a target between 10 and
    590 on both axes, and changes nothing else of any wolf. *)
Theorem calculate_targets_clamped h now st k :
  random_sound h ->
  Forall (fun w => finite (Wolf.x w) /\ finite (Wolf.y w)) (wolvesRef st) ->
  phaseRef st = CALCULATE ->
  is_Some (findType alpha (wolvesRef st)) ->
  is_Some (findType beta (wolvesRef st)) ->
  is_Some (findType delta (wolvesRef st)) ->
  exists st',
    advancePhase h now st k = Ok (st', 12 * length (wolvesRef st) + k)
    /\ phaseRef st' = MOVE_WOLVES
    /\ Forall2 retargeted (wolvesRef st) (wolvesRef st')
    /\ Forall targetClamped (wolvesRef st').
Proof.
  intros Hrand Hfin Hph [[ia a] Ha] [[ib b] Hb] [[id d] Hd].
  destruct (calculate_clamped h (iterationRef st) (wolvesRef st) k
              ia a ib b id d Hrand Hfin Ha Hb Hd) as (ws' & Heq & Hall).
  unfold advancePhase. rewrite Hph. rewrite (bind_M_ok _ _ _ _ _ Heq).
  eexists. split; [reflexivity|]. cbn [phaseRef wolvesRef]. split; [done|]. split.
  - eapply Forall2_impl; [exact Hall|]. by intros w w' [? _].
  - eapply Forall2_Forall_r.
    + eapply Forall2_impl; [exact Hall|]. intros w w' [_ Hw]. exact Hw.
    + by apply Forall_true.
Qed.

Lemma lerp_within lo hi a b t :
  within (Fin lo) (Fin hi) a -> within (Fin lo) (Fin hi) b ->
  within (Fin 0) (Fin 1) t -> within (Fin lo) (Fin hi) (lerp a b t).
Proof.
  intros Ha Hb Ht.
  apply within_inv in Ha as (qa & -> & Ha). apply within_inv in Hb as (qb & -> & Hb).
  apply within_inv in Ht as (qt & -> & Ht).
  unfold lerp, one. cbn [sub add neg mul]. apply within_Fin. split; nra.
Qed.

Lemma moveSpeed_within config :
  (0 <= speed config <= 100)%Z ->
  within (Fin (1 # 100)) (Fin (5 # 100)) (moveSpeed config).
Proof.
  intros [H0 H1]. unfold moveSpeed, speedMultiplier, of_Z, div.
  replace (Qeq_bool 100 0) with false by done. cbn [mul add].
  apply within_Fin.
  rewrite Zle_Qle in H0, H1. change (inject_Z 0) with 0%Q in H0.
  change (inject_Z 100) with 100%Q in H1.
  set (z := inject_Z (speed config)) in *. clearbody z.
  assert (z / 100 == z * (1 # 100))%Q as E by (unfold Qdiv; reflexivity).
  rewrite E. split; lra.
Qed.

Lemma retargeted_near_canvas w w' :
  retargeted w w' -> targetClamped w' -> wolfNearCanvas w -> wolfNearCanvas w'.
Proof.
  intros (tx & ty & ->) [Hx Hy] (? & ? & _ & _). unfold wolfNearCanvas.
  cbn [Wolf.setTarget Wolf.x Wolf.y Wolf.targetX Wolf.targetY] in *.
  split; [done|]. split; [done|]. unfold zero, CANVAS_SIZE.
  split; apply (within_weaken 10 590); (lra || done).
Qed.

Lemma wolfNearCanvas_finite w :
  wolfNearCanvas w -> finite (Wolf.x w) /\ finite (Wolf.y w).
Proof. intros (Hx & Hy & _). split; by eapply within_finite. Qed.

Lemma wolfOnCanvas_near w : wolfOnCanvas w -> wolfNearCanvas w.
Proof.
  intros (Hx & Hy & Htx & Hty). unfold wolfNearCanvas, zero, CANVAS_SIZE in *.
  split; [apply (within_weaken 0 600); (lra || done)|].
  split; [apply (within_weaken 0 600); (lra || done)|]. by split.
Qed.

Lemma advancePhase_near_canvas h now st k st' k' :
  random_sound h -> Forall wolfNearCanvas (wolvesRef st) ->
  advancePhase h now st k = Ok (st', k') -> Forall wolfNearCanvas (wolvesRef st').
Proof.
  intros Hrand Hall. unfold advancePhase. destruct (phaseRef st) eqn:Hph.
  - by intros [= <- <-].
  - intros [= <- <-]. cbn [wolvesRef]. apply Forall_fmap.
    eapply Forall_impl; [exact Hall|]. by intros w.
  - intros [= <- <-]. cbn [wolvesRef].
    apply rank_Forall; [by intros ty w _|by intros w|done].
  - intros Hadv. apply bind_M_inv in Hadv as (ws & k1 & Hcalc & Hadv).
    injection Hadv as <- <-. cbn [wolvesRef].
    assert (Forall (fun w => finite (Wolf.x w) /\ finite (Wolf.y w)) (wolvesRef st))
      as Hfin.
    { eapply Forall_impl; [exact Hall|]. apply wolfNearCanvas_finite. }
    destruct (findType alpha (wolvesRef st)) as [[ia a]|] eqn:Ea;
      [|unfold calculate in Hcalc; rewrite Ea in Hcalc; by injection Hcalc as <- <-].
    destruct (findType beta (wolvesRef st)) as [[ib b]|] eqn:Eb;
      [|unfold calculate in Hcalc; rewrite Ea, Eb in Hcalc;
        by injection Hcalc as <- <-].
    destruct (findType delta (wolvesRef st)) as [[id d]|] eqn:Ed;
      [|unfold calculate in Hcalc; rewrite Ea, Eb, Ed in Hcalc;
        by injection Hcalc as <- <-].
    destruct (calculate_clamped h (iterationRef st) (wolvesRef st) k
                ia a ib b id d Hrand Hfin Ea Eb Ed) as (ws' & Heq & Hret).
    rewrite Hcalc in Heq. injection Heq as <- _.
    apply Forall_lookup. intros i w' Hw'.
    destruct (Forall2_lookup_r _ _ _ _ _ Hret Hw') as (w & Hw & Hr & Hcl).
    eapply retargeted_near_canvas; [exact Hr|exact Hcl|].
    rewrite Forall_lookup in Hall. by eapply Hall.
  - by intros [= <- <-].
Qed.

(** X11.  At a speed between 0 and 100, the range the slider of the
    application stays in, a frame that starts with every target on the canvas
    and every wolf within one pixel of the canvas ends so: the targets are
    those of before or clamped ones, and the interpolation moves a wolf
    towards its target by a factor between 0.01 and 0.05. *)
Theorem frame_keeps_near_canvas h config ctx now st k fr k' :
  random_sound h -> (0 <= speed config <= 100)%Z ->
  Forall wolfNearCanvas (wolvesRef st) ->
  animate h config ctx now st k = Ok (fr, k') ->
  Forall wolfNearCanvas (wolvesRef (state fr)).
Proof.
  intros Hrand Hspeed Hall Hfr.
  destruct (isRunning config) eqn:Hr; [destruct ctx|];
    [|rewrite gwo_animate_idle in Hfr by auto; by injection Hfr as <- <-..].
  unfold animate in Hfr. rewrite Hr in Hfr. cbn [negb] in Hfr.
  apply bind_M_inv in Hfr as (st1 & k1 & Hst1 & Hfr).
  injection Hfr as <- <-. cbn [state].
  assert (Forall wolfNearCanvas (wolvesRef st1)) as Hall1.
  { destruct (geb _ PHASE_DURATION).
    - eapply advancePhase_near_canvas; [exact Hrand| |exact Hst1]. exact Hall.
    - by injection Hst1 as <- <-. }
  case_bool_decide; [|done]. cbn [setWolves wolvesRef].
  assert (within (Fin 0) (Fin 1) (moveSpeed config)) as Ht.
  { apply (within_weaken (1 # 100) (5 # 100)); [lra|lra|].
    by apply moveSpeed_within. }
  unfold moveWolves. apply Forall_fmap. eapply Forall_impl; [exact Hall1|].
  intros w (Hx & Hy & Htx & Hty). unfold wolfNearCanvas.
  cbn [Wolf.setPos Wolf.x Wolf.y Wolf.targetX Wolf.targetY].
  unfold zero, CANVAS_SIZE in *.
  assert (forall v, within (Fin 0) (Fin 600) v -> within (Fin (-1)) (Fin 601) v)
    as Hweak by (intros v Hv; apply (within_weaken 0 600); (lra || done)).
  split; [apply (lerp_within (-1) 601 _ _ (moveSpeed config)); auto|].
  split; [apply (lerp_within (-1) 601 _ _ (moveSpeed config)); auto|]. by split.
Qed.

Lemma calculate_targets_clamped_witness :
  random_sound exampleHost
  /\ Forall (fun w => finite (Wolf.x w) /\ finite (Wolf.y w))
            (wolvesRef (exampleGwoState 5 300))
  /\ phaseRef (exampleGwoState 5 300) = CALCULATE
  /\ is_Some (findType alpha (wolvesRef (exampleGwoState 5 300)))
  /\ is_Some (findType beta (wolvesRef (exampleGwoState 5 300)))
  /\ is_Some (findType delta (wolvesRef (exampleGwoState 5 300)))
  /\ exists st',
       advancePhase exampleHost zero (exampleGwoState 5 300) 20
       = Ok (st', 12 * length (wolvesRef (exampleGwoState 5 300)) + 20)
       /\ phaseRef st' = MOVE_WOLVES
       /\ Forall2 retargeted (wolvesRef (exampleGwoState 5 300)) (wolvesRef st')
       /\ Forall targetClamped (wolvesRef st').
Proof.
  split; [apply exampleHost_random|].
  split; [vm_compute; repeat constructor|].
  split; [by vm_compute|].
  split; [vm_compute; by eexists|].
  split; [vm_compute; by eexists|].
  split; [vm_compute; by eexists|].
  apply (calculate_targets_clamped exampleHost zero (exampleGwoState 5 300) 20
           exampleHost_random).
  - vm_compute; repeat constructor.
  - by vm_compute.
  - vm_compute; by eexists.
  - vm_compute; by eexists.
  - vm_compute; by eexists.
Defined.

Lemma frame_keeps_near_canvas_witness :
  random_sound exampleHost /\ (0 <= speed (exampleConfig 5) <= 100)%Z
  /\ Forall wolfNearCanvas (wolvesRef (exampleGwoState 5 450))
  /\ phaseRef (exampleGwoState 5 450) = MOVE_WOLVES
  /\ exists fr k',
       animate exampleHost (exampleConfig 5) true zero (exampleGwoState 5 450) 20
       = Ok (fr, k')
       /\ Wolf.x <$> wolvesRef (state fr)
          <> Wolf.x <$> wolvesRef (exampleGwoState 5 450)
       /\ Forall wolfNearCanvas (wolvesRef (state fr)).
Proof.
  split; [apply exampleHost_random|]. split; [by compute|].
  split; [vm_compute; repeat constructor|].
  split; [by vm_compute|].
  eexists _, _. split; [vm_compute; reflexivity|]. split.
  - vm_compute. intros H; injection H as H _. discriminate H.
  - eapply (frame_keeps_near_canvas exampleHost (exampleConfig 5) true zero
              (exampleGwoState 5 450) 20 _ _ exampleHost_random).
    + by compute.
    + vm_compute; repeat constructor.
    + vm_compute; reflexivity.
Defined.


(** **** The leader of the pack *)

(** X12.  From the EVALUATE phase, two phase transitions score every wolf with
    its distance to the prey and rank the pack: in a pack of at least three
    wolves the first alpha of the array is then a wolf nearest to the prey,
    and no random number has been drawn. *)
Theorem leader_is_nearest h now st k :
  sqrt_sound h -> wellFormed st ->
  phaseRef st = EVALUATE -> 3 <= length (wolvesRef st) ->
  exists st',
    advanceTimes h 2 now st k = Ok (st', k)
    /\ phaseRef st' = CALCULATE /\ preyRef st' = preyRef st
    /\ exists i a,
         findType alpha (wolvesRef st') = Some (i, a)
         /\ forall w, w ∈ wolvesRef st' ->
              Wolf.score w = preyDistance h st w
              /\ leb (preyDistance h st a) (preyDistance h st w) = true.
Proof.
  intros Hsqrt (Hok & Hpx & Hpy) Hph Hn.
  set (ev := fun w => Wolf.setScore
                        (distance h (Wolf.x w) (Wolf.y w)
                                  (Point.x (preyRef st)) (Point.y (preyRef st))) w).
  set (ws1 := ev <$> wolvesRef st).
  set (s1 := {| wolvesRef := ws1; preyRef := preyRef st; phaseRef := RANK;
                phaseTimerRef := phaseTimerRef st; iterationRef := iterationRef st |}).
  assert (advancePhase h now st k = Ok (s1, k)) as E1
    by (unfold advancePhase; by rewrite Hph).
  cbn [advanceTimes]. rewrite (bind_M_ok _ _ _ _ _ E1).
  exists {| wolvesRef := rank ws1; preyRef := preyRef st; phaseRef := CALCULATE;
            phaseTimerRef := phaseTimerRef st; iterationRef := iterationRef st |}.
  split; [reflexivity|]. cbn [phaseRef preyRef wolvesRef].
  split; [done|]. split; [done|].
  assert (forall i w1, ws1 !! i = Some w1 ->
            Wolf.score w1 = preyDistance h st w1 /\ isNaN (Wolf.score w1) = false)
    as Hscore.
  { intros i w1 Hw1. unfold ws1 in Hw1.
    apply list_lookup_fmap_Some in Hw1 as (w & -> & Hw).
    split; [done|]. apply nonneg_fin_defined. unfold ev. cbn [Wolf.setScore Wolf.score].
    rewrite Forall_lookup in Hok. destruct (Hok i w Hw) as (? & ? & _).
    by apply gwo_distance_nonneg. }
  assert (length ws1 = length (wolvesRef st)) as Hlen
    by (unfold ws1; by rewrite length_fmap).
  destruct (rank_spec ws1) as
    (a & b & d & Hab & Had & Hbd & Ha & Hb & Hd & Hlook & Hsab & Hsbd & Hrest).
  { by rewrite Hlen. }
  { apply Forall_lookup. intros i w1 Hw1. by apply (Hscore i w1). }
  destruct (lookup_lt_is_Some_2 ws1 a Ha) as [wa Hwa].
  exists a, (Wolf.setType alpha wa). split.
  - unfold findType. apply list_find_Some. split; [|split; [done|]].
    + rewrite (Hlook a wa Hwa). by rewrite decide_True.
    + intros j y Hy Hj.
      assert (j < length ws1) as Hj'
        by (rewrite <- (rank_length ws1); by eapply lookup_lt_Some).
      destruct (lookup_lt_is_Some_2 ws1 j Hj') as [wj Hwj].
      rewrite (Hlook j wj Hwj) in Hy. injection Hy as <-.
      rewrite decide_False by lia. cbn [Wolf.setType Wolf.type].
      repeat case_decide; done.
  - intros w Hw. apply list_elem_of_lookup in Hw as [i Hw].
    assert (i < length ws1) as Hi
      by (rewrite <- (rank_length ws1); by eapply lookup_lt_Some).
    destruct (lookup_lt_is_Some_2 ws1 i Hi) as [wi Hwi].
    rewrite (Hlook i wi Hwi) in Hw. injection Hw as <-.
    destruct (Hscore i wi Hwi) as [Hsi Hni]. destruct (Hscore a wa Hwa) as [Hsa Hna].
    change (preyDistance h st (Wolf.setType alpha wa)) with (preyDistance h st wa).
    match goal with
    | |- context [Wolf.setType ?ty wi] =>
        change (preyDistance h st (Wolf.setType ty wi)) with (preyDistance h st wi);
        change (Wolf.score (Wolf.setType ty wi)) with (Wolf.score wi)
    end.
    split; [done|]. rewrite <- Hsa, <- Hsi.
    rewrite <- (scoreAt_lookup _ _ _ Hwa), <- (scoreAt_lookup _ _ _ Hwi).
    destruct (decide (i = a)) as [->|Hia].
    { apply leb_refl. by rewrite (scoreAt_lookup _ _ _ Hwa). }
    destruct (decide (i = b)) as [->|Hib]; [done|].
    destruct (decide (i = d)) as [->|Hid]; [by eapply leb_trans|].
    eapply leb_trans; [exact Hsab|]. eapply leb_trans; [exact Hsbd|].
    by apply Hrest.
Qed.

Lemma leader_is_nearest_witness :
  sqrt_sound exampleHost /\ wellFormed (exampleGwoState 5 0)
  /\ phaseRef (exampleGwoState 5 0) = EVALUATE
  /\ 3 <= length (wolvesRef (exampleGwoState 5 0))
  /\ exists st',
       advanceTimes exampleHost 2 zero (exampleGwoState 5 0) 20 = Ok (st', 20)
       /\ phaseRef st' = CALCULATE.
Proof.
  assert (wellFormed (exampleGwoState 5 0)) as Hwf.
  { apply (reachable_wellFormed exampleHost exampleHost_random exampleHost_sqrt
             exampleHost_trig), exampleGwoState_reachable. }
  split; [apply exampleHost_sqrt|]. split; [exact Hwf|].
  split; [by vm_compute|]. split; [vm_compute; lia|].
  destruct (leader_is_nearest exampleHost zero (exampleGwoState 5 0) 20
              exampleHost_sqrt Hwf)
    as (st' & Heq & Hph & _); [by vm_compute | vm_compute; lia |].
  exists st'. by split.
Defined.

(** **** Rendering *)

(** X13.  [draw] paints every wolf exactly once, and every omega before every
    leader, so that the leaders lie on top. *)
Theorem draw_order_complete ws :
  drawOrder ws ≡ₚ ws
  /\ forall i j w w',
       drawOrder ws !! i = Some w -> drawOrder ws !! j = Some w' ->
       Wolf.type w = omega -> Wolf.type w' <> omega -> i < j.
Proof.
  unfold drawOrder. split.
  - rewrite reverse_Permutation. apply filter_app_complement.
  - intros i j w w' Hw Hw' Hty Hty'.
    apply lookup_app_Some in Hw as [Hw|[_ Hw]].
    + apply lookup_lt_Some in Hw as Hi.
      apply lookup_app_Some in Hw' as [Hw'|[Hj _]]; [|lia].
      apply list_elem_of_lookup_2, list_elem_of_filter in Hw' as [? _]. done.
    + apply list_elem_of_lookup_2, elem_of_reverse, list_elem_of_filter in Hw
        as [? _]. done.
Qed.

(** **** The prey *)

(** X14.  With a cosine and a sine between -1 and 1, the prey of every
    reachable state is at most 150 from the centre of the canvas on the x axis
    and at most 80 on the y axis, whatever the clock says. *)
Theorem prey_stays_in_box h st :
  trig_bounded h -> reachable h st -> preyInBox (preyRef st).
Proof.
  intros Htrig. revert st.
  assert ((600 / 2 == 300)%Q) as E by reflexivity.
  assert (preyInBox (Point.mk (div CANVAS_SIZE (Fin 2)) (div CANVAS_SIZE (Fin 2))))
    as Hcentre.
  { unfold preyInBox, CANVAS_SIZE, div. replace (Qeq_bool 2 0) with false by done.
    cbn [Point.x Point.y]. rewrite !within_Fin, E. lra. }
  apply (reachable_invariant h (fun st => preyInBox (preyRef st))).
  - intros config k st k' Hm. unfold mount, initialize in Hm.
    apply bind_M_inv in Hm as (ws & k1 & _ & Hm). by injection Hm as <- <-.
  - intros config st k st' k' HP Hi. unfold initialize in Hi.
    apply bind_M_inv in Hi as (ws & k1 & _ & Hi). by injection Hi as <- <-.
  - done.
  - intros now s k s' k' _ HP. unfold advancePhase. destruct (phaseRef s).
    + intros [= <- <-]. cbn [preyRef].
      destruct (Htrig (mul now (Fin (5 # 10000)))) as [Hc _].
      destruct (Htrig (mul (mul now (Fin (5 # 10000))) (Fin 2))) as [_ Hs].
      apply within_inv in Hc as (c & -> & Hc). apply within_inv in Hs as (sn & -> & Hs).
      unfold preyInBox, CANVAS_SIZE, div. replace (Qeq_bool 2 0) with false by done.
      cbn [Point.x Point.y mul add]. rewrite !within_Fin, E. lra.
    + by intros [= <- <-].
    + by intros [= <- <-].
    + intros Hadv. apply bind_M_inv in Hadv as (ws & k1 & _ & Hadv).
      by injection Hadv as <- <-.
    + by intros [= <- <-].
  - done.
Qed.

Lemma prey_stays_in_box_witness :
  trig_bounded exampleHost /\ reachable exampleHost (exampleGwoState 5 3)
  /\ preyInBox (preyRef (exampleGwoState 5 3)).
Proof.
  split; [apply exampleHost_trig_bounded|].
  split; [apply exampleGwoState_reachable|].
  apply (prey_stays_in_box exampleHost (exampleGwoState 5 3)
           exampleHost_trig_bounded (exampleGwoState_reachable 5 3)).
Defined.

End GwoInvariants.

(** *** Bees engine *)

Module BeesInvariants.
Import Bees BeesTheory.

(** The sort of the frame orders by decreasing score. *)
Section SortDescending.
Context {A : Type} (key : A -> num).

Lemma insertSorted_descending a l :
  isNaN (key a) = false -> Forall (fun b => isNaN (key b) = false) l ->
  StronglySorted (keyGe key) l ->
  StronglySorted (keyGe key) (insertSorted (fun a b => sub (key b) (key a)) a l).
Proof.
  intros Ha Hl Hs. induction Hs as [|b l Hs IH Hb]; cbn [insertSorted].
  - by repeat constructor.
  - apply Forall_cons in Hl as [Hkb Hl].
    rewrite difference_positive by done.
    destruct (ltb (key a) (key b)) eqn:E.
    + constructor; [by apply IH|].
      rewrite insertSorted_perm. constructor; [|done]. by apply ltb_leb.
    + assert (keyGe key a b) as Hab by (by apply ltb_false_leb).
      constructor; [by constructor|]. constructor; [done|].
      eapply Forall_impl; [exact Hb|]. intros c Hc. unfold keyGe in *.
      by eapply leb_trans.
Qed.

Lemma sort_descending l :
  Forall (fun b => isNaN (key b) = false) l ->
  StronglySorted (keyGe key) (sort (fun a b => sub (key b) (key a)) l).
Proof.
  induction 1 as [|a l Ha Hl IH]; cbn [sort].
  - constructor.
  - apply insertSorted_descending; [done| |done]. by rewrite sort_perm.
Qed.

End SortDescending.

(** **** The best fitness *)

Lemma frame_best h config ctx st k fr k' :
  animate h config ctx st k = Ok (fr, k') ->
  bestRef (state fr) = bestRef st
  \/ (ltb (bestRef st) (bestRef (state fr)) = true
      /\ exists b, b ∈ beesRef st /\ bestRef (state fr) = fitnessOf h b).
Proof.
  unfold animate. destruct (isRunning config); cbn [negb];
    [|intros [= <- <-]; by left].
  destruct ctx; cbn [negb]; [|intros [= <- <-]; by left].
  intros Hfr. apply bind_M_inv in Hfr as (top & k0 & Htop & Hfr). cbv zeta in Hfr.
  apply bind_M_inv in Hfr as (bs1 & k1 & _ & Hfr).
  apply bind_M_inv in Hfr as (bs2 & k2 & _ & Hfr).
  apply bind_M_inv in Hfr as (bs3 & k3 & _ & Hfr).
  injection Hfr as <- <-. cbn [state bestRef setIteration].
  destruct (gtb (score top) (bestRef st)) eqn:E; [right|by left].
  split; [done|].
  apply pure_inv in Htop as [Htop _]. apply defined_inv in Htop.
  apply list_elem_of_lookup_2 in Htop. rewrite sort_perm in Htop.
  apply list_elem_of_fmap in Htop as (b & -> & Hb). by exists b.
Qed.

Lemma initialize_inv h config k st k' :
  initialize h config k = Ok (st, k') ->
  bestRef st = zero /\ iterationRef st = 0
  /\ exists bs,
       foldlM (fun bs (_ : nat) => b ← scout h; mret (bs ++ [b]))
              [] (seq 0 (Z.to_nat (populationSize config))) k = Ok (bs, k')
       /\ beesRef st = bs.
Proof.
  unfold initialize.
  destruct ((populationSize config <? 0)%Z
            || (ARRAY_LENGTH_LIMIT <=? populationSize config)%Z); [done|].
  intros Hi. apply bind_M_inv in Hi as (bs & k1 & Hbs & Hi).
  injection Hi as <- <-. repeat split. by exists bs.
Qed.

(** A frame that throws has raised the best fitness or left it. *)
Lemma thrown_best h st :
  bestRef (thrown h st) = bestRef st
  \/ (ltb (bestRef st) (bestRef (thrown h st)) = true
      /\ exists b, b ∈ beesRef st /\ bestRef (thrown h st) = fitnessOf h b).
Proof.
  unfold thrown. cbn [bestRef].
  set (scoredBees := sort _ _).
  destruct (scoredBees !! 0) as [top|] eqn:Htop; [|by left].
  destruct (gtb (score top) (bestRef st)) eqn:E; [right|by left].
  split; [done|].
  apply list_elem_of_lookup_2 in Htop. unfold scoredBees in Htop.
  rewrite sort_perm in Htop.
  apply list_elem_of_fmap in Htop as (b & -> & Hb). by exists b.
Qed.

(** X15.  The best fitness found never decreases.  In every state that the
    engine reaches, whatever the population sizes that the closures of its
    frames have read, it is a number not below its initial value 0; a frame
    that returns leaves it or makes it strictly greater, and so does a frame
    that throws. *)
Theorem best_never_decreases h st :
  reachable h st ->
  leb zero (bestRef st) = true
  /\ (forall config ctx k fr k',
        animate h config ctx st k = Ok (fr, k') ->
        leb (bestRef st) (bestRef (state fr)) = true
        /\ (bestRef (state fr) = bestRef st
            \/ ltb (bestRef st) (bestRef (state fr)) = true))
  /\ leb (bestRef st) (bestRef (thrown h st)) = true
  /\ (bestRef (thrown h st) = bestRef st
      \/ ltb (bestRef st) (bestRef (thrown h st)) = true).
Proof.
  intros Hreach.
  assert (forall st config ctx k fr k',
            leb zero (bestRef st) = true ->
            animate h config ctx st k = Ok (fr, k') ->
            leb (bestRef st) (bestRef (state fr)) = true) as Hstep.
  { intros st0 config ctx k fr k' H0 Hfr.
    destruct (frame_best _ _ _ _ _ _ _ Hfr) as [-> | [Hlt _]]; [|by apply ltb_leb].
    apply leb_refl. by destruct (bestRef st0). }
  assert (forall st, leb zero (bestRef st) = true ->
            leb (bestRef st) (bestRef (thrown h st)) = true) as Hthrown.
  { intros st0 H0.
    destruct (thrown_best h st0) as [-> | [Hlt _]]; [|by apply ltb_leb].
    apply leb_refl. by destruct (bestRef st0). }
  assert (leb zero (bestRef st) = true) as H0.
  { induction Hreach as [config k st k' Hinit
                        |config ctx st k fr k' _ IH Hfr
                        |config ctx st k e _ IH _].
    - apply initialize_inv in Hinit as (-> & _). done.
    - eapply leb_trans; [exact IH|]. by eapply Hstep.
    - eapply leb_trans; [exact IH|]. by apply Hthrown. }
  split; [exact H0|]. split; [|split].
  - intros config ctx k fr k' Hfr. split; [by eapply Hstep|].
    destruct (frame_best _ _ _ _ _ _ _ Hfr) as [? | [? _]]; [by left|by right].
  - by apply Hthrown.
  - destruct (thrown_best h st) as [? | [? _]]; [by left|by right].
Qed.

Lemma best_never_decreases_witness :
  reachable exampleHost staleBeesState
  /\ leb zero (bestRef staleBeesState) = true.
Proof.
  split; [exact staleBeesState_reachable|].
  destruct (best_never_decreases exampleHost staleBeesState staleBeesState_reachable)
    as [H0 _].
  exact H0.
Defined.

(** **** A population without bees *)

(** X16.  With the population size 0 the initialisation effect succeeds,
    without a bee and without a random draw, and the first running frame with
    a drawing context then throws a TypeError, reading the score of the best
    bee of an empty array. *)
Theorem zero_bees_first_frame_throws h config k :
  populationSize config = 0%Z -> isRunning config = true ->
  exists st,
    initialize h config k = Ok (st, k)
    /\ beesRef st = []
    /\ animate h config true st k = Err TypeError.
Proof.
  intros Hn Hrun. unfold initialize. rewrite Hn.
  change ((0 <? 0)%Z || (ARRAY_LENGTH_LIMIT <=? 0)%Z) with false.
  cbn [Z.to_nat seq foldlM].
  eexists. split; [reflexivity|]. split; [done|].
  unfold animate. by rewrite Hrun.
Qed.

Lemma zero_bees_first_frame_throws_witness :
  populationSize (exampleConfig 0) = 0%Z /\ isRunning (exampleConfig 0) = true
  /\ exists st,
       initialize exampleHost (exampleConfig 0) 0 = Ok (st, 0)
       /\ beesRef st = []
       /\ animate exampleHost (exampleConfig 0) true st 0 = Err TypeError.
Proof.
  split; [reflexivity|]. split; [reflexivity|].
  apply (zero_bees_first_frame_throws exampleHost (exampleConfig 0) 0 eq_refl eq_refl).
Defined.

(** **** Bees on the canvas *)

Lemma bees_clamp_within v :
  isNaN v = false -> within zero CANVAS_SIZE (clamp v).
Proof.
  intros Hv. unfold clamp, CANVAS_SIZE, zero.
  assert (v = NInf \/ v <> NInf) as [->|Hv'] by (destruct v; auto).
  { unfold Math_min, Math_max. cbn [isNaN orb ltb]. apply within_Fin. lra. }
  assert (exists m, Math_min (Fin 600) v = Fin m /\ (m <= 600)%Q) as (m & -> & Hm).
  { unfold Math_min. destruct v as [q| | |]; try done; cbn [isNaN orb].
    - destruct (ltb (Fin q) (Fin 600)) eqn:E.
      + apply ltb_Fin in E. exists q. split; [done|lra].
      + eexists. split; [done|lra].
    - eexists. split; [done|lra]. }
  unfold Math_max. cbn [isNaN orb]. destruct (ltb (Fin 0) (Fin m)) eqn:E.
  - apply ltb_Fin in E. apply within_Fin. lra.
  - apply within_Fin. lra.
Qed.

Lemma beeOnCanvas_finite p :
  beeOnCanvas p -> finite (Point.x p) /\ finite (Point.y p).
Proof. intros [Hx Hy]. split; by eapply within_finite. Qed.

Lemma neighbor_on_canvas h q s k p k' :
  random_sound h -> beeOnCanvas (pos s) ->
  neighbor h (Fin q) s k = Ok (p, k') -> beeOnCanvas p.
Proof.
  intros Hrand Hs. apply beeOnCanvas_finite in Hs as [Hx Hy].
  cbv [neighbor mbind M_bind random mret M_ret]. intros [= <- <-].
  pose proof (finite_unit _ (Hrand k)). pose proof (finite_unit _ (Hrand (S k))).
  split; cbn [Point.x Point.y]; apply bees_clamp_within.
  - assert (finite (add (Point.x (pos s))
                        (mul (sub (Math_random h k) (Fin (1 # 2))) (Fin q))))
      as Hf by auto with finite.
    by destruct (add _ _).
  - assert (finite (add (Point.y (pos s))
                        (mul (sub (Math_random h (S k)) (Fin (1 # 2))) (Fin q))))
      as Hf by auto with finite.
    by destruct (add _ _).
Qed.

Lemma scout_on_canvas h k p k' :
  random_sound h -> scout h k = Ok (p, k') -> beeOnCanvas p.
Proof.
  intros Hrand. rewrite scout_run. intros [= <- <-].
  split; cbn [Point.x Point.y]; unfold CANVAS_SIZE; by apply scaled_draw_within.
Qed.

Lemma scouting_on_canvas h (l : list nat) bs k bs' k' :
  random_sound h -> Forall beeOnCanvas bs ->
  foldlM (fun bs (_ : nat) => b ← scout h; mret (bs ++ [b])) bs l k = Ok (bs', k') ->
  Forall beeOnCanvas bs'.
Proof.
  intros Hrand Hbs. revert Hbs. apply foldlM_M_partial.
  intros s _ k0 s' k0' Hs _ Hstep.
  apply bind_M_inv in Hstep as (b & k1 & Hb & Hstep). injection Hstep as <- <-.
  apply Forall_app. split; [done|]. constructor; [|done]. by eapply scout_on_canvas.
Qed.

Lemma frame_on_canvas h config ctx st k fr k' :
  random_sound h -> Forall beeOnCanvas (beesRef st) ->
  animate h config ctx st k = Ok (fr, k') -> Forall beeOnCanvas (beesRef (state fr)).
Proof.
  intros Hrand Hall. unfold animate. destruct (isRunning config); cbn [negb];
    [|by intros [= <- <-]].
  destruct ctx; cbn [negb]; [|by intros [= <- <-]].
  cbn [setIteration beesRef bestRef iterationRef].
  set (scoredBees := sort _ _).
  assert (Forall (fun s => beeOnCanvas (pos s)) scoredBees) as Hscored.
  { unfold scoredBees. rewrite sort_perm. apply Forall_fmap.
    eapply Forall_impl; [exact Hall|]. by intros b. }
  intros Hfr. apply bind_M_inv in Hfr as (top & k0 & _ & Hfr). cbv zeta in Hfr.
  apply bind_M_inv in Hfr as (bs1 & k1 & H1 & Hfr).
  apply bind_M_inv in Hfr as (bs2 & k2 & H2 & Hfr).
  apply bind_M_inv in Hfr as (bs3 & k3 & H3 & Hfr).
  injection Hfr as <- <-. cbn [state beesRef].
  assert (Forall beeOnCanvas bs1) as Hbs1.
  { revert H1. unfold eliteSites. apply foldlM_M_partial; [|done].
    intros bs i ka bs' kb Hbs _ Hstep.
    apply bind_M_inv in Hstep as (s & kc & Hs & Hstep).
    apply bind_M_inv in Hstep as (p & kd & Hp & Hstep). injection Hstep as <- <-.
    assert (beeOnCanvas (pos s)) as Hs'.
    { apply pure_inv in Hs as [Hs _]. apply defined_inv in Hs.
      rewrite Forall_lookup in Hscored. by eapply Hscored. }
    apply Forall_app. split; [apply Forall_app; split; [done|]|].
    - constructor; [|done]. by destruct Hs'.
    - constructor; [|done]. by eapply neighbor_on_canvas. }
  assert (Forall beeOnCanvas bs2) as Hbs2.
  { revert H2. unfold otherSites. apply foldlM_M_partial; [|done].
    intros bs i ka bs' kb Hbs _ Hstep.
    destruct (Z.of_nat (length bs) <? populationSize config)%Z;
      [|by injection Hstep as <- <-].
    apply bind_M_inv in Hstep as (s & kc & Hs & Hstep).
    apply bind_M_inv in Hstep as (p & kd & Hp & Hstep). injection Hstep as <- <-.
    assert (beeOnCanvas (pos s)) as Hs'.
    { apply pure_inv in Hs as [Hs _]. apply defined_inv in Hs.
      rewrite Forall_lookup in Hscored. by eapply Hscored. }
    apply Forall_app. split; [done|]. constructor; [|done].
    by eapply neighbor_on_canvas. }
  assert (Forall beeOnCanvas bs3) as Hbs3
    by (by eapply scouting_on_canvas).
  unfold slice0. case_match; by apply Forall_take.
Qed.

(** X17.  With random draws in [0, 1), every bee of every state that the
    engine reaches, whatever the population sizes that the closures of its
    frames have read, lies on the canvas: both coordinates are between 0 and
    the canvas size. *)
Theorem bees_stay_on_canvas h st :
  random_sound h -> reachable h st -> Forall beeOnCanvas (beesRef st).
Proof.
  intros Hrand Hreach.
  induction Hreach as [config k st k' Hinit
                      |config ctx st k fr k' _ IH Hfr
                      |config ctx st k e _ IH _].
  - apply initialize_inv in Hinit as (_ & _ & bs & Hbs & ->).
    by eapply scouting_on_canvas.
  - by eapply frame_on_canvas.
  - exact IH.
Qed.

Lemma bees_stay_on_canvas_witness :
  random_sound exampleHost /\ reachable exampleHost staleBeesState
  /\ Forall beeOnCanvas (beesRef staleBeesState).
Proof.
  split; [apply exampleHost_random|]. split; [exact staleBeesState_reachable|].
  apply (bees_stay_on_canvas exampleHost staleBeesState
           exampleHost_random staleBeesState_reachable).
Defined.

(** **** The elite site *)

Lemma nonneg_fin_finite a : nonneg_fin a -> finite a.
Proof. by destruct a. Qed.

Lemma getFitness_finite h x y :
  sqrt_sound h -> exp_sound h -> finite x -> finite y ->
  finite (getFitness h x y).
Proof.
  intros Hsqrt Hexp Hx Hy. unfold getFitness, CANVAS_SIZE.
  assert (forall a b, finite a -> finite b ->
            finite (Math_sqrt h (add (Math_pow a 2) (Math_pow b 2)))) as Hd.
  { intros a b Ha Hb. apply nonneg_fin_finite, Hsqrt.
    apply nonneg_fin_add; by apply square_nonneg. }
  assert (forall d q, Qeq_bool q 0 = false -> finite d ->
            finite (mul (Fin q) (Math_exp h (div (neg d) (Fin q))))) as Hv.
  { intros d q Hq Hfd. apply finite_mul; [done|]. apply Hexp.
    apply finite_div; [done|]. by destruct d. }
  assert (finite (div (Fin 600) (Fin 2))) as Hc by done.
  set (c := div (Fin 600) (Fin 2)) in *. clearbody c.
  apply finite_add; [apply finite_add|]; apply Hv; try reflexivity; apply Hd.
  - by apply finite_sub.
  - by apply finite_sub.
  - apply finite_add; [by apply finite_sub|done].
  - apply finite_sub; [by apply finite_sub|done].
  - apply finite_sub; [by apply finite_sub|done].
  - apply finite_add; [by apply finite_sub|done].
Qed.

Lemma floorOf_elite n : (5 <= n)%Z -> (1 <= floorOf n (2 # 10))%Z.
Proof.
  intros Hn. unfold floorOf. change 1%Z with (Qfloor 1).
  apply Qfloor_resp_le. rewrite Zle_Qle in Hn. change (inject_Z 5) with 5%Q in Hn.
  set (z := inject_Z n) in *. clearbody z. lra.
Qed.

Lemma eliteSites_head h scoredBees eliteCount top k bs k' :
  (1 <= eliteCount)%Z -> scoredBees !! 0 = Some top ->
  eliteSites h scoredBees eliteCount [] k = Ok (bs, k') ->
  bs !! 0 = Some (pos top).
Proof.
  intros Hec Htop. unfold eliteSites.
  destruct (Z.to_nat eliteCount) as [|m] eqn:Em; [lia|]. cbn [seq foldlM].
  intros Hrun. apply bind_M_inv in Hrun as (bs0 & k0 & Hfirst & Hrun).
  assert (bs0 !! 0 = Some (pos top)) as Hhead.
  { rewrite Htop in Hfirst.
    apply bind_M_inv in Hfirst as (s & ka & Hs & Hfirst). injection Hs as <- <-.
    apply bind_M_inv in Hfirst as (p & kb & _ & Hfirst). injection Hfirst as <- _.
    cbn. by destruct (pos top). }
  revert Hrun.
  apply (foldlM_M_partial (fun bs => bs !! 0 = Some (pos top))); [|exact Hhead].
  intros s i ka s' kb Hs _ Hstep.
  apply bind_M_inv in Hstep as (s0 & kc & _ & Hstep).
  apply bind_M_inv in Hstep as (p & kd & _ & Hstep). injection Hstep as <- _.
  by do 2 apply lookup_app_l_Some.
Qed.

(** X18.  In a running frame of a population size of at least five, the array
    of bees after the frame starts with a bee of the array before it that no
    bee of that array beats in fitness: the best site survives the frame
    unmoved, and the best fitness recorded after the frame is at least the
    fitness of that bee. *)
Theorem elite_site_kept h config st k fr k' :
  sqrt_sound h -> exp_sound h ->
  (5 <= populationSize config)%Z -> isRunning config = true ->
  Forall (fun b => finite (Point.x b) /\ finite (Point.y b)) (beesRef st) ->
  isNaN (bestRef st) = false ->
  animate h config true st k = Ok (fr, k') ->
  exists b,
    b ∈ beesRef st
    /\ beesRef (state fr) !! 0 = Some b
    /\ (forall b', b' ∈ beesRef st ->
          leb (fitnessOf h b') (fitnessOf h b) = true)
    /\ leb (fitnessOf h b) (bestRef (state fr)) = true.
Proof.
  intros Hsqrt Hexp Hn Hrun Hfin Hbest. unfold animate. rewrite Hrun. cbn [negb].
  cbn [setIteration beesRef bestRef iterationRef].
  set (mk := fun b => {| pos := b; score := getFitness h (Point.x b) (Point.y b) |}).
  set (scoredBees := sort _ _).
  assert (Forall (fun s => isNaN (score s) = false) (mk <$> beesRef st)) as Hnan.
  { apply Forall_fmap. eapply Forall_impl; [exact Hfin|]. intros b [Hx Hy].
    cbn [mk score compose].
    pose proof (getFitness_finite h _ _ Hsqrt Hexp Hx Hy) as Hf.
    by destruct (getFitness h _ _). }
  pose proof (sort_descending score (mk <$> beesRef st) Hnan) as Hsorted.
  fold scoredBees in Hsorted.
  assert (forall s, s ∈ scoredBees <-> exists b, b ∈ beesRef st /\ s = mk b) as Hmem.
  { intros s. unfold scoredBees. rewrite sort_perm, list_elem_of_fmap.
    split; intros (b & ? & ?); by exists b. }
  intros Hfr. apply bind_M_inv in Hfr as (top & k0 & Htop & Hfr). cbv zeta in Hfr.
  apply pure_inv in Htop as [Htop ->]. apply defined_inv in Htop.
  apply bind_M_inv in Hfr as (bs1 & k1 & H1 & Hfr).
  apply bind_M_inv in Hfr as (bs2 & k2 & H2 & Hfr).
  apply bind_M_inv in Hfr as (bs3 & k3 & H3 & Hfr).
  injection Hfr as <- <-. cbn [state beesRef bestRef].
  assert (top ∈ scoredBees) as Hin by (by eapply list_elem_of_lookup_2).
  apply Hmem in Hin as (b & Hb & Heq).
  assert (isNaN (score top) = false) as Htn.
  { rewrite Forall_forall in Hnan. apply Hnan. rewrite Heq.
    apply list_elem_of_fmap. by exists b. }
  assert (forall s, s ∈ scoredBees -> leb (score s) (score top) = true) as Hmax.
  { destruct scoredBees as [|top' rest]; [done|]. injection Htop as ->.
    apply StronglySorted_cons in Hsorted as [Hrest _].
    intros s Hs. apply elem_of_cons in Hs as [->|Hs]; [by apply leb_refl|].
    rewrite Forall_forall in Hrest. by apply Hrest. }
  exists b. split; [done|]. split; [|split].
  - assert (bs1 !! 0 = Some b) as Hb1.
    { replace b with (pos top) by (by rewrite Heq).
      eapply eliteSites_head; [|exact Htop|exact H1]. by apply floorOf_elite. }
    assert (bs2 !! 0 = Some b) as Hb2.
    { revert H2. unfold otherSites.
      apply (foldlM_M_partial (fun bs => bs !! 0 = Some b)); [|exact Hb1].
      intros bs i ka bs' kb Hbs _ Hstep.
      destruct (Z.of_nat (length bs) <? populationSize config)%Z;
        [|by injection Hstep as <- <-].
      apply bind_M_inv in Hstep as (s & kc & _ & Hstep).
      apply bind_M_inv in Hstep as (p & kd & _ & Hstep). injection Hstep as <- _.
      by apply lookup_app_l_Some. }
    assert (bs3 !! 0 = Some b) as Hb3.
    { revert H3. unfold scouts.
      apply (foldlM_M_partial (fun bs => bs !! 0 = Some b)); [|exact Hb2].
      intros bs i ka bs' kb Hbs _ Hstep.
      apply bind_M_inv in Hstep as (p & kd & _ & Hstep). injection Hstep as <- _.
      by apply lookup_app_l_Some. }
    unfold slice0. destruct (Z.ltb_spec (populationSize config) 0); [lia|].
    rewrite lookup_take_lt by lia. exact Hb3.
  - intros b' Hb'. change (fitnessOf h b') with (score (mk b')).
    replace (fitnessOf h b) with (score top) by (by rewrite Heq).
    apply Hmax, Hmem. by exists b'.
  - replace (fitnessOf h b) with (score top) by (by rewrite Heq).
    destruct (gtb (score top) (bestRef st)) eqn:E; [by apply leb_refl|].
    by apply ltb_false_leb.
Qed.

Lemma initialState_elite :
  exists st k,
    initialize exampleHost (exampleConfig 10) 0 = Ok (st, k)
    /\ length (beesRef st) = Z.to_nat (populationSize (exampleConfig 10))
    /\ Forall (fun b => finite (Point.x b) /\ finite (Point.y b)) (beesRef st)
    /\ isNaN (bestRef st) = false.
Proof.
  destruct (bees_initialize_ok exampleHost (exampleConfig 10) 0)
    as (st & k & Hi & Hlen & Hb & _); [by compute|].
  exists st, k. split; [exact Hi|]. split; [exact Hlen|]. split; [|by rewrite Hb].
  assert (Forall beeOnCanvas (beesRef st)) as Hall.
  { apply initialize_inv in Hi as (_ & _ & bs & Hbs & ->).
    eapply scouting_on_canvas; [apply exampleHost_random| |exact Hbs]. done. }
  eapply Forall_impl; [exact Hall|]. apply beeOnCanvas_finite.
Qed.

Lemma elite_site_kept_witness :
  sqrt_sound exampleHost /\ exp_sound exampleHost
  /\ (5 <= populationSize (exampleConfig 10))%Z
  /\ isRunning (exampleConfig 10) = true
  /\ exists st k fr k',
       initialize exampleHost (exampleConfig 10) 0 = Ok (st, k)
       /\ Forall (fun b => finite (Point.x b) /\ finite (Point.y b)) (beesRef st)
       /\ isNaN (bestRef st) = false
       /\ animate exampleHost (exampleConfig 10) true st k = Ok (fr, k')
       /\ exists b,
            b ∈ beesRef st
            /\ beesRef (state fr) !! 0 = Some b
            /\ (forall b', b' ∈ beesRef st ->
                  leb (fitnessOf exampleHost b') (fitnessOf exampleHost b) = true)
            /\ leb (fitnessOf exampleHost b) (bestRef (state fr)) = true.
Proof.
  split; [apply exampleHost_sqrt|]. split; [apply exampleHost_exp|].
  split; [by compute|]. split; [reflexivity|].
  destruct initialState_elite as (st & k & Hi & Hlen & Hfin & Hb).
  destruct (bees_frame exampleHost (exampleConfig 10) true st k)
    as (fr & k' & Hfr & _); [by compute|exact Hlen|].
  exists st, k, fr, k'. repeat (split; [done|]).
  apply (elite_site_kept exampleHost (exampleConfig 10) st k fr k'
           exampleHost_sqrt exampleHost_exp); [by compute|reflexivity|done..].
Defined.

(** **** Recruits *)

Lemma bees_clamp_Fin m :
  exists c, clamp (Fin m) = Fin c
            /\ ((0 <= m <= 600 /\ c == m) \/ (m < 0 /\ c == 0)
                \/ (600 < m /\ c == 600))%Q.
Proof.
  unfold clamp, CANVAS_SIZE, zero, Math_min, Math_max. cbn [isNaN orb].
  destruct (ltb (Fin m) (Fin 600)) eqn:E1; cbn [isNaN orb].
  - apply ltb_Fin in E1. destruct (ltb (Fin 0) (Fin m)) eqn:E2.
    + apply ltb_Fin in E2. exists m. split; [done|]. left. split; [lra|reflexivity].
    + assert (~ (0 < m)%Q) by (rewrite <- ltb_Fin; congruence).
      exists 0%Q. split; [done|].
      destruct (Qlt_le_dec m 0); [right; left; by split|].
      left. split; lra.
  - assert (~ (m < 600)%Q) by (rewrite <- ltb_Fin; congruence).
    replace (ltb (Fin 0) (Fin 600)) with true by done.
    exists 600%Q. split; [done|].
    destruct (Qlt_le_dec 600 m); [right; right; by split|].
    left. split; lra.
Qed.

Lemma recruit_coordinate h k w a :
  random_sound h -> (0 <= w)%Q -> within zero CANVAS_SIZE a ->
  near (w / 2) a (clamp (add a (mul (sub (Math_random h k) (Fin (1 # 2))) (Fin w)))).
Proof.
  intros Hrand Hw Ha. pose proof (Hrand k) as Hu.
  destruct (Math_random h k) as [u| | |]; try done. cbn [unit_interval] in Hu.
  unfold zero, CANVAS_SIZE in Ha. apply within_inv in Ha as (qa & -> & Ha).
  cbn [sub neg add mul].
  destruct (bees_clamp_Fin (qa + (u + - (1 # 2)) * w)) as (c & -> & Hc).
  unfold near. cbn [sub neg add]. apply within_Fin.
  assert (w / 2 == w * (1 # 2))%Q as E by reflexivity. rewrite E.
  destruct Hc as [[Hm Hc]|[[Hm Hc]|[Hm Hc]]]; rewrite Hc; split; nra.
Qed.

(** X19.  A recruit of a site on the canvas lies on the canvas and at most
    half the patch width from its site on each axis, whatever is drawn: 10 for
    an elite site, 25 for another good site. *)
Theorem recruit_near_site h w s k p k' :
  random_sound h -> (0 <= w)%Q -> beeOnCanvas (pos s) ->
  neighbor h (Fin w) s k = Ok (p, k') ->
  beeOnCanvas p
  /\ near (w / 2) (Point.x (pos s)) (Point.x p)
  /\ near (w / 2) (Point.y (pos s)) (Point.y p).
Proof.
  intros Hrand Hw Hs Hp. split; [by eapply neighbor_on_canvas|].
  destruct Hs as [Hx Hy].
  revert Hp. cbv [neighbor mbind M_bind random mret M_ret]. intros [= <- <-].
  cbn [Point.x Point.y]. split; by apply recruit_coordinate.
Qed.

Lemma recruit_near_site_witness :
  random_sound exampleHost /\ (0 <= 20)%Q
  /\ beeOnCanvas (Point.mk (Fin 5) (Fin 595))
  /\ forall p k',
       neighbor exampleHost (Fin 20)
                {| pos := Point.mk (Fin 5) (Fin 595); score := zero |} 1 = Ok (p, k') ->
       beeOnCanvas p
       /\ near (20 / 2) (Fin 5) (Point.x p)
       /\ near (20 / 2) (Fin 595) (Point.y p).
Proof.
  split; [apply exampleHost_random|]. split; [by compute|]. split; [by compute|].
  intros p k'.
  apply (recruit_near_site exampleHost 20
           {| pos := Point.mk (Fin 5) (Fin 595); score := zero |} 1 p k'
           exampleHost_random); by compute.
Defined.

(** **** The range of the fitness *)

Lemma peak_bounded h d q :
  exp_decay h -> nonneg_fin d -> (0 < q)%Q ->
  within zero (Fin q) (mul (Fin q) (Math_exp h (div (neg d) (Fin q)))).
Proof.
  intros Hexp Hd Hq. destruct d as [d0| | |]; try done. cbn [nonneg_fin] in Hd.
  cbn [neg]. unfold div. destruct (Qeq_bool q 0) eqn:E.
  { apply Qeq_bool_eq in E. lra. }
  assert (- d0 / q <= 0)%Q as Harg by (apply Qle_shift_div_r; lra).
  destruct (within_inv _ _ _ (Hexp _ Harg)) as (e & -> & He).
  cbn [mul]. apply within_Fin. split; nra.
Qed.

Lemma fitness_bounded h x y :
  sqrt_sound h -> exp_decay h -> finite x -> finite y ->
  within zero (Fin 240) (getFitness h x y).
Proof.
  intros Hsqrt Hexp Hx Hy. unfold getFitness, CANVAS_SIZE.
  assert (forall a b, finite a -> finite b ->
            nonneg_fin (Math_sqrt h (add (Math_pow a 2) (Math_pow b 2)))) as Hd.
  { intros a b Ha Hb. apply Hsqrt. apply nonneg_fin_add; by apply square_nonneg. }
  assert (finite (div (Fin 600) (Fin 2))) as Hc by done.
  set (c := div (Fin 600) (Fin 2)) in *. clearbody c.
  assert (forall q v1 v2 v3,
            within zero (Fin 100) v1 -> within zero (Fin 80) v2 ->
            within zero (Fin 60) v3 -> q = 240%Q ->
            within zero (Fin q) (add (add v1 v2) v3)) as Hsum.
  { intros q v1 v2 v3 H1 H2 H3 ->. unfold zero in *.
    apply within_inv in H1 as (q1 & -> & H1). apply within_inv in H2 as (q2 & -> & H2).
    apply within_inv in H3 as (q3 & -> & H3). cbn [add]. apply within_Fin. lra. }
  apply Hsum; [apply peak_bounded; [done| |lra]..|done]; apply Hd.
  - by apply finite_sub.
  - by apply finite_sub.
  - apply finite_add; [by apply finite_sub|done].
  - apply finite_sub; [by apply finite_sub|done].
  - apply finite_sub; [by apply finite_sub|done].
  - apply finite_add; [by apply finite_sub|done].
Qed.

(** X20.  With random draws in [0, 1), a square root that is not negative and
    an exponential between 0 and 1 on numbers that are not positive, the best
    fitness recorded in a state that the engine reaches, whatever the
    population sizes that the closures of its frames have read, lies between
    0 and 240, the sum of the heights of the three peaks. *)
Theorem best_fitness_bounded h st :
  random_sound h -> sqrt_sound h -> exp_decay h ->
  reachable h st -> within zero (Fin 240) (bestRef st).
Proof.
  intros Hrand Hsqrt Hexp Hreach.
  enough (Forall beeOnCanvas (beesRef st) /\ within zero (Fin 240) (bestRef st))
    by tauto.
  induction Hreach as [config k st k' Hinit
                      |config ctx st k fr k' _ [IHc IHb] Hfr
                      |config ctx st k e _ [IHc IHb] _].
  - apply initialize_inv in Hinit as (-> & _ & bs & Hbs & ->).
    split; [by eapply scouting_on_canvas|]. apply within_Fin. lra.
  - split; [by eapply frame_on_canvas|].
    destruct (frame_best _ _ _ _ _ _ _ Hfr) as [-> | (_ & b & Hb & ->)]; [done|].
    rewrite Forall_forall in IHc. destruct (beeOnCanvas_finite b (IHc b Hb)).
    by apply fitness_bounded.
  - split; [exact IHc|].
    destruct (thrown_best h st) as [-> | (_ & b & Hb & ->)]; [done|].
    rewrite Forall_forall in IHc. destruct (beeOnCanvas_finite b (IHc b Hb)).
    by apply fitness_bounded.
Qed.

Lemma best_fitness_bounded_witness :
  random_sound exampleHost /\ sqrt_sound exampleHost /\ exp_decay exampleHost
  /\ reachable exampleHost staleBeesState
  /\ within zero (Fin 240) (bestRef staleBeesState).
Proof.
  split; [apply exampleHost_random|]. split; [apply exampleHost_sqrt|].
  split; [apply exampleHost_exp_decay|]. split; [exact staleBeesState_reachable|].
  exact (best_fitness_bounded exampleHost staleBeesState
           exampleHost_random exampleHost_sqrt exampleHost_exp_decay
           staleBeesState_reachable).
Defined.

End BeesInvariants.

(** *** Rendering of the ant colony *)

Module AcoRenderTheory.
Import Aco AcoTheory AcoRender.

Lemma min_visible x c :
  positive x -> (0 < c)%Q ->
  positive (Math_min x (Fin c)) /\ leb (Math_min x (Fin c)) (Fin c) = true.
Proof.
  intros Hx Hc. unfold Math_min. destruct x as [q| | |]; try done; cbn [isNaN orb].
  - cbn [positive] in Hx. destruct (ltb (Fin c) (Fin q)) eqn:E.
    + split; [done|]. apply leb_Fin. lra.
    + assert (~ (c < q)%Q) by (rewrite <- ltb_Fin; congruence).
      split; [done|]. apply leb_Fin. lra.
  - cbn [ltb]. split; [done|]. apply leb_Fin. lra.
Qed.

Lemma positive_scaled v c : positive v -> (0 < c)%Q -> positive (mul v (Fin c)).
Proof.
  intros Hv Hc. destruct v as [q| | |]; try done; cbn [mul positive] in *.
  - nra.
  - unfold signed. destruct (Qcompare_spec c 0) as [E|E|E]; [lra|lra|done].
Qed.

Lemma pheromoneLine_ok cities ph i j :
  length cities = CITY_COUNT -> symmetricPositive ph ->
  i < CITY_COUNT -> j < CITY_COUNT ->
  exists line, pheromoneLine cities ph i j = Ok line
               /\ forall s, line = Some s -> visible s.
Proof.
  intros Hlen Hsym Hi Hj. unfold pheromoneLine.
  destruct (Hsym i j Hi Hj) as (v & Hv & _ & Hpos). unfold entry in Hv.
  destruct (ph !! i) as [row|] eqn:Hrow; [|done]. cbn in Hv.
  cbn [defined mbind result_bind]. rewrite Hv.
  change (of_slot (Some v)) with v.
  destruct (gtb v (Fin (1 # 10))); [|eexists; split; [reflexivity|]; by intros s [=]].
  destruct (lookup_lt_is_Some_2 cities i) as [p Hp]; [lia|].
  destruct (lookup_lt_is_Some_2 cities j) as [q Hq]; [lia|].
  rewrite Hp, Hq. cbn [defined mbind result_bind].
  eexists. split; [reflexivity|]. intros s [= <-]. unfold visible.
  cbn [strokeAlpha strokeWidth].
  destruct (min_visible (mul v (Fin (5 # 100))) (8 # 10)) as [? ?];
    [by apply positive_scaled|done|].
  destruct (min_visible (mul v (Fin (5 # 10))) 8) as [? ?];
    [by apply positive_scaled|done|].
  done.
Qed.

Lemma drawPheromones_ok cities ph :
  length cities = CITY_COUNT -> symmetricPositive ph ->
  exists lines, drawPheromones cities ph = Ok lines /\ Forall visible lines.
Proof.
  intros Hlen Hsym. unfold drawPheromones.
  apply (foldlM_result_inv (Forall visible)); [|done].
  intros lines i Hlines Hi. apply elem_of_seq in Hi.
  apply (foldlM_result_inv (Forall visible)); [|done].
  intros lines' j Hlines' Hj. apply elem_of_seq in Hj.
  destruct (pheromoneLine_ok cities ph i j Hlen Hsym) as (line & -> & Hline);
    [lia|lia|].
  cbn [mbind result_bind]. eexists. split; [reflexivity|].
  destruct line as [s|]; [|done]. apply Forall_app. split; [done|].
  constructor; [by apply Hline|done].
Qed.

Lemma antSegments_ok cities (path : list nat) :
  length cities = CITY_COUNT -> path ≡ₚ seq 0 CITY_COUNT ->
  exists segments,
    antSegments cities path = Ok segments /\ length segments = CITY_COUNT - 1.
Proof.
  intros Hlen Hp. unfold antSegments. pose proof (perm_length path Hp) as Hl.
  assert (forall c, c ∈ path -> c < length cities) as Hrange
    by (intros c Hc; rewrite Hlen; by eapply perm_range).
  destruct (foldlM_result_count (fun _ => True)
              (fun segments i =>
                 p1 ← cityAt cities path i;
                 p2 ← cityAt cities path (i + 1);
                 Ok (segments ++ [(p1, p2)]))
              (seq 0 (length path - 1))) with (s := @nil (Point.t * Point.t))
    as (segments & Heq & Hcount & _); [|done|].
  { intros s i _ Hi. apply elem_of_seq in Hi.
    destruct (cityAt_ok cities path i) as [p1 H1]; [lia|done|].
    destruct (cityAt_ok cities path (i + 1)) as [p2 H2]; [lia|done|].
    rewrite H1. cbn [mbind result_bind]. rewrite H2. cbn [mbind result_bind].
    eexists. split; [reflexivity|]. split; [|done]. rewrite length_app. cbn. lia. }
  exists segments. split; [exact Heq|]. by rewrite Hcount, length_seq, Hl.
Qed.

Lemma drawAnts_ok cities (paths : list (list nat)) :
  length cities = CITY_COUNT ->
  Forall (fun path => path ≡ₚ seq 0 CITY_COUNT) paths ->
  exists lines,
    drawAnts cities paths = Ok lines
    /\ length lines = 5 `min` length paths
    /\ Forall (fun segments => length segments = CITY_COUNT - 1) lines.
Proof.
  intros Hlen Hperm. unfold drawAnts, slice0. cbn [Z.ltb Z.compare Z.to_nat].
  change (Pos.to_nat 5) with 5.
  destruct (foldlM_result_count
              (Forall (fun segments : list (Point.t * Point.t) =>
                         length segments = CITY_COUNT - 1))
              (fun lines path =>
                 segments ← antSegments cities path;
                 Ok (lines ++ [segments]))
              (take 5 paths)) with (s := @nil (list (Point.t * Point.t)))
    as (lines & Heq & Hcount & Hall); [|done|].
  { intros s path Hs Hpath.
    destruct (antSegments_ok cities path Hlen) as (segments & -> & Hl).
    { rewrite Forall_forall in Hperm. apply Hperm.
      apply elem_of_take in Hpath as (i & Hi & _). by eapply list_elem_of_lookup_2. }
    cbn [mbind result_bind]. eexists. split; [reflexivity|].
    split; [rewrite length_app; cbn; lia|].
    apply Forall_app. split; [done|]. by constructor. }
  exists lines. split; [exact Heq|]. split; [|done].
  rewrite Hcount, length_take. cbn. lia.
Qed.

Lemma drawBestPath_ok cities (path : list nat) :
  length cities = CITY_COUNT ->
  path = [] \/ path ≡ₚ seq 0 CITY_COUNT ->
  exists points,
    drawBestPath cities path = Ok points
    /\ length points = match path with [] => 0 | _ => CITY_COUNT + 1 end.
Proof.
  intros Hlen [->|Hp]; [by exists []|]. unfold drawBestPath.
  pose proof (perm_length path Hp) as Hl.
  assert (forall c, c ∈ path -> c < length cities) as Hrange
    by (intros c Hc; rewrite Hlen; by eapply perm_range).
  rewrite Hl. change (0 <? CITY_COUNT) with true. cbv iota.
  destruct (cityAt_ok cities path 0) as [start Hstart];
    [rewrite Hl; unfold CITY_COUNT; lia|done|].
  rewrite Hstart. cbn [mbind result_bind].
  destruct (foldlM_result_count (fun _ => True)
              (fun points i => p ← cityAt cities path i; Ok (points ++ [p]))
              (seq 1 (CITY_COUNT - 1))) with (s := [start])
    as (points & Heq & Hcount & _); [|done|].
  { intros s i _ Hi. apply elem_of_seq in Hi.
    destruct (cityAt_ok cities path i) as [p H1];
      [rewrite Hl; unfold CITY_COUNT in *; lia|done|].
    rewrite H1. cbn [mbind result_bind]. eexists. split; [reflexivity|].
    split; [|done]. rewrite length_app. cbn. lia. }
  rewrite Heq. cbn [mbind result_bind]. eexists. split; [reflexivity|].
  rewrite length_app, Hcount, length_seq.
  destruct path; [done|]. cbn. unfold CITY_COUNT. lia.
Qed.

Lemma render_ok cities st paths :
  length cities = CITY_COUNT -> symmetricPositive (pheromonesRef st) ->
  bestPathRef st = [] \/ bestPathRef st ≡ₚ seq 0 CITY_COUNT ->
  Forall (fun path => path ≡ₚ seq 0 CITY_COUNT) paths ->
  exists d,
    render cities st paths = Ok d
    /\ Forall visible (pheromoneLines d)
    /\ length (antLines d) = 5 `min` length paths
    /\ Forall (fun segments => length segments = CITY_COUNT - 1) (antLines d)
    /\ length (bestLine d)
       = match bestPathRef st with [] => 0 | _ => CITY_COUNT + 1 end
    /\ cityDots d = cities.
Proof.
  intros Hlen Hsym Hbest Hperm. unfold render.
  destruct (drawPheromones_ok cities _ Hlen Hsym) as (lines & -> & Hlines).
  destruct (drawAnts_ok cities paths Hlen Hperm) as (ants & -> & Hn & Hants).
  destruct (drawBestPath_ok cities _ Hlen Hbest) as (best & -> & Hb).
  cbn [mbind result_bind]. eexists. split; [reflexivity|]. by repeat split.
Qed.

Lemma reachable_best_path h cities st :
  random_sound h -> length cities = CITY_COUNT -> reachable h cities st ->
  bestPathRef st = [] \/ bestPathRef st ≡ₚ seq 0 CITY_COUNT.
Proof.
  intros Hrand Hlen Hreach.
  enough ((bestPathRef st = [] \/ bestPathRef st ≡ₚ seq 0 CITY_COUNT)
          /\ hasRows (pheromonesRef st)) by tauto.
  apply (ticks_ind_from h cities
           (fun st => (bestPathRef st = [] \/ bestPathRef st ≡ₚ seq 0 CITY_COUNT)
                      /\ hasRows (pheromonesRef st))
           initState); [| |exact Hreach].
  - split; [by left|]. apply symmetricPositive_rows, initState_symmetric.
  - intros config st0 k fr k' [Hvalid Hrows] Hrun Hfr.
    destruct (animate_run h config cities st0 k Hrand Hlen Hrows Hrun)
      as (paths & dists & ph1 & ph2 & k1 & _ & Hperm & _ & _ & _ & Hrows2 & Heq).
    pose proof (animate_best h config cities st0 k fr k' Hrun Hfr) as Hbest.
    rewrite Hfr in Heq. injection Heq as Hfr' _.
    split; [|rewrite Hfr'; exact Hrows2].
    destruct Hbest as [[= Hp _] | (_ & Hin & _)]; [by rewrite Hp|].
    right. rewrite Forall_forall in Hperm. apply Hperm.
    by rewrite Hfr' in Hin at 2.
Qed.

(** X21.  The painting of a running frame never throws: from a reachable
    state the frame returns and the rendering of the state and the paths it
    leaves returns too.  Every pheromone line painted has an opacity above 0
    and at most 0.8 and a width above 0 and at most 8; the paths of at most
    five ants are painted, each with one segment less than there are cities;
    the best tour, once there is one, is painted as a closed line through
    all cities. *)
Theorem frame_renders h config cities st k :
  random_sound h -> sqrt_sound h -> citiesInitialized cities ->
  reachable h cities st -> isRunning config = true ->
  exists fr k' d,
    animate h config true cities st k = Ok (fr, k')
    /\ render cities (state fr) (currentAntsPaths fr) = Ok d
    /\ Forall visible (pheromoneLines d)
    /\ length (antLines d) = 5 `min` Z.to_nat (populationSize config)
    /\ Forall (fun segments => length segments = CITY_COUNT - 1) (antLines d)
    /\ length (bestLine d)
       = match bestPathRef (state fr) with [] => 0 | _ => CITY_COUNT + 1 end
    /\ cityDots d = cities.
Proof.
  intros Hrand Hsqrt Hcities Hreach Hrun. pose proof Hcities as [Hlen _].
  pose proof (reachable_rows h cities st Hrand Hlen Hreach) as Hrows.
  destruct (animate_run h config cities st k Hrand Hlen Hrows Hrun)
    as (paths & dists & ph1 & ph2 & k' & Hn & Hperm & _ & _ & _ & _ & Heq).
  set (fr := {| state := _ |}) in Heq.
  assert (reachable h cities (state fr)) as Hreach'
    by (eapply ticks_step; [exact Hreach|exact Heq]).
  destruct (render_ok cities (state fr) (currentAntsPaths fr) Hlen)
    as (d & Hd & Hlines & Hants & Hsegs & Hbest & Hdots).
  { by apply (reachable_symmetric h cities). }
  { by apply (reachable_best_path h cities). }
  { exact Hperm. }
  exists fr, k', d. split; [exact Heq|]. split; [exact Hd|].
  split; [done|]. split; [|done].
  rewrite Hants. unfold fr. cbn [currentAntsPaths]. by rewrite Hn.
Qed.

Lemma frame_renders_witness :
  random_sound exampleHost /\ sqrt_sound exampleHost
  /\ citiesInitialized exampleCities
  /\ reachable exampleHost exampleCities initState
  /\ isRunning (exampleConfig 3) = true
  /\ exists fr k' d,
       animate exampleHost (exampleConfig 3) true exampleCities initState 30
       = Ok (fr, k')
       /\ render exampleCities (state fr) (currentAntsPaths fr) = Ok d
       /\ length (antLines d) = 3.
Proof.
  split; [apply exampleHost_random|]. split; [apply exampleHost_sqrt|].
  split; [apply exampleCities_initialized|]. split; [apply ticks_refl|].
  split; [reflexivity|].
  destruct (frame_renders exampleHost (exampleConfig 3) exampleCities initState 30
              exampleHost_random exampleHost_sqrt exampleCities_initialized
              (ticks_refl _ _ _) eq_refl)
    as (fr & k' & d & Hfr & Hd & _ & Hn & _).
  exists fr, k', d. split; [exact Hfr|]. split; [exact Hd|]. exact Hn.
Defined.

End AcoRenderTheory.
